(* ===== verification/_CoqProject ===== *)
-Q . S2P
Prelude.v
Machine.v
Ledger.v
Circle.v
SimpleInit.v
NextFit.v
Malloc.v
Free.v
Allocator.v
Coalesce.v
Exhaustion.v
Interface.v
Client.v
Exerciser.v
MmInstance.v
Durability.v
Scenarios.v
