(* ===== verification/Prelude.v ===== *)
(** * A verified model of the next-fit allocator of [src/group_06_assign_3/mm.c]

    ** The program

    [mm.c] manages one arena, the byte range [[memory_start, memory_end)]
    given by the globals of [mm_aux.c] (included by [mm.c], not part of the
    sources). The arena holds a circular singly-linked list of 8-byte block
    headers: each header word is the address of the next header with the
    free flag packed into bit 0 ([BlockHeader], macros [GET_NEXT],
    [SET_NEXT], [GET_FREE], [SET_FREE], [SIZE]). The last header of the
    arena is a used sentinel whose word points back to [first]. Two
    globals, [first] and the next-fit cursor [current], complete the state.
    - [simple_init] (lines 50-72) lazily rounds the arena to 8 bytes and
      installs one free block and the sentinel.
    - [simple_malloc] (lines 84-143) initialises on the first call, rounds
      the request (lines 91-92), and scans the circle from [current]: at a
      free header it absorbs the free headers after it (lines 99-108); at
      the first free block large enough it carves the request, splitting
      off the rest as a new free header (lines 114-136), and leaves
      [current] after the block.
    - [simple_free] (lines 156-192) finds the header 8 bytes below the
      pointer, ignores a block already free, marks it free, absorbs the
      free headers after it, walks the circle to its predecessor and lets a
      free predecessor absorb it. It never moves [current].
    The clients are [main.c] (a growing array of [int]) and the unit tests
    of [check_mm.c].

    ** The files

    - [Prelude]: 64-bit unsigned arithmetic with its wrap-around written
      out ([W], [wrap], [⊞], [⊟], [wnot], in [mm_scope]), the tactic
      [wsimpl] that removes wraps proved harmless, bit lemmas for the masks
      [& ~7] and [& ~1], the hint database [mm], and [by_eval].
    - [Machine]: the memory as a map from addresses to 64-bit words
      ([gmap Z Z]; an address never written reads [0]); the macros as
      definitions of the same names; [hdr_word n f], the word [n | f];
      [mm_state] (memory, [first], [current]); [arena] (the bounds).
    - [Ledger]: the abstraction. The headers other than the sentinel are a
      list of [block]s (address, flag) in address order, the sentinel an
      address [s]. [ledger st l s] is the invariant of an initialised
      state: the memory holds the list ([chain]), the blocks are 8-aligned,
      increasing and have room for [MIN_SIZE] bytes ([layout]), no two
      neighbours are both free ([nadj]), the sentinel points back to
      [first]. [cursor_ok] says that [current] is a header; [live_at x]
      that [x] lies in a used payload. Each predicate is decidable, and
      the list is determined by the memory ([ledger_unique]).
    - [Circle]: the headers of a ledger state in address order,
      [headers l s]; [GET_NEXT] moves one step round them, so they form
      the circle of the specification, each word a tagged pointer, and
      [SIZE] of a block is its payload.
    - [SimpleInit]: [simple_init], the rounding of the bounds, the loop
      bound [loop_fuel], and [arena_wf], the arena the environment must
      supply.
    - [NextFit]: the specification of allocation on lists, [malloc_spec]:
      next-fit from the cursor, carving with [carve_blocks].
    - [Malloc]: [simple_malloc] statement by statement ([coalesce], [carve],
      [advance], [malloc_iter], [search], [request_size], [malloc_search])
      and its refinement of [malloc_spec].
    - [Free]: [simple_free] ([coalesce_forward], [find_prev], [free_with])
      and its refinement of the list specification [free_spec]; which
      headers a release keeps; a criterion under which the backward walk
      never returns.
    - [Allocator]: the invariant [mm_inv] (ledger, cursor on a header,
      ledger spanning the arena), its preservation, the reachable states
      as an inductive relation [reachable], disjointness of the blocks,
      and exactly when a release leaves the cursor on a header.
    - [Interface]: what a client may rely on, as classes: the operations
      [AllocOps] (allocate, release, read and write a payload word) and the
      laws [AllocLaws] over a heap predicate. Releasing is guaranteed to
      keep the heap predicate only when [release_safe] holds, which the
      laws give right after an allocation for every other live block. A
      weaker predicate [held] survives every release. Both predicates
      ignore the order of the live list ([Proper] for [≡ₚ]); allocated
      pointers are 8-aligned.
    - [Client]: [main.c] generic in the allocator ([copy_ints], [grow],
      [step], [main_loop], [print_result], [main]) and its correctness
      against the interface ([main_spec]).
    - [Exerciser]: the memory exerciser of [check_mm.c] (lines 95-235)
      and [sum_block] (lines 21-29), generic in the allocator: [rand()] is
      a parameter sequence [rnd], [uint32_t] arithmetic wraps at [2^32]
      ([wrap32], [size_draw]), one iteration is [alloc_block] then
      [free_block], the loop [iterate], the end [final_frees]; a failing
      assertion ends the test with a [verdict] and the allocator state, in
      a small result monad ([obind]). Its correctness against the
      interface ([exerciser_spec]) assumes [sched_ok]: the bookkeeping of
      the loop (clock, total, live sizes, calls of [rand()]) never draws a
      size that fails the sanity check.
    - [Coalesce]: the consequences of coalescing. A release is the
      normal form [coalesced] of the list with the released block marked
      free ([free_spec_coalesced]); a used block is a barrier of the
      normal form, so releases commute; when every block is free the
      arena is one block; an allocation followed by its release restores
      the list.
    - [Exhaustion]: the specification's exhaustion test [alloc_until]
      (allocate until a call returns [NULL]; a test of the specification,
      not code of the repository) and the variant that bounds it, the free
      bytes of the ledger [free_bytes].
    - [MmInstance]: [mm.c] as an instance of the interface ([mm_ops],
      [mm_laws], with [mm_held]: ledger and span without the cursor),
      [main.c] and the exerciser on [mm.c].
    - [Durability]: the specification's content durability for a client
      of the interface ([cmd], the disciplined runs [run_ok]: one release,
      of a block older than the latest successful allocation, between
      two successful allocations), proved sound against [AllocLaws] and
      applied to [mm.c].
    - [Scenarios]: sequences of calls ([run]), the deterministic tests of
      [check_mm.c], the suite (lines 241-255) and the runner [main]
      (lines 261-271, [check_main]) as definitions, concrete
      runs on small arenas evaluated by the kernel, and the theorems
      applied to concrete states.

    ** The theorems

    - Refinement (C1, C2): on a state with the invariant, [simple_malloc]
      and [simple_free] terminate within their fuel and do what
      [malloc_spec] and [free_spec] say to the list of blocks; no byte of a
      live payload changes.
    - Safety (C3, C9, C22): every state reached from the initial globals
      by allocations and by releases that leave the cursor on a header is
      uninitialised or satisfies the invariant, and its blocks lie in the
      arena without overlapping; two allocations in a row never overlap;
      the state a release returns satisfies the invariant exactly when the
      cursor is neither the free block after the released one nor the
      released one with a free predecessor.
    - The client (C4): [main.c] on [mm.c] returns for every input and
      prints what the list semantics says, or exits with 1 when the arena
      is exhausted; its allocate, copy, release pattern never releases a
      block under the cursor.
    - Behaviour (C5-C7, C11-C14): non-null, 8-aligned results with room
      for the request; next-fit order; [NULL] exactly on exhaustion, with
      the state unchanged; the first call; the arena too small; the
      double-release no-op; the rounding of the request.
    - Encoding and representation (C15-C17, C25): the header word round
      trip; on every ledger state, following [GET_NEXT] from any header
      returns to it after one step per header and visits all of them (the
      liveness of the specification's circle); [SIZE] is the payload of
      each block; following [GET_NEXT] from [first] and reading [GET_FREE]
      gives back exactly the list of the abstraction ([walk], which the
      scenarios read states with).
    - Equivalence (C18): the printing code of [main.c], with its special
      case for a lone [0], prints what the reference printer prints.
    - The exerciser (C19-C21, C24): its size formula wraps in [uint32_t],
      so sizes stay below 512 KiB and a draw from an empty total is 0 for
      one value of [rand()] in 512; when no draw fails the sanity check,
      the exerciser on [mm.c] returns and fails at most on a [NULL]
      allocation, never on alignment or a checksum; its running total is
      the sum of the live sizes and stays below [2^23], so
      [24 MiB - total] never wraps.
    - Exhaustion (C23): allocating again and again from any state with the
      invariant reaches a call returning [NULL] within [loop_fuel] calls,
      every call returning, and the invariant survives.
    - Coalescing (C26, C27, C29): releasing every live block, in any
      order, leaves one free block spanning the arena; two releases give
      the same blocks, cursor and live bytes in either order; releasing
      the block just allocated restores the list of blocks exactly, and
      leaves the cursor on a header if and only if the allocation did not
      split a block.
    - Durability (C28): a client of [mm.c] that releases at most one
      older block between two successful allocations never sees a byte of
      its live allocations change, and its live allocations stay apart
      and aligned.
    - Findings. [simple_free] can leave [current] on a header it absorbs
      (C22, C29), after which [simple_malloc] hands out memory overlapping
      a live block ([Scenarios.dangling_cursor_overlap], a concrete run)
      and a later [simple_free] loops for ever, for every fuel, which
      hangs the suite and the runner of [check_mm.c] (C8); fifteen zero
      draws in a row make the exerciser free twice with no allocation
      between, and [mm.c] then corrupts a block
      ([Scenarios.exerciser_zero_draws_corrupt]); the rounding
      [(size + 7) & ~7] wraps to [0] for the seven largest sizes (C10), so
      [simple_malloc(SIZE_MAX)] succeeds and returns the address of a
      header ([Scenarios.malloc_size_max_header]); releasing a block and
      allocating the same size again does not return the same address
      ([Scenarios.release_allocate_moves]). The concrete runs are
      evaluated by the kernel and are documentation of the findings, not
      properties.

    ** Bounds and fuel

    Every loop is a [Fixpoint] on a fuel [loop_fuel ar =
    (aligned_end - aligned_start) / 8 + 2], returning [None] when it runs
    out. Each block takes at least 16 bytes, so a list with the [layout]
    invariant has fewer than [loop_fuel ar - 2] blocks ([loop_fuel_bound]);
    the search visits each header at most once, each coalescing loop
    absorbs at most all of them, the predecessor walk goes round once. C1
    and C2 prove the result is [Some], so the fuel never runs out on a
    state with the invariant; C8 proves that outside it the walk returns
    [None] for every fuel, as the C loop never ends. Arithmetic on
    [uintptr_t] and [size_t] is kept at 64 bits. The theorems assume
    [arena_wf]: [memory_start] positive and at least 32 bytes below [2^64]
    (the rounding of line 51 and the test of line 58 would wrap), and
    requests of at most [2^64 - 8] bytes, the ones whose rounding does not
    wrap (C10 shows what happens above). In [main.c] the [int]s are kept
    as [Z] and the inputs are shorter than [2^30] characters, so no [int]
    overflows and no size passed to [simple_malloc] wraps.

    ** What is not modelled

    The memory is a map of words: the allocator reads and writes whole
    header words at 8-aligned addresses, and a payload is a set of other
    addresses; the frame theorems say that no address of a live payload
    changes; the client's [int] slots are addresses of the same map, which
    is sound because headers never lie inside a live payload.
    [read_char], [write_char] and [write_int] of [io.h] (not among the
    sources) are the input list and the output events; the digits
    [write_int] prints are not modelled. In [check_mm.c], [rand()] is a
    parameter sequence and the [printf] calls, which only print, are left
    out; the runner's [srunner] calls become running the four tests in the
    order of the suite ([CK_NOFORK]: one process, one allocator state).
    [simple_free(NULL)] and the release of a pointer [simple_malloc] did
    not return read the word below the pointer; on the machine that is an
    unmapped address and the call crashes, which a total map of words
    cannot express, so no theorem is stated about them: [AllocLaws]
    requires the pointer to be live. [mm_aux.c]
    is represented by the record [arena]. The program is single-threaded.
    The exerciser's run for C21's witness evaluates [sched_ok] over 1000
    iterations, the only slow evaluation of the development (about ten
    seconds). *)

From Stdlib Require Import ZArith Lia.
From stdpp Require Import base list gmap.

Declare Scope mm_scope.
Delimit Scope mm_scope with mm.
Open Scope Z_scope.

(** ** 64-bit unsigned arithmetic ([uintptr_t] and [size_t]) *)

(** The modulus of the machine's pointer-sized unsigned integers. *)
Definition W : Z := 2 ^ 64.

(** C's unsigned wrap-around, written out. *)
Definition wrap (z : Z) : Z := z mod W.
Definition wadd (a b : Z) : Z := wrap (a + b).
Definition wsub (a b : Z) : Z := wrap (a - b).

(** [~x] on a 64-bit unsigned value. *)
Definition wnot (x : Z) : Z := Z.lxor x (Z.ones 64).

Infix "⊞" := wadd (at level 50, left associativity) : mm_scope.
Infix "⊟" := wsub (at level 50, left associativity) : mm_scope.
Notation "'u64' x" := (0 <= x < W) (at level 70, no associativity) : mm_scope.

Open Scope mm_scope.

Create HintDb mm.

Lemma W_pos : 0 < W.
Proof. unfold W. lia. Qed.

Lemma wrap_small z : 0 <= z < W -> wrap z = z.
Proof. apply Z.mod_small. Qed.

Lemma wrap_range z : 0 <= wrap z < W.
Proof. unfold wrap. pose proof W_pos. apply Z.mod_pos_bound; lia. Qed.

Lemma wadd_small a b : 0 <= a + b < W -> a ⊞ b = a + b.
Proof. apply wrap_small. Qed.

Lemma wsub_small a b : 0 <= a - b < W -> a ⊟ b = a - b.
Proof. apply wrap_small. Qed.

(** The side conditions of [wsimpl]; extended by the files that define
    more constants. *)
Ltac wside := unfold W in *; lia.

(** [wsimpl] removes the wrap-around of additions and subtractions whose
    result is provably in range. *)
Ltac wsimpl :=
  repeat match goal with
  | |- context [?a ⊞ ?b] => rewrite (wadd_small a b) by wside
  | |- context [?a ⊟ ?b] => rewrite (wsub_small a b) by wside
  | H : context [?a ⊞ ?b] |- _ => rewrite (wadd_small a b) in H by wside
  | H : context [?a ⊟ ?b] |- _ => rewrite (wsub_small a b) in H by wside
  end.

(** ** Bit-level facts on 64-bit values *)

Lemma testbit_u64_high a i : u64 a -> 64 <= i -> Z.testbit a i = false.
Proof.
  intros Ha Hi. rewrite <- (Z.mod_small a W) by exact Ha.
  unfold W. apply Z.mod_pow2_bits_high. lia.
Qed.

(** Masking with [~(2^k - 1)] clears the [k] low bits. *)
Lemma land_wnot_ones a k :
  u64 a -> 0 <= k <= 64 -> Z.land a (wnot (Z.ones k)) = a - a mod 2 ^ k.
Proof.
  intros Ha Hk.
  transitivity (Z.ldiff a (Z.ones k)).
  - apply Z.bits_inj'; intros i Hi. unfold wnot.
    rewrite Z.land_spec, Z.ldiff_spec, Z.lxor_spec.
    destruct (Z.ltb_spec i 64).
    + rewrite (Z.ones_spec_low 64) by lia.
      destruct (Z.testbit (Z.ones k) i); reflexivity.
    + rewrite (testbit_u64_high a i) by lia. reflexivity.
  - rewrite Z.ldiff_ones_r, Z.shiftl_mul_pow2, Z.shiftr_div_pow2 by lia.
    pose proof (Z.mod_pos_bound a (2 ^ k)).
    rewrite (Z.div_mod a (2 ^ k)) at 2 by lia. lia.
Qed.

(** The same for any integer: the mask also truncates to 64 bits. *)
Lemma land_wnot_ones_wrap a k :
  0 <= k <= 64 -> Z.land a (wnot (Z.ones k)) = wrap a - a mod 2 ^ k.
Proof.
  intros Hk.
  assert (Z.land a (wnot (Z.ones k)) = Z.land (wrap a) (wnot (Z.ones k))) as ->.
  { apply Z.bits_inj'; intros i Hi. unfold wrap, W, wnot.
    rewrite !Z.land_spec, Z.testbit_mod_pow2, Z.lxor_spec by lia.
    destruct (Z.ltb_spec i 64); [reflexivity|].
    rewrite (Z.ones_spec_high 64), (Z.ones_spec_high k) by lia.
    destruct (Z.testbit a i); reflexivity. }
  rewrite land_wnot_ones by auto using wrap_range.
  unfold wrap, W. rewrite Z.mod_mod_divide; [reflexivity|].
  exists (2 ^ (64 - k)). rewrite <- Z.pow_add_r by lia. f_equal. lia.
Qed.

Lemma land_one a : Z.land a 1 = a mod 2.
Proof. change 1 with (Z.ones 1). rewrite Z.land_ones by lia. reflexivity. Qed.

(** Setting the low bit of an even value is adding it. *)
Lemma lor_even_bit x b : x mod 2 = 0 -> 0 <= b <= 1 -> Z.lor x b = x + b.
Proof.
  intros Hx Hb. rewrite <- Z.lxor_lor, <- Z.add_nocarry_lxor; [reflexivity| |].
  all: assert (b = 0 \/ b = 1) as [-> | ->] by lia;
       [rewrite Z.land_0_r; reflexivity | rewrite land_one; exact Hx].
Qed.

#[export] Hint Resolve wrap_range W_pos : mm.

(** A decidable proposition on concrete data, proved by evaluating its
    decision procedure. *)
Ltac by_eval := apply (bool_decide_unpack _); vm_compute; reflexivity.
