(* ===== verification/Machine.v ===== *)
(** * Machine: memory, the header encoding of [mm.c] and the global state

    The byte memory of the process is a finite map from addresses to the
    64-bit words stored there ([gmap Z Z]; an address never written reads as
    [0]). A [BlockHeader] is one such word: the address of the next header
    with the free flag packed into bit 0. The macros [GET_NEXT], [SET_NEXT],
    [GET_FREE], [SET_FREE] and [SIZE] of [src/group_06_assign_3/mm.c] are
    definitions of the same names, with [uintptr_t] and [size_t] arithmetic
    kept at 64 bits. The two globals [first] and [current] and the memory
    form the record [mm_state]; the arena bounds [memory_start] and
    [memory_end], defined in [mm_aux.c] (not part of the sources), form the
    record [arena]. *)

From Stdlib Require Import ZArith Lia.
From stdpp Require Import base list gmap.
From S2P Require Import Prelude.

Open Scope Z_scope.
Open Scope mm_scope.

(** ** Memory *)

(** Reading the word at address [a]. *)
Definition rd (m : gmap Z Z) (a : Z) : Z :=
  match m !! a with Some w => w | None => 0 end.

(** ** Constants of [mm.c] *)

Definition NULL : Z := 0.
(** [sizeof(BlockHeader)]: one pointer; the flexible array adds nothing. *)
Definition HDR : Z := 8.
Definition MIN_SIZE : Z := 8.

(** [lia] with the constants of [mm.c] unfolded. *)
Ltac mlia := unfold HDR, MIN_SIZE, NULL in *; lia.
Ltac wside ::= unfold W, HDR, MIN_SIZE, NULL in *; lia.

(** ** The header macros *)

(** [GET_NEXT(p)]: the next pointer with the free flag masked out. *)
Definition GET_NEXT (m : gmap Z Z) (p : Z) : Z := Z.land (rd m p) (wnot 1).

(** [GET_FREE(p)]: bit 0 of the next pointer, as a [uint8_t]. *)
Definition GET_FREE (m : gmap Z Z) (p : Z) : Z := Z.land (rd m p) 1.

(** [SET_NEXT(p,n)]: store [n], preserving the free flag. *)
Definition SET_NEXT (m : gmap Z Z) (p n : Z) : gmap Z Z :=
  <[p := Z.lor n (GET_FREE m p)]> m.

(** [SET_FREE(p,f)]: set bit 0 of the next pointer to [f & 1]. *)
Definition SET_FREE (m : gmap Z Z) (p f : Z) : gmap Z Z :=
  <[p := Z.lor (GET_NEXT m p) (Z.land f 1)]> m.

(** [SIZE(p)]: payload bytes between the header and the next header, as a
    [size_t]. *)
Definition SIZE (m : gmap Z Z) (p : Z) : Z := GET_NEXT m p ⊟ p ⊟ HDR.

(** The word a header holds when its next pointer is [n] and its flag [f]. *)
Definition hdr_word (n : Z) (f : bool) : Z := Z.lor n (Z.b2z f).

(** ** Global state *)

(** [static BlockHeader *first, *current] together with the memory. *)
Record mm_state := MmState { mem : gmap Z Z; first : Z; current : Z }.

(** The arena bounds, globals of [mm_aux.c]. *)
Record arena := Arena { memory_start : Z; memory_end : Z }.

Definition set_mem (st : mm_state) (m : gmap Z Z) : mm_state :=
  MmState m (first st) (current st).
Definition set_current (st : mm_state) (c : Z) : mm_state :=
  MmState (mem st) (first st) c.

(** An address that can hold a header word: 8-aligned and in range. *)
Definition aligned8 (a : Z) : Prop := a mod 8 = 0 /\ u64 a.

(** ** Lemmas on memory and on the header encoding *)

Lemma rd_insert_eq m a w : rd (<[a := w]> m) a = w.
Proof. unfold rd. by rewrite lookup_insert_eq. Qed.

Lemma rd_insert_ne m a b w : a <> b -> rd (<[a := w]> m) b = rd m b.
Proof. intros H. unfold rd. by rewrite lookup_insert_ne. Qed.

Lemma aligned8_even a : aligned8 a -> a mod 2 = 0.
Proof. intros [H _]. Z.div_mod_to_equations. lia. Qed.

(** [GET_NEXT] is the wrapped word with bit 0 cleared. *)
Lemma GET_NEXT_wrap m p : GET_NEXT m p = wrap (rd m p) - wrap (rd m p) mod 2.
Proof.
  unfold GET_NEXT. change 1 with (Z.ones 1).
  rewrite land_wnot_ones_wrap by lia. f_equal.
  unfold wrap, W. rewrite Z.mod_mod_divide by (exists (2 ^ 63); reflexivity).
  reflexivity.
Qed.

Lemma GET_NEXT_even m p : GET_NEXT m p mod 2 = 0.
Proof.
  rewrite GET_NEXT_wrap. generalize (wrap (rd m p)). intros y.
  Z.div_mod_to_equations. lia.
Qed.

Lemma GET_NEXT_range m p : u64 (GET_NEXT m p).
Proof.
  rewrite GET_NEXT_wrap. pose proof (wrap_range (rd m p)).
  generalize dependent (wrap (rd m p)). intros y Hy.
  unfold W in *. Z.div_mod_to_equations. lia.
Qed.

Lemma GET_FREE_bit m p : GET_FREE m p = 0 \/ GET_FREE m p = 1.
Proof.
  unfold GET_FREE. rewrite land_one.
  pose proof (Z.mod_pos_bound (rd m p) 2). lia.
Qed.

(** Round trip of the encoding: the next pointer and the flag stored in a
    header word are read back by [GET_NEXT] and [GET_FREE]. *)
Lemma hdr_word_next n f : aligned8 n -> Z.land (hdr_word n f) (wnot 1) = n.
Proof.
  intros Hn. pose proof (aligned8_even n Hn). destruct Hn as [_ Hn].
  unfold hdr_word. rewrite lor_even_bit by (destruct f; simpl; lia).
  change 1 with (Z.ones 1). rewrite land_wnot_ones_wrap by lia.
  unfold wrap, W in *. destruct f; simpl; Z.div_mod_to_equations; lia.
Qed.

Lemma hdr_word_free n f : aligned8 n -> Z.land (hdr_word n f) 1 = Z.b2z f.
Proof.
  intros Hn. pose proof (aligned8_even n Hn).
  unfold hdr_word. rewrite lor_even_bit by (destruct f; simpl; lia).
  rewrite land_one, Zplus_mod, H. destruct f; reflexivity.
Qed.

Lemma GET_NEXT_hdr m p n f :
  aligned8 n -> GET_NEXT (<[p := hdr_word n f]> m) p = n.
Proof. intros. unfold GET_NEXT. rewrite rd_insert_eq. by apply hdr_word_next. Qed.

Lemma GET_FREE_hdr m p n f :
  aligned8 n -> GET_FREE (<[p := hdr_word n f]> m) p = Z.b2z f.
Proof. intros. unfold GET_FREE. rewrite rd_insert_eq. by apply hdr_word_free. Qed.

(** [SET_NEXT] followed by [SET_FREE] writes one header word, whatever the
    word held before. *)
Lemma SET_NEXT_SET_FREE m p n f :
  aligned8 n -> SET_FREE (SET_NEXT m p n) p (Z.b2z f) = <[p := hdr_word n f]> m.
Proof.
  intros Hn. unfold SET_FREE, SET_NEXT.
  rewrite insert_insert_eq. f_equal.
  unfold GET_NEXT at 1. rewrite rd_insert_eq.
  assert (Z.lor n (GET_FREE m p) = hdr_word n (bool_decide (GET_FREE m p = 1))) as ->.
  { unfold hdr_word. destruct (GET_FREE_bit m p) as [-> | ->]; reflexivity. }
  rewrite hdr_word_next by done. unfold hdr_word. f_equal. destruct f; reflexivity.
Qed.

(** [SET_FREE] alone keeps the next pointer. *)
Lemma SET_FREE_hdr m p f :
  SET_FREE m p (Z.b2z f) = <[p := hdr_word (GET_NEXT m p) f]> m.
Proof. unfold SET_FREE, hdr_word. f_equal. f_equal. destruct f; reflexivity. Qed.

Lemma SET_NEXT_SET_FREE_1 m p n :
  aligned8 n -> SET_FREE (SET_NEXT m p n) p 1 = <[p := hdr_word n true]> m.
Proof. apply (SET_NEXT_SET_FREE m p n true). Qed.

Lemma SET_NEXT_SET_FREE_0 m p n :
  aligned8 n -> SET_FREE (SET_NEXT m p n) p 0 = <[p := hdr_word n false]> m.
Proof. apply (SET_NEXT_SET_FREE m p n false). Qed.

Lemma SET_FREE_1 m p : SET_FREE m p 1 = <[p := hdr_word (GET_NEXT m p) true]> m.
Proof. apply (SET_FREE_hdr m p true). Qed.

Lemma SET_FREE_0 m p : SET_FREE m p 0 = <[p := hdr_word (GET_NEXT m p) false]> m.
Proof. apply (SET_FREE_hdr m p false). Qed.

(** Reading a header through the encoding. *)
Lemma GET_NEXT_of m p n f : aligned8 n -> rd m p = hdr_word n f -> GET_NEXT m p = n.
Proof. intros Hn H. unfold GET_NEXT. rewrite H. by apply hdr_word_next. Qed.

Lemma GET_FREE_of m p n f : aligned8 n -> rd m p = hdr_word n f -> GET_FREE m p = Z.b2z f.
Proof. intros Hn H. unfold GET_FREE. rewrite H. by apply hdr_word_free. Qed.

(** C15: Round trip of the header encoding. Storing a next pointer [n]
    (8-aligned) and a flag [f] with [SET_NEXT] then [SET_FREE] writes the
    one word [n | f], whatever the header held before; [GET_NEXT] and
    [GET_FREE] read back [n] and [f]; and no other word changes. *)
Theorem header_roundtrip m p n f q :
  aligned8 n ->
  GET_NEXT (SET_FREE (SET_NEXT m p n) p (Z.b2z f)) p = n /\
  GET_FREE (SET_FREE (SET_NEXT m p n) p (Z.b2z f)) p = Z.b2z f /\
  rd (SET_FREE (SET_NEXT m p n) p (Z.b2z f)) p = hdr_word n f /\
  (q <> p -> rd (SET_FREE (SET_NEXT m p n) p (Z.b2z f)) q = rd m q).
Proof.
  intros Hn. rewrite SET_NEXT_SET_FREE by done.
  split_and!; [by apply GET_NEXT_hdr | by apply GET_FREE_hdr | apply rd_insert_eq |].
  intros Hq. by apply rd_insert_ne.
Qed.
