(* ===== verification/Ledger.v ===== *)
(** * Ledger: the circular list of block headers, abstractly

    The headers of [mm.c] form a circular singly-linked list threaded
    through the arena: [first -> ... -> last -> first], where [last] is the
    sentinel header at the top of the arena. We describe the headers other
    than the sentinel by a list of [block]s in address order (its header
    address and its free flag) and the sentinel by its address [s].
    [chain m l s] says that the memory [m] holds exactly this list;
    [layout l s] says the headers are 8-aligned, increasing, at least
    [HDR + MIN_SIZE] bytes apart; [nadj l] says no two neighbouring blocks
    are both free. [walk] reads the list back from memory by following
    the next pointers; on a ledger state it returns the list exactly
    ([walk_ledger]). *)

From Stdlib Require Import ZArith Lia.
From stdpp Require Import base list gmap.
From S2P Require Import Prelude Machine.

Open Scope Z_scope.
Open Scope mm_scope.

Record block := Block { addr : Z; bfree : bool }.

#[export] Instance block_eq_dec : EqDecision block.
Proof. solve_decision. Defined.

(** The header that follows a list of blocks: its first one, or [s]. *)
Definition next_addr (l : list block) (s : Z) : Z :=
  match l with [] => s | b :: _ => addr b end.

Definition addrs (l : list block) : list Z := map addr l.

(** The memory holds the list: each header word points to the next header
    and carries the block's flag. *)
Fixpoint chain (m : gmap Z Z) (l : list block) (s : Z) : Prop :=
  match l with
  | [] => True
  | b :: r => rd m (addr b) = hdr_word (next_addr r s) (bfree b) /\ chain m r s
  end.

(** Headers are 8-aligned and each payload holds at least [MIN_SIZE]
    bytes. *)
Fixpoint layout (l : list block) (s : Z) : Prop :=
  match l with
  | [] => True
  | b :: r => addr b mod 8 = 0 /\ addr b + HDR + MIN_SIZE <= next_addr r s /\ layout r s
  end.

(** No two neighbouring blocks are both free. *)
Fixpoint nadj (l : list block) : Prop :=
  match l with
  | b1 :: ((b2 :: _) as r) => (bfree b1 = false \/ bfree b2 = false) /\ nadj r
  | _ => True
  end.

(** Payload size of a block whose successor header is at [n]. *)
Definition bsize (b : block) (n : Z) : Z := n - addr b - HDR.

(** The blocks before the header at [c], and from it on. *)
Fixpoint split_at (c : Z) (l : list block) : list block * list block :=
  match l with
  | [] => ([], [])
  | b :: r => if addr b =? c then ([], l) else let '(p, q) := split_at c r in (b :: p, q)
  end.

(** Reading the list back from memory: from the header [cur], follow the
    next pointers until the header that points back to [fst], which is the
    sentinel. A test oracle for concrete states. *)
Fixpoint walk (fuel : nat) (m : gmap Z Z) (fst cur : Z) : option (list block * Z) :=
  match fuel with
  | O => None
  | S fuel' =>
      let n := GET_NEXT m cur in
      if n =? fst then Some ([], cur)
      else
        match walk fuel' m fst n with
        | Some (l, s) => Some (Block cur (GET_FREE m cur =? 1) :: l, s)
        | None => None
        end
  end.

(** ** Lemmas on [next_addr], [chain] and [layout] *)

Lemma next_addr_app l1 l2 s :
  next_addr (l1 ++ l2) s = next_addr l1 (next_addr l2 s).
Proof. by destruct l1. Qed.

Lemma chain_app m l1 l2 s :
  chain m (l1 ++ l2) s <-> chain m l1 (next_addr l2 s) /\ chain m l2 s.
Proof.
  induction l1 as [|b l1 IH]; simpl; [tauto|].
  rewrite IH, next_addr_app. tauto.
Qed.

Lemma chain_insert_notin m l s a w :
  a ∉ addrs l -> chain (<[a := w]> m) l s <-> chain m l s.
Proof.
  induction l as [|b l IH]; simpl; [tauto|]. intros Hn.
  rewrite rd_insert_ne by set_solver. rewrite IH by set_solver. tauto.
Qed.

Lemma layout_app l1 l2 s :
  layout (l1 ++ l2) s <-> layout l1 (next_addr l2 s) /\ layout l2 s.
Proof.
  induction l1 as [|b l1 IH]; simpl; [tauto|].
  rewrite IH, next_addr_app. tauto.
Qed.

(** Every header of a well-laid-out list lies strictly below what follows
    it, by at least a minimal block. *)
Lemma layout_below l s :
  layout l s -> Forall (fun b => addr b + HDR + MIN_SIZE <= s) l.
Proof.
  induction l as [|b l IH]; simpl; [constructor|]. intros (_ & Hb & Hl).
  constructor; [|auto]. destruct l as [|b' l]; simpl in *; [lia|].
  specialize (IH Hl). inversion IH; subst. unfold HDR, MIN_SIZE in *. lia.
Qed.

Lemma layout_cons_below b l s :
  layout (b :: l) s -> Forall (fun b' => addr b + HDR + MIN_SIZE <= addr b') l.
Proof.
  revert b. induction l as [|b' l IH]; intros b; simpl; [constructor|].
  intros (_ & Hb & Hb' & Hnext & Hl). constructor; [exact Hb|].
  specialize (IH b' (conj Hb' (conj Hnext Hl))).
  eapply Forall_impl; [exact IH|]. simpl. unfold HDR, MIN_SIZE in *. lia.
Qed.

Lemma layout_next_above l s :
  layout l s -> next_addr l s <= s.
Proof.
  destruct l as [|b l]; simpl; [lia|]. intros H.
  pose proof (layout_below (b :: l) s H) as Hf. inversion Hf; subst.
  unfold HDR, MIN_SIZE in *. lia.
Qed.

Lemma layout_aligned l s :
  layout l s -> Forall (fun b => addr b mod 8 = 0) l.
Proof. induction l; simpl; intros; [constructor|]. constructor; naive_solver. Qed.

(** Distinct positions hold distinct headers. *)
Lemma layout_NoDup l s : layout l s -> NoDup (addrs l).
Proof.
  induction l as [|b l IH]; simpl; intros Hl; [constructor|].
  constructor; [|apply IH; tauto].
  intros Hin. apply list_elem_of_In, in_map_iff in Hin as (b' & Heq & Hin).
  pose proof (layout_cons_below b l s Hl) as Hf.
  rewrite Forall_forall in Hf. specialize (Hf b' (proj2 (list_elem_of_In _ _) Hin)).
  unfold HDR, MIN_SIZE in *. lia.
Qed.

(** The header word of a block in the middle of the list. *)
Lemma chain_mid m pre b post s :
  chain m (pre ++ b :: post) s -> rd m (addr b) = hdr_word (next_addr post s) (bfree b).
Proof. rewrite chain_app. simpl. tauto. Qed.

(** Two neighbours, when both exist, are not both free. *)
Definition edge (o1 o2 : option block) : Prop :=
  match o1, o2 with
  | Some b1, Some b2 => bfree b1 = false \/ bfree b2 = false
  | _, _ => True
  end.

Lemma nadj_app l1 l2 :
  nadj (l1 ++ l2) <-> nadj l1 /\ nadj l2 /\ edge (last l1) (head l2).
Proof.
  induction l1 as [|b l1 IH]; simpl.
  - destruct (head l2); simpl; tauto.
  - destruct l1 as [|b' l1]; simpl in *.
    + destruct l2 as [|b2 l2]; simpl; tauto.
    + rewrite IH. destruct (last (b' :: l1)) eqn:E; [|apply last_None in E; discriminate].
      tauto.
Qed.

#[export] Hint Resolve layout_NoDup layout_below layout_aligned : mm.

(** A minimal block per header: the list is short enough for the loops'
    fuel. *)
Lemma layout_length l s :
  layout l s -> Z.of_nat (length l) * (HDR + MIN_SIZE) <= s - next_addr l s.
Proof.
  induction l as [|b l IH]; simpl; [lia|]. intros (_ & Hb & Hl).
  specialize (IH Hl). lia.
Qed.

(** ** The ledger invariant

    [ledger st l s]: the state [st] holds the blocks [l] followed by the
    sentinel at [s], whose word points back to [first] with the flag clear. *)
Record ledger (st : mm_state) (l : list block) (s : Z) : Prop := {
  lg_nonempty : l <> [];
  lg_first : first st = next_addr l s;
  lg_low : HDR <= first st;
  lg_chain : chain (mem st) l s;
  lg_sentinel : rd (mem st) s = hdr_word (first st) false;
  lg_layout : layout l s;
  lg_top : s mod 8 = 0 /\ s + HDR <= W;
  lg_nadj : nadj l;
}.

(** The cursor is a header of the list: a block or the sentinel. *)
Definition cursor_ok (st : mm_state) (l : list block) (s : Z) : Prop :=
  current st = s \/ current st ∈ addrs l.

(** ** The invariant is decidable

    Each predicate has a [Decision] instance that computes, so the
    invariant of a concrete state is checked by evaluation. *)

#[export] Instance chain_dec m l s : Decision (chain m l s).
Proof. induction l; simpl; apply _. Defined.

#[export] Instance layout_dec l s : Decision (layout l s).
Proof. induction l; simpl; apply _. Defined.

#[export] Instance nadj_dec l : Decision (nadj l).
Proof.
  induction l as [|b1 r IH]; simpl; [apply _|].
  destruct r as [|b2 r']; [apply _|]. apply and_dec; [apply _|exact IH].
Defined.

Lemma ledger_iff st l s :
  ledger st l s <->
  l <> [] /\ first st = next_addr l s /\ HDR <= first st /\ chain (mem st) l s /\
  rd (mem st) s = hdr_word (first st) false /\ layout l s /\
  (s mod 8 = 0 /\ s + HDR <= W) /\ nadj l.
Proof. split; [intros []; tauto|intros (? & ? & ? & ? & ? & ? & ? & ?); by constructor]. Qed.

#[export] Instance ledger_dec st l s : Decision (ledger st l s).
Proof.
  pose proof (ledger_iff st l s) as H. revert H.
  match goal with |- (_ <-> ?P) -> _ =>
    intros H; destruct (decide P); [left|right]; tauto end.
Defined.

#[export] Instance cursor_ok_dec st l s : Decision (cursor_ok st l s).
Proof. unfold cursor_ok. apply _. Defined.

(** ** Reading the ledger from memory *)

Lemma layout_above_next l s :
  layout l s -> Forall (fun b => next_addr l s <= addr b) l.
Proof.
  destruct l as [|b l]; simpl; intros H; [constructor|].
  constructor; [lia|]. eapply Forall_impl; [apply (layout_cons_below b l s H)|].
  simpl. unfold HDR, MIN_SIZE. lia.
Qed.

(** Where the blocks around a position lie. *)
Lemma layout_split pre b post s :
  layout (pre ++ b :: post) s ->
  Forall (fun b' => addr b' + HDR + MIN_SIZE <= addr b) pre /\
  addr b + HDR + MIN_SIZE <= next_addr post s /\
  Forall (fun b' => next_addr post s <= addr b') post /\
  next_addr post s <= s /\ addr b mod 8 = 0.
Proof.
  rewrite layout_app. intros [Hpre Hpost]. simpl in Hpost.
  destruct Hpost as (Ha & Hb & Hpost). split_and!; auto.
  - apply (layout_below pre (addr b) Hpre).
  - by apply layout_above_next.
  - by apply layout_next_above.
Qed.

Lemma ledger_addr_low st l s pre b post :
  ledger st l s -> l = pre ++ b :: post -> HDR <= addr b.
Proof.
  intros Hl ->. pose proof (lg_low _ _ _ Hl). rewrite (lg_first _ _ _ Hl) in H.
  pose proof (layout_above_next _ _ (lg_layout _ _ _ Hl)) as Hf.
  rewrite Forall_app, Forall_cons in Hf. lia.
Qed.

(** Every header of the ledger, the sentinel included, is 8-aligned. *)
Lemma ledger_next_aligned st l s pre b post :
  ledger st l s -> l = pre ++ b :: post -> aligned8 (next_addr post s).
Proof.
  intros Hl Heq. pose proof (lg_top _ _ _ Hl) as [Hs Hw].
  pose proof (ledger_addr_low _ _ _ _ _ _ Hl Heq).
  pose proof (layout_split pre b post s) as (_ & Hb & _ & Hn & _);
    [rewrite <- Heq; apply (lg_layout _ _ _ Hl)|].
  destruct post as [|b' post]; simpl in *; [split; [done|unfold HDR, MIN_SIZE in *; lia]|].
  pose proof (layout_aligned _ _ (lg_layout _ _ _ Hl)) as Ha. rewrite Heq in Ha.
  rewrite Forall_app, !Forall_cons in Ha. split; [tauto|unfold HDR, MIN_SIZE in *; lia].
Qed.

Lemma ledger_first_aligned st l s : ledger st l s -> aligned8 (first st).
Proof.
  intros Hl. destruct l as [|b l]; [by destruct (lg_nonempty _ _ _ Hl)|].
  pose proof (lg_first _ _ _ Hl). simpl in H.
  pose proof (ledger_addr_low st (b :: l) s [] b l Hl eq_refl).
  pose proof (layout_split [] b l s) as (_ & ? & _ & ? & ?); [apply (lg_layout _ _ _ Hl)|].
  pose proof (lg_top _ _ _ Hl). rewrite H. split; [done|unfold HDR, MIN_SIZE in *; lia].
Qed.

(** The header of a block reads back as its successor and its flag. *)
Lemma ledger_read st l s pre b post :
  ledger st l s -> l = pre ++ b :: post ->
  GET_NEXT (mem st) (addr b) = next_addr post s /\
  GET_FREE (mem st) (addr b) = Z.b2z (bfree b).
Proof.
  intros Hl Heq. pose proof (ledger_next_aligned _ _ _ _ _ _ Hl Heq).
  pose proof (lg_chain _ _ _ Hl) as Hc. rewrite Heq in Hc. apply chain_mid in Hc.
  split; [eapply GET_NEXT_of | eapply GET_FREE_of]; eauto.
Qed.

(** The sentinel reads back as [first], never free. *)
Lemma ledger_read_sentinel st l s :
  ledger st l s -> GET_NEXT (mem st) s = first st /\ GET_FREE (mem st) s = 0.
Proof.
  intros Hl. pose proof (ledger_first_aligned _ _ _ Hl).
  pose proof (lg_sentinel _ _ _ Hl).
  split; [eapply GET_NEXT_of | apply (GET_FREE_of _ _ (first st) false)]; eauto.
Qed.

(** ** Replacing a run of blocks *)

Lemma chain_agree m m' l s :
  (forall x, x ∈ addrs l -> rd m' x = rd m x) -> chain m l s -> chain m' l s.
Proof.
  induction l as [|b l IH]; simpl; [done|]. intros Hx [Hb Hl].
  split; [rewrite Hx by set_solver; done|]. apply IH; [|done].
  intros x Hin. apply Hx. set_solver.
Qed.

(** The headers before a run lie below it, those after it lie at or above
    its end, and so does the sentinel. *)
Lemma region_fresh pre seg post s x :
  layout (pre ++ seg ++ post) s -> seg <> [] ->
  next_addr seg s <= x < next_addr post s ->
  x ∉ addrs pre /\ x ∉ addrs post /\ x <> s.
Proof.
  intros Hl Hseg Hx. destruct seg as [|b seg]; [done|]. simpl in Hx.
  rewrite app_assoc in Hl. pose proof Hl as Hl'.
  rewrite <- app_assoc in Hl'. simpl in Hl'.
  apply layout_split in Hl' as (Hpre & _).
  rewrite layout_app in Hl. destruct Hl as [_ Hpost].
  pose proof (layout_above_next post s Hpost) as Hpost'.
  pose proof (layout_next_above post s Hpost).
  split_and!; [| |lia]; intros Hin; apply list_elem_of_In, in_map_iff in Hin as (b' & <- & Hin).
  - rewrite Forall_forall in Hpre. specialize (Hpre b' (proj2 (list_elem_of_In _ _) Hin)).
    unfold HDR, MIN_SIZE in *. lia.
  - rewrite Forall_forall in Hpost'. specialize (Hpost' b' (proj2 (list_elem_of_In _ _) Hin)).
    lia.
Qed.

(** The same, read from the other side: a header outside the run differs
    from every address of the run. *)
Lemma region_fresh_ne pre seg post s x y :
  layout (pre ++ seg ++ post) s -> seg <> [] ->
  next_addr seg s <= y < next_addr post s ->
  (x ∈ addrs pre \/ x ∈ addrs post \/ x = s) -> x <> y.
Proof.
  intros Hl Hseg Hy Hx ->. destruct (region_fresh pre seg post s y Hl Hseg Hy) as (? & ? & ?).
  naive_solver.
Qed.

(** A run [seg] of the ledger is replaced by a run [mid] that starts at the
    same header and ends at the same successor; the memory changes only
    inside the run. *)
Lemma ledger_replace st m' c pre seg mid post s :
  ledger st (pre ++ seg ++ post) s ->
  seg <> [] -> mid <> [] -> next_addr mid s = next_addr seg s ->
  layout mid (next_addr post s) -> chain m' mid (next_addr post s) ->
  (forall x, (x ∈ addrs pre \/ x ∈ addrs post \/ x = s) -> rd m' x = rd (mem st) x) ->
  nadj (pre ++ mid ++ post) ->
  ledger (MmState m' (first st) c) (pre ++ mid ++ post) s.
Proof.
  intros Hl Hseg Hmid Hhd Hlay Hch Hag Hn.
  assert (next_addr (mid ++ post) s = next_addr (seg ++ post) s) as Hhd'.
  { destruct mid, seg; simpl in *; congruence. }
  pose proof (lg_chain _ _ _ Hl) as Hc. rewrite !chain_app in Hc.
  pose proof (lg_layout _ _ _ Hl) as Hy. rewrite !layout_app in Hy.
  constructor; simpl.
  - destruct pre, mid; simpl; congruence.
  - rewrite (lg_first _ _ _ Hl), !next_addr_app. destruct mid, seg; simpl in *; congruence.
  - apply (lg_low _ _ _ Hl).
  - rewrite !chain_app. split_and!; [| |apply (chain_agree (mem st))]; try tauto.
    + apply (chain_agree (mem st)); [intros; apply Hag; auto|].
      rewrite Hhd'. tauto.
    + intros; apply Hag; auto.
  - rewrite Hag by auto. apply (lg_sentinel _ _ _ Hl).
  - rewrite !layout_app. rewrite Hhd'. tauto.
  - apply (lg_top _ _ _ Hl).
  - exact Hn.
Qed.

(** The neighbours of a free block are used, so whatever replaces it keeps
    [nadj] if it has no two neighbouring free blocks itself. *)
Lemma nadj_around_free pre b post mid :
  nadj (pre ++ b :: post) -> bfree b = true -> mid <> [] -> nadj mid ->
  nadj (pre ++ mid ++ post).
Proof.
  intros H Hb Hm Hn. rewrite nadj_app in H. destruct H as (Hp & Hbp & He).
  change (b :: post) with ([b] ++ post) in Hbp. rewrite nadj_app in Hbp.
  destruct Hbp as (_ & Hpo & He2). simpl in He, He2.
  rewrite !nadj_app. split_and!; auto.
  - destruct (last mid), (head post); simpl in *; auto. destruct He2; [congruence|auto].
  - destruct (last pre); simpl in *; auto.
    destruct (head (mid ++ post)); auto. destruct He; [auto|congruence].
Qed.

(** ** Live payloads *)

(** The address [x] lies in the payload of a used block of the list. *)
Fixpoint live_at (l : list block) (s x : Z) : Prop :=
  match l with
  | [] => False
  | b :: r => (bfree b = false /\ addr b + HDR <= x < next_addr r s) \/ live_at r s x
  end.

Lemma live_at_app l1 l2 s x :
  live_at (l1 ++ l2) s x <-> live_at l1 (next_addr l2 s) x \/ live_at l2 s x.
Proof.
  induction l1 as [|b l1 IH]; simpl; [tauto|]. rewrite IH, next_addr_app. tauto.
Qed.

(** A live payload lies between the first header and the end of the list. *)
Lemma live_at_range l s x :
  layout l s -> live_at l s x -> next_addr l s + HDR <= x < s.
Proof.
  induction l as [|b l IH]; simpl; [done|]. intros (_ & Hb & Hl) [[_ Hx] | Hx].
  - pose proof (layout_next_above l s Hl). unfold HDR, MIN_SIZE in *. lia.
  - specialize (IH Hl Hx). unfold HDR, MIN_SIZE in *. lia.
Qed.

(** No live payload inside a run of free blocks. *)
Lemma live_at_free_run pre seg post s x :
  layout (pre ++ seg ++ post) s -> Forall (fun b => bfree b = true) seg ->
  next_addr seg s <= x < next_addr post s -> ~ live_at (pre ++ seg ++ post) s x.
Proof.
  intros Hl Hf Hx. rewrite !live_at_app, !layout_app in *.
  destruct Hl as (Hpre & Hseg & Hpost). intros [H | [H | H]].
  - apply live_at_range in H; [|done]. rewrite next_addr_app in H.
    pose proof (layout_next_above post s Hpost). destruct seg; simpl in *; lia.
  - clear -Hf H. induction seg as [|b seg IH]; simpl in *; [done|].
    inversion Hf; subst. destruct H as [[? _] | H]; [congruence|auto].
  - apply live_at_range in H; [|done]. mlia.
Qed.

(** A live address differs from every address of a run of free blocks. *)
Lemma live_at_free_ne pre seg post s x y :
  layout (pre ++ seg ++ post) s -> Forall (fun b => bfree b = true) seg ->
  next_addr seg s <= y < next_addr post s -> live_at (pre ++ seg ++ post) s x -> x <> y.
Proof. intros Hl Hf Hy Hx ->. by apply (live_at_free_run pre seg post s y). Qed.

(** ** The cursor and [split_at] *)

Lemma ledger_set_current st l s c : ledger st l s -> ledger (set_current st c) l s.
Proof. intros []. by constructor. Qed.

Lemma set_current_twice st c c' : set_current (set_current st c) c' = set_current st c'.
Proof. done. Qed.

Lemma set_current_id st : set_current st (current st) = st.
Proof. by destruct st. Qed.

Lemma split_at_notin c l : c ∉ addrs l -> split_at c l = (l, []).
Proof.
  induction l as [|b l IH]; simpl; [done|]. intros Hn.
  rewrite (proj2 (Z.eqb_neq _ _)) by set_solver. rewrite IH by set_solver. done.
Qed.

Lemma split_at_in c l :
  NoDup (addrs l) -> c ∈ addrs l ->
  exists pre b post, split_at c l = (pre, b :: post) /\ l = pre ++ b :: post /\
                     addr b = c /\ c ∉ addrs pre /\ c ∉ addrs post.
Proof.
  induction l as [|b l IH]; simpl; [set_solver|]. intros Hnd Hin.
  apply NoDup_cons in Hnd as [Hb Hnd].
  destruct (Z.eqb_spec (addr b) c) as [<- | Hne].
  - exists [], b, l. split_and!; auto. set_solver.
  - destruct IH as (pre & b' & post & Hs & -> & Ha & Hpre & Hpost); [done|set_solver|].
    rewrite Hs. exists (b :: pre), b', post. split_and!; auto. set_solver.
Qed.

(** Under [nadj], the header after a free block is used, or is the
    sentinel. *)
Lemma ledger_next_used st l s pre b post :
  ledger st l s -> l = pre ++ b :: post -> bfree b = true ->
  GET_FREE (mem st) (next_addr post s) = 0.
Proof.
  intros Hl Heq Hb. destruct post as [|b' post]; simpl.
  - apply (ledger_read_sentinel _ _ _ Hl).
  - rewrite (proj2 (ledger_read st l s (pre ++ [b]) b' post Hl
                      ltac:(rewrite Heq, <- app_assoc; done))).
    pose proof (lg_nadj _ _ _ Hl) as Hn. rewrite Heq, nadj_app in Hn.
    destruct Hn as (_ & Hn & _). simpl in Hn.
    destruct Hn as [[? | ->] _]; [congruence | done].
Qed.

(** ** Blocks with their extent *)

(** Each block paired with the header that follows it. *)
Fixpoint sized (l : list block) (s : Z) : list (block * Z) :=
  match l with
  | [] => []
  | b :: r => (b, next_addr r s) :: sized r s
  end.

Lemma sized_app l1 l2 s : sized (l1 ++ l2) s = sized l1 (next_addr l2 s) ++ sized l2 s.
Proof. induction l1 as [|b l1 IH]; simpl; [done|]. by rewrite IH, next_addr_app. Qed.

Lemma split_at_app c l : l = (split_at c l).1 ++ (split_at c l).2.
Proof.
  induction l as [|b l IH]; simpl; [done|].
  destruct (addr b =? c); [done|]. destruct (split_at c l) as [p q]. simpl in *. by f_equal.
Qed.

(** Where a block of a well-laid-out list lies, with its extent. *)
Lemma sized_layout l s b n :
  layout l s -> (b, n) ∈ sized l s ->
  addr b mod 8 = 0 /\ addr b + HDR + MIN_SIZE <= n /\ next_addr l s <= addr b /\ n <= s.
Proof.
  induction l as [|b' l IH]; simpl; [set_solver|]. intros (Ha & Hb & Hl) Hin.
  pose proof (layout_next_above l s Hl).
  apply elem_of_cons in Hin as [[= -> ->] | Hin]; [split_and!; mlia|].
  destruct (IH Hl Hin) as (? & ? & ? & ?). split_and!; mlia.
Qed.

(** A block between two neighbours that are not free keeps [nadj]. *)
Lemma nadj_between pre x post :
  nadj pre -> nadj post -> edge (last pre) (Some x) -> edge (Some x) (head post) ->
  nadj (pre ++ x :: post).
Proof.
  intros Hp Hq He1 He2. apply nadj_app. split_and!; [done| |done].
  change (x :: post) with ([x] ++ post). apply nadj_app. split_and!; done.
Qed.

Lemma nadj_parts pre mid post :
  nadj (pre ++ mid ++ post) -> nadj pre /\ nadj post.
Proof. rewrite !nadj_app. tauto. Qed.

(** Every header of the ledger is 8-aligned and in range. *)
Lemma ledger_aligned st l s :
  ledger st l s -> Forall (fun b => aligned8 (addr b)) l /\ aligned8 s.
Proof.
  intros Hl. pose proof (lg_layout _ _ _ Hl) as Hy.
  pose proof (layout_aligned _ _ Hy) as Ha. pose proof (layout_below _ _ Hy) as Hb.
  pose proof (layout_above_next _ _ Hy) as Hc.
  pose proof (lg_low _ _ _ Hl). pose proof (lg_first _ _ _ Hl) as Hf.
  pose proof (lg_top _ _ _ Hl) as [Hs Hw]. pose proof (layout_next_above _ _ Hy).
  split; [|split; [done|mlia]].
  rewrite Forall_forall in *. intros b Hin.
  specialize (Ha b Hin). specialize (Hb b Hin). specialize (Hc b Hin).
  split; [done|mlia].
Qed.

(** The first block of a run ends no later than the header after the run. *)
Lemma layout_run_end pre b xs ys s :
  layout (pre ++ (b :: xs) ++ ys) s -> addr b mod 8 = 0 /\ addr b + HDR + MIN_SIZE <= next_addr ys s.
Proof.
  rewrite layout_app, layout_app. intros [_ [Hy _]].
  pose proof (layout_below _ _ Hy) as Hb. inversion Hb. simpl in Hy. tauto.
Qed.

Lemma split_at_mid pre b post :
  addr b ∉ addrs pre -> split_at (addr b) (pre ++ b :: post) = (pre, b :: post).
Proof.
  induction pre as [|b' pre IH]; intros Hn; simpl; [by rewrite Z.eqb_refl|].
  rewrite (proj2 (Z.eqb_neq _ _)) by set_solver. rewrite IH by set_solver. done.
Qed.

Lemma split_at_head c l pre b post :
  split_at c l = (pre, b :: post) -> addr b = c.
Proof.
  revert pre. induction l as [|x l IH]; intros pre; simpl; [discriminate|].
  destruct (Z.eqb_spec (addr x) c) as [<- | _]; [by intros [= _ -> _]|].
  destruct (split_at c l) as [p q] eqn:E. intros [= _ ->]. by apply (IH p).
Qed.

(** ** The list is determined by the memory

    Following the next pointers from [first] reads back one list: the
    abstraction of a state is a function of it. *)

Lemma next_aligned l s :
  Forall (fun b => aligned8 (addr b)) l -> aligned8 s -> aligned8 (next_addr l s).
Proof. destruct l; simpl; [done|]. intros Hf _. by inversion Hf. Qed.

Lemma chain_unique m l1 l2 s :
  chain m l1 s -> chain m l2 s -> layout l1 s -> layout l2 s ->
  Forall (fun b => aligned8 (addr b)) l1 -> Forall (fun b => aligned8 (addr b)) l2 ->
  aligned8 s -> next_addr l1 s = next_addr l2 s -> l1 = l2.
Proof.
  revert l2. induction l1 as [|[a1 f1] r1 IH]; intros [|[a2 f2] r2]; simpl;
    intros Hc1 Hc2 Hy1 Hy2 Ha1 Ha2 Hs Hn; try done.
  - destruct Hy2 as (_ & Hb & Hr). pose proof (layout_next_above r2 s Hr). mlia.
  - destruct Hy1 as (_ & Hb & Hr). pose proof (layout_next_above r1 s Hr). mlia.
  - subst a2. inversion Ha1 as [|? ? _ Ha1']; inversion Ha2 as [|? ? _ Ha2']; subst.
    destruct Hc1 as [Hw1 Hc1], Hc2 as [Hw2 Hc2]. simpl in *.
    pose proof (next_aligned r1 s Ha1' Hs) as Hn1. pose proof (next_aligned r2 s Ha2' Hs) as Hn2.
    assert (next_addr r1 s = next_addr r2 s) as Heq.
    { rewrite <- (hdr_word_next _ f1 Hn1), <- (hdr_word_next _ f2 Hn2), <- Hw1, <- Hw2. done. }
    assert (f1 = f2) as ->.
    { pose proof (hdr_word_free _ f1 Hn1) as E1. pose proof (hdr_word_free _ f2 Hn2) as E2.
      rewrite <- Hw1 in E1. rewrite <- Hw2 in E2. rewrite E1 in E2.
      destruct f1, f2; simpl in E2; congruence. }
    f_equal. apply IH; tauto.
Qed.

Lemma ledger_unique st l1 l2 s : ledger st l1 s -> ledger st l2 s -> l1 = l2.
Proof.
  intros H1 H2. destruct (ledger_aligned _ _ _ H1) as [Ha1 Hs].
  destruct (ledger_aligned _ _ _ H2) as [Ha2 _].
  apply (chain_unique (mem st) l1 l2 s); try apply H1; try apply H2; try done.
  by rewrite <- (lg_first _ _ _ H1), <- (lg_first _ _ _ H2).
Qed.

(** ** Writes into a live payload *)

(** A live payload address is not a header. *)
Lemma live_at_not_header l s x : layout l s -> live_at l s x -> x ∉ addrs l /\ x <> s.
Proof.
  intros Hy Hx. pose proof (live_at_range l s x Hy Hx) as Hr. split; [|lia].
  revert Hy Hx Hr. induction l as [|b r IH]; simpl; [set_solver|].
  intros (_ & Hb & Hy) Hx Hr. pose proof (layout_above_next r s Hy) as Ha.
  rewrite Forall_forall in Ha. unfold addrs in *. simpl.
  destruct Hx as [[_ Hx] | Hx].
  - intros [-> | Hin]%elem_of_cons; [mlia|].
    apply list_elem_of_In, in_map_iff in Hin as (b' & <- & Hin%list_elem_of_In).
    specialize (Ha b' Hin). lia.
  - pose proof (live_at_range r s x Hy Hx). intros [-> | Hin]%elem_of_cons; [mlia|].
    revert Hin. apply IH; [done|done|lia].
Qed.

(** The client writes into a live payload leave the ledger in place. *)
Lemma ledger_store st l s a v :
  ledger st l s -> live_at l s a -> ledger (set_mem st (<[a := v]> (mem st))) l s.
Proof.
  intros Hl Ha. destruct (live_at_not_header l s a (lg_layout _ _ _ Hl) Ha) as [Hn Hs].
  destruct Hl. constructor; simpl; try done.
  - by apply chain_insert_notin.
  - rewrite rd_insert_ne by done. done.
Qed.

(** A block of [sized] sits in the list with the header that follows it. *)
Lemma sized_elem_split l s b N :
  (b, N) ∈ sized l s -> exists pre post, l = pre ++ b :: post /\ N = next_addr post s.
Proof.
  induction l as [|x r IH]; simpl; [set_solver|]. intros Hin.
  apply elem_of_cons in Hin as [[= -> ->] | Hin]; [by exists [], r|].
  destruct (IH Hin) as (pre & post & -> & ->). by exists (x :: pre), post.
Qed.

(** ** Reading the ledger back *)

(** From any header of the list, the walk reads the rest of the list and
    stops at the sentinel, whose word points back to [first]. *)
Lemma walk_suffix st l s pre post fuel :
  ledger st l s -> l = pre ++ post -> (length post < fuel)%nat ->
  walk fuel (mem st) (first st) (next_addr post s) = Some (post, s).
Proof.
  intros Hl. revert pre fuel. induction post as [|b post IH]; intros pre fuel Heq Hf;
    (destruct fuel as [|fuel]; [simpl in Hf; lia|]); cbn [walk next_addr].
  - rewrite (proj1 (ledger_read_sentinel _ _ _ Hl)), Z.eqb_refl. done.
  - destruct (ledger_read _ _ _ _ _ _ Hl Heq) as [Hn Hfr]. rewrite Hn, Hfr.
    pose proof (layout_split pre b post s) as (_ & Hb & _);
      [rewrite <- Heq; apply (lg_layout _ _ _ Hl)|].
    pose proof (layout_above_next _ _ (lg_layout _ _ _ Hl)) as Ha.
    rewrite <- (lg_first _ _ _ Hl), Heq, Forall_app, Forall_cons in Ha.
    destruct Ha as (_ & Hab & _).
    rewrite (proj2 (Z.eqb_neq _ _)) by mlia.
    rewrite (IH (pre ++ [b]) fuel) by (simpl in *; lia || by rewrite Heq, <- app_assoc).
    destruct b as [a f]. by destruct f.
Qed.

(** C25: Round trip of the representation. On every state with the
    ledger invariant, following the next pointers from [first] (the walk
    that [Scenarios.view] uses) reads back exactly the list of blocks,
    with their flags, and stops at the sentinel, given one step per block
    and one more. *)
Theorem walk_ledger st l s fuel :
  ledger st l s -> (length l < fuel)%nat ->
  walk fuel (mem st) (first st) (first st) = Some (l, s).
Proof.
  intros Hl Hf. rewrite (lg_first _ _ _ Hl) at 2.
  exact (walk_suffix st l s [] l fuel Hl eq_refl Hf).
Qed.
