(* ===== verification/Circle.v ===== *)
(** * Circle: the header words of a ledger state

    The headers of a state with the ledger invariant, in address order,
    are [headers l s]: the blocks, then the sentinel. Each header word is
    a tagged pointer to the next header ([GET_NEXT] of the last one is
    [first]), so following the next pointers goes round the circle that
    the specification describes, and [SIZE] of each block is its payload,
    a multiple of 8 of at least [MIN_SIZE] bytes. *)

From Stdlib Require Import ZArith Lia.
From stdpp Require Import base list gmap.
From S2P Require Import Prelude Machine Ledger.

Open Scope Z_scope.
Open Scope mm_scope.

(** The headers of the circle in address order. *)
Definition headers (l : list block) (s : Z) : list Z := addrs l ++ [s].

Lemma headers_length l s : length (headers l s) = S (length l).
Proof. unfold headers, addrs. rewrite length_app, length_map. simpl. lia. Qed.

(** The [j]-th header is the one that follows the first [j] blocks. *)
Lemma headers_lookup l s j :
  (j <= length l)%nat -> headers l s !! j = Some (next_addr (drop j l) s).
Proof.
  revert j. induction l as [|b r IH]; intros j Hj; simpl in *.
  - by replace j with 0%nat by lia.
  - destruct j as [|j]; [done|]. unfold headers, addrs in *. simpl. apply IH. lia.
Qed.

(** [GET_NEXT] moves one step round the circle. *)
Lemma headers_next st l s (i : nat) x :
  ledger st l s -> headers l s !! i = Some x ->
  headers l s !! ((i + 1) mod S (length l))%nat = Some (GET_NEXT (mem st) x).
Proof.
  intros Hl Hx. pose proof (lookup_lt_Some _ _ _ Hx) as Hi. rewrite headers_length in Hi.
  rewrite headers_lookup in Hx by lia. injection Hx as <-.
  destruct (decide (i = length l)) as [-> | Hne].
  - replace ((length l + 1) mod S (length l))%nat with 0%nat
      by (rewrite Nat.add_1_r; symmetry; apply Nat.mod_same; lia).
    rewrite drop_all. simpl.
    rewrite (proj1 (ledger_read_sentinel _ _ _ Hl)), (lg_first _ _ _ Hl).
    by apply headers_lookup; lia.
  - rewrite Nat.mod_small by lia.
    destruct (lookup_lt_is_Some_2 l i ltac:(lia)) as [b Hb].
    pose proof (take_drop_middle l i b Hb) as Hmid.
    rewrite (drop_S l b i Hb). simpl.
    rewrite (proj1 (ledger_read _ _ _ _ _ _ Hl (eq_sym Hmid))), Nat.add_1_r.
    apply headers_lookup. lia.
Qed.

Lemma headers_iter st l s (i : nat) x (k : nat) :
  ledger st l s -> headers l s !! i = Some x ->
  headers l s !! ((i + k) mod S (length l))%nat = Some (Nat.iter k (GET_NEXT (mem st)) x).
Proof.
  intros Hl Hx. pose proof (lookup_lt_Some _ _ _ Hx) as Hi. rewrite headers_length in Hi.
  induction k as [|k IH].
  - rewrite Nat.add_0_r, Nat.mod_small by lia. done.
  - simpl. apply (headers_next st l s) in IH; [|done].
    rewrite Nat.add_mod_idemp_l in IH by lia. by rewrite Nat.add_succ_r, <- Nat.add_1_r.
Qed.

(** ** Theorems *)

(** C16: The headers form one circle, as the specification says: from any
    header, following [GET_NEXT] comes back to it after exactly
    [length l + 1] steps (the number of headers), and reaches every header
    within [length l] steps. *)
Theorem ledger_circular st l s x :
  ledger st l s -> x ∈ headers l s ->
  Nat.iter (S (length l)) (GET_NEXT (mem st)) x = x /\
  forall y, y ∈ headers l s ->
    exists k, (k <= length l)%nat /\ Nat.iter k (GET_NEXT (mem st)) x = y.
Proof.
  intros Hl Hx. apply list_elem_of_lookup in Hx as [i Hi].
  pose proof (lookup_lt_Some _ _ _ Hi) as Hlt. rewrite headers_length in Hlt.
  split.
  - pose proof (headers_iter st l s i x (S (length l)) Hl Hi) as H.
    rewrite Nat.add_mod, Nat.mod_same, Nat.add_0_r, Nat.mod_mod, Nat.mod_small in H by lia.
    rewrite Hi in H. by injection H.
  - intros y Hy. apply list_elem_of_lookup in Hy as [j Hj].
    pose proof (lookup_lt_Some _ _ _ Hj) as Hjlt. rewrite headers_length in Hjlt.
    exists ((j + S (length l) - i) mod S (length l))%nat.
    split; [pose proof (Nat.mod_upper_bound (j + S (length l) - i) (S (length l))); lia|].
    pose proof (headers_iter st l s i x ((j + S (length l) - i) mod S (length l))%nat Hl Hi) as H.
    rewrite Nat.add_mod_idemp_r in H by lia.
    replace (i + (j + S (length l) - i))%nat with (j + 1 * S (length l))%nat in H by lia.
    rewrite Nat.mod_add, Nat.mod_small in H by lia. rewrite Hj in H. by injection H.
Qed.

(** [SIZE] of a block of the ledger: the distance to the next header less
    the header, a multiple of 8 of at least [MIN_SIZE]. *)
Lemma ledger_SIZE st l s pre b post :
  ledger st l s -> l = pre ++ b :: post ->
  SIZE (mem st) (addr b) = next_addr post s - addr b - HDR /\
  MIN_SIZE <= SIZE (mem st) (addr b) /\ SIZE (mem st) (addr b) mod 8 = 0.
Proof.
  intros Hl Heq.
  pose proof (ledger_read _ _ _ _ _ _ Hl Heq) as [Hn _].
  pose proof (ledger_next_aligned _ _ _ _ _ _ Hl Heq) as [Hna Hnu].
  pose proof (layout_split pre b post s) as (_ & Hb & _ & Hns & Hba);
    [rewrite <- Heq; apply (lg_layout _ _ _ Hl)|].
  pose proof (ledger_addr_low _ _ _ _ _ _ Hl Heq). pose proof (lg_top _ _ _ Hl).
  unfold SIZE. rewrite Hn. unfold HDR, MIN_SIZE in *. wsimpl.
  split_and!; [lia|lia|]. Z.div_mod_to_equations. lia.
Qed.

(** C17: The payload of every block is a multiple of 8 of at least
    [MIN_SIZE] bytes, and [SIZE] computes it: the distance to the next
    header less the header. *)
Theorem ledger_payload_sizes st l s b n :
  ledger st l s -> (b, n) ∈ sized l s ->
  SIZE (mem st) (addr b) = n - addr b - HDR /\
  MIN_SIZE <= SIZE (mem st) (addr b) /\ SIZE (mem st) (addr b) mod 8 = 0.
Proof.
  intros Hl Hin. destruct (sized_elem_split l s b n Hin) as (pre & post & Heq & ->).
  exact (ledger_SIZE st l s pre b post Hl Heq).
Qed.

