(* ===== verification/SimpleInit.v ===== *)
(** * SimpleInit: [simple_init] of [mm.c] (lines 50-72)

    Lazy set-up of the ledger: the arena bounds are rounded to 8 bytes, and
    if one free block and the sentinel fit, the first header (free) points
    to the sentinel at the top, whose word points back to the first header.
    The theorems: on an arena large enough the result satisfies the ledger
    invariant with one free block; on a small arena [first] stays [NULL];
    a second call changes nothing. *)

From Stdlib Require Import ZArith Lia.
From stdpp Require Import base list gmap.
From S2P Require Import Prelude Machine Ledger.

Open Scope Z_scope.
Open Scope mm_scope.

(** [aligned_memory_start = (memory_start+7) & ~7] *)
Definition aligned_memory_start (ar : arena) : Z :=
  Z.land (memory_start ar ⊞ 7) (wnot 7).

(** [aligned_memory_end = memory_end & ~7] *)
Definition aligned_memory_end (ar : arena) : Z :=
  Z.land (memory_end ar) (wnot 7).

Definition simple_init (ar : arena) (st : mm_state) : mm_state :=
  let start := aligned_memory_start ar in
  let stop := aligned_memory_end ar in
  if first st =? NULL then
    if start ⊞ 2 * HDR ⊞ MIN_SIZE <=? stop then
      let last := stop ⊟ HDR in
      let m1 := SET_NEXT (mem st) start last in
      let m2 := SET_FREE m1 start 1 in
      let m3 := SET_NEXT m2 last start in
      let m4 := SET_FREE m3 last 0 in
      MmState m4 start start
    else MmState (mem st) (first st) (first st)
  else st.

(** Bound on the iterations of every loop of [mm.c] over one arena: each
    header takes at least [HDR + MIN_SIZE] bytes of it. *)
Definition loop_fuel (ar : arena) : nat :=
  Z.to_nat ((aligned_memory_end ar - aligned_memory_start ar) / 8) + 2.

(** The arena the environment supplies: not at address [0] and not in the
    last 32 bytes of the address space. *)
Definition arena_wf (ar : arena) : Prop :=
  0 < memory_start ar /\ memory_start ar + 32 <= W /\ u64 (memory_end ar).

(** The arena is large enough for a free block and the sentinel. *)
Definition arena_big (ar : arena) : Prop :=
  aligned_memory_start ar + 2 * HDR + MIN_SIZE <= aligned_memory_end ar.

(** The ledger spans the whole arena: it starts at the rounded start and
    its sentinel is the last word of the rounded end. *)
Definition spans (ar : arena) (l : list block) (s : Z) : Prop :=
  next_addr l s = aligned_memory_start ar /\ s = aligned_memory_end ar - HDR.

#[export] Instance spans_dec ar l s : Decision (spans ar l s).
Proof. unfold spans. apply _. Defined.

(** ** Rounding the bounds *)

Lemma aligned_memory_start_spec ar :
  arena_wf ar ->
  aligned_memory_start ar mod 8 = 0 /\
  memory_start ar <= aligned_memory_start ar < memory_start ar + 8.
Proof.
  intros (H0 & H1 & _). unfold aligned_memory_start.
  change (wnot 7) with (wnot (Z.ones 3)). rewrite land_wnot_ones by (wsimpl; unfold W in *; lia).
  wsimpl. change (2 ^ 3) with 8. change (Z.ones 3) with 7.
  Z.div_mod_to_equations. lia.
Qed.

Lemma aligned_memory_end_spec ar :
  arena_wf ar ->
  aligned_memory_end ar mod 8 = 0 /\ 0 <= aligned_memory_end ar /\
  memory_end ar - 8 < aligned_memory_end ar <= memory_end ar.
Proof.
  intros (_ & _ & H2). unfold aligned_memory_end.
  change (wnot 7) with (wnot (Z.ones 3)). rewrite land_wnot_ones by (auto; lia).
  change (2 ^ 3) with 8. Z.div_mod_to_equations. lia.
Qed.

Lemma loop_fuel_bound ar l s :
  spans ar l s -> layout l s -> (length l + 2 <= loop_fuel ar)%nat.
Proof.
  intros [Hf Hs] Hl. pose proof (layout_length l s Hl) as Hlen.
  unfold loop_fuel, HDR, MIN_SIZE in *.
  assert (Z.of_nat (length l) <= (aligned_memory_end ar - aligned_memory_start ar) / 8)
    by (apply Z.div_le_lower_bound; lia).
  lia.
Qed.

Lemma arena_bounds ar :
  arena_wf ar ->
  aligned_memory_start ar mod 8 = 0 /\ 0 < aligned_memory_start ar /\
  aligned_memory_start ar + 24 < W /\
  aligned_memory_end ar mod 8 = 0 /\ u64 (aligned_memory_end ar).
Proof.
  intros Hw. pose proof (aligned_memory_start_spec ar Hw).
  pose proof (aligned_memory_end_spec ar Hw). destruct Hw as (? & ? & ?). lia.
Qed.

(** The size test of [simple_init] does not wrap around. *)
Lemma init_test ar :
  arena_wf ar ->
  (aligned_memory_start ar ⊞ 2 * HDR ⊞ MIN_SIZE <=? aligned_memory_end ar) =
  bool_decide (arena_big ar).
Proof.
  intros Hw. pose proof (arena_bounds ar Hw). unfold arena_big, HDR, MIN_SIZE.
  destruct H as (? & ? & ? & ? & ?). wsimpl.
  case_bool_decide; [apply Z.leb_le | apply Z.leb_gt]; lia.
Qed.

(** The ledger of a later state spans the arena when the earlier one did
    and [first] has not moved. *)
Lemma spans_transfer ar st st' l l' s :
  ledger st l s -> ledger st' l' s -> first st' = first st -> spans ar l s -> spans ar l' s.
Proof.
  intros Hl Hl' Hf [Hn Hs]. split; [|done].
  rewrite <- (lg_first _ _ _ Hl'), Hf, (lg_first _ _ _ Hl). done.
Qed.

(** ** Theorems on [simple_init] *)

(** On a well-formed arena large enough for one block and the sentinel,
    the first call of [simple_init] installs the ledger: one free block at
    the rounded start, the sentinel in the last word of the rounded end,
    and the cursor on the free block. *)
Lemma simple_init_establishes ar st :
  arena_wf ar -> arena_big ar -> first st = NULL ->
  ledger (simple_init ar st) [Block (aligned_memory_start ar) true]
         (aligned_memory_end ar - HDR) /\
  current (simple_init ar st) = aligned_memory_start ar /\
  spans ar [Block (aligned_memory_start ar) true] (aligned_memory_end ar - HDR).
Proof.
  intros Hw Hb H0. pose proof (arena_bounds ar Hw) as (Ha & Hpos & Htop & He & Heu).
  unfold simple_init. rewrite H0, init_test, bool_decide_eq_true_2 by done. simpl.
  unfold arena_big, HDR, MIN_SIZE in *. wsimpl.
  assert (aligned8 (aligned_memory_end ar - 8)) by (split; [Z.div_mod_to_equations|]; lia).
  assert (aligned8 (aligned_memory_start ar)) by (split; lia).
  rewrite SET_NEXT_SET_FREE_1, SET_NEXT_SET_FREE_0 by done.
  split_and!; try done.
  constructor; simpl; unfold HDR, MIN_SIZE; try done; try lia.
  - Z.div_mod_to_equations. lia.
  - split; [|done]. rewrite rd_insert_ne, rd_insert_eq by lia. done.
  - apply rd_insert_eq.
  - split; [Z.div_mod_to_equations|]; lia.
Qed.

(** On an arena too small for one block and the sentinel, [first]
    stays [NULL], so every allocation fails. *)
Lemma simple_init_too_small ar st :
  arena_wf ar -> ~ arena_big ar -> first st = NULL ->
  first (simple_init ar st) = NULL.
Proof.
  intros Hw Hb H0. unfold simple_init.
  rewrite H0, init_test, bool_decide_eq_false_2 by done. done.
Qed.

(** Once initialised, [simple_init] changes nothing. *)
Lemma simple_init_idem ar st : first st <> NULL -> simple_init ar st = st.
Proof. intros H. unfold simple_init. by rewrite (proj2 (Z.eqb_neq _ _) H). Qed.
