(* ===== verification/NextFit.v ===== *)
(** * NextFit: the abstract specification of allocation

    The list of blocks of the ledger and the cursor determine what
    [simple_malloc] does: starting at the cursor it scans the blocks up to
    the sentinel, then from the first block back to the cursor, and carves
    the first free block of at least [a] bytes, splitting it when the rest
    can hold a header and [MIN_SIZE] bytes. This file defines that search on
    lists ([carve_blocks], [scan_seg], [malloc_spec]) and proves what it
    promises: the result, the exhaustion case, the next-fit order, and that
    used blocks are kept. *)

From Stdlib Require Import ZArith Lia.
From stdpp Require Import base list gmap.
From S2P Require Import Prelude Machine Ledger.

Open Scope Z_scope.
Open Scope mm_scope.

(** Carving [a] bytes out of the free block [b] whose successor is at [n]:
    the blocks that replace it and the new cursor. *)
Definition carve_blocks (a : Z) (b : block) (n : Z) : list block * Z :=
  if a + HDR + MIN_SIZE <=? bsize b n
  then ([Block (addr b) false; Block (addr b + HDR + a) true], addr b + HDR + a)
  else ([Block (addr b) false], n).

(** Scanning a run of blocks followed by the header at [after]: the first
    free block of at least [a] bytes is carved. Returns the new run, the
    payload pointer and the new cursor. *)
Fixpoint scan_seg (a : Z) (seg : list block) (after : Z) : option (list block * Z * Z) :=
  match seg with
  | [] => None
  | b :: r =>
      if bfree b && (a <=? bsize b (next_addr r after)) then
        let '(bs, c) := carve_blocks a b (next_addr r after) in
        Some (bs ++ r, addr b + HDR, c)
      else
        match scan_seg a r after with
        | Some (r', p, c) => Some (b :: r', p, c)
        | None => None
        end
  end.

(** Next-fit from the cursor [c]: the blocks from [c] to the sentinel, then
    the blocks from the first one up to [c]. [None]: no free block fits. *)
Definition malloc_spec (a : Z) (l : list block) (s c : Z) : option (list block * Z * Z) :=
  let '(pre, post) := split_at c l in
  match scan_seg a post s with
  | Some (post', p, c') => Some (pre ++ post', p, c')
  | None =>
      match scan_seg a pre (next_addr post s) with
      | Some (pre', p, c') => Some (pre' ++ post, p, c')
      | None => None
      end
  end.


(** ** What the scan of a run finds *)

(** The blocks of a run with no free block of at least [a] bytes. *)
Definition no_fit (a : Z) (bs : list (block * Z)) : Prop :=
  Forall (fun '(b, n) => bfree b = true -> bsize b n < a) bs.

Lemma scan_seg_none a seg after :
  scan_seg a seg after = None <-> no_fit a (sized seg after).
Proof.
  unfold no_fit. induction seg as [|b r IH]; simpl; [split; constructor|].
  rewrite Forall_cons, <- IH.
  destruct (bfree b && (a <=? bsize b (next_addr r after))) eqn:Hfit.
  - apply andb_true_iff in Hfit as [Hb Hf]. apply Z.leb_le in Hf.
    destruct (carve_blocks _ _ _). split; [discriminate|]. intros [H _]. specialize (H Hb). lia.
  - destruct (scan_seg a r after) as [[[r' p] c]|].
    + split; [discriminate|]. intros [_ H]. discriminate H.
    + split; [|done]. intros _. split; [|done].
      intros Hb. rewrite Hb in Hfit. apply Z.leb_gt. done.
Qed.

Lemma scan_seg_some a seg after seg' p c :
  scan_seg a seg after = Some (seg', p, c) ->
  exists pre b post bs,
    seg = pre ++ b :: post /\ bfree b = true /\ a <= bsize b (next_addr post after) /\
    carve_blocks a b (next_addr post after) = (bs, c) /\ seg' = pre ++ bs ++ post /\
    p = addr b + HDR /\ no_fit a (sized pre (addr b)).
Proof.
  revert seg' p c. induction seg as [|b r IH]; intros seg' p c; simpl; [discriminate|].
  destruct (bfree b && (a <=? bsize b (next_addr r after))) eqn:Hfit.
  - apply andb_true_iff in Hfit as [Hb Hf]. apply Z.leb_le in Hf.
    destruct (carve_blocks _ _ _) as [bs c0] eqn:Hc. intros [= <- <- <-].
    exists [], b, r, bs. split_and!; try done. constructor.
  - destruct (scan_seg a r after) as [[[r' p0] c0]|] eqn:Hs; [|discriminate].
    intros [= <- <- <-].
    destruct (IH r' p0 c0 eq_refl) as (pre & b' & post & bs & -> & Hb' & Hf & Hc & -> & -> & Hn).
    exists (b :: pre), b', post, bs. split_and!; try done.
    unfold no_fit. simpl. constructor; [|exact Hn].
    intros Hb. rewrite next_addr_app in Hfit. simpl in Hfit. rewrite Hb in Hfit.
    apply Z.leb_gt. done.
Qed.

(** ** What next-fit finds *)

(** The blocks in the order the search visits them from the cursor [c],
    each with the header that follows it. *)
Definition scan_order (l : list block) (s c : Z) : list (block * Z) :=
  sized (split_at c l).2 s ++ sized (split_at c l).1 (next_addr (split_at c l).2 s).

Lemma no_fit_app a xs ys : no_fit a (xs ++ ys) <-> no_fit a xs /\ no_fit a ys.
Proof. apply Forall_app. Qed.

Lemma sized_split l s c :
  sized l s = sized (split_at c l).1 (next_addr (split_at c l).2 s) ++ sized (split_at c l).2 s.
Proof. rewrite <- sized_app. by rewrite <- split_at_app. Qed.

(** Next-fit. The search chooses the first free block of at least [a]
    bytes in the scan order from the cursor (every free block visited
    before it is smaller), replaces it by the blocks [carve_blocks] gives,
    and returns its payload. *)
Lemma malloc_spec_next_fit a l s c l' p c' :
  malloc_spec a l s c = Some (l', p, c') ->
  exists xs b n ys bs L R,
    scan_order l s c = xs ++ (b, n) :: ys /\ no_fit a xs /\
    bfree b = true /\ a <= bsize b n /\ p = addr b + HDR /\
    carve_blocks a b n = (bs, c') /\
    l = L ++ b :: R /\ next_addr R s = n /\ l' = L ++ bs ++ R.
Proof.
  unfold malloc_spec, scan_order. pose proof (split_at_app c l) as Hl.
  destruct (split_at c l) as [pre post]. simpl in *.
  destruct (scan_seg a post s) as [[[post' p1] c1]|] eqn:H1.
  - intros [= <- <- <-].
    destruct (scan_seg_some _ _ _ _ _ _ H1) as (pre1 & b & post1 & bs & -> & Hb & Hf & Hc & -> & -> & Hn).
    exists (sized pre1 (addr b)), b, (next_addr post1 s),
      (sized post1 s ++ sized pre (next_addr (pre1 ++ b :: post1) s)), bs,
      (pre ++ pre1), post1.
    rewrite sized_app. simpl. split_and!; try done.
    + by rewrite <- app_assoc.
    + rewrite <- app_assoc. exact Hl.
    + by rewrite app_assoc.
  - destruct (scan_seg a pre (next_addr post s)) as [[[pre' p1] c1]|] eqn:H2; [|discriminate].
    intros [= <- <- <-]. apply scan_seg_none in H1.
    destruct (scan_seg_some _ _ _ _ _ _ H2) as (pre1 & b & post1 & bs & -> & Hb & Hf & Hc & -> & -> & Hn).
    exists (sized post s ++ sized pre1 (addr b)), b, (next_addr post1 (next_addr post s)),
      (sized post1 (next_addr post s)), bs, pre1, (post1 ++ post).
    rewrite sized_app. simpl. split_and!; try done.
    + by rewrite <- app_assoc.
    + apply no_fit_app. done.
    + subst l. by rewrite <- app_assoc.
    + apply next_addr_app.
    + by rewrite <- !app_assoc.
Qed.

(** Exhaustion. The search finds nothing exactly when no free block of
    the list has [a] bytes or more. *)
Lemma malloc_spec_none_iff a l s c :
  malloc_spec a l s c = None <-> no_fit a (sized l s).
Proof.
  unfold malloc_spec. rewrite (sized_split l s c).
  destruct (split_at c l) as [pre post]. simpl. rewrite no_fit_app, <- !scan_seg_none.
  destruct (scan_seg a post s) as [[[? ?] ?]|];
    destruct (scan_seg a pre (next_addr post s)) as [[[? ?] ?]|]; naive_solver.
Qed.

Lemma carve_blocks_head a b n bs c :
  carve_blocks a b n = (bs, c) -> exists bs', bs = Block (addr b) false :: bs'.
Proof. unfold carve_blocks. destruct (_ <=? _); intros [= <- <-]; eauto. Qed.

(** Allocation keeps every used block, with its extent: no prior
    allocation is moved, resized or freed by a later one. *)
Lemma malloc_spec_keeps_used a l s c l' p c' :
  malloc_spec a l s c = Some (l', p, c') ->
  forall b n, (b, n) ∈ sized l s -> bfree b = false -> (b, n) ∈ sized l' s.
Proof.
  intros H b n Hin Hb.
  destruct (malloc_spec_next_fit _ _ _ _ _ _ _ H)
    as (xs & b0 & n0 & ys & bs & L & R & _ & _ & Hb0 & _ & _ & Hc & -> & Hn & ->).
  destruct (carve_blocks_head _ _ _ _ _ Hc) as [bs' ->].
  rewrite !sized_app in Hin |- *. simpl in *.
  apply elem_of_app in Hin as [Hin | Hin]; apply elem_of_app; [by left|right].
  apply elem_of_cons in Hin as [[= -> ->] | Hin]; [congruence|].
  apply elem_of_cons. right. rewrite ?sized_app. apply elem_of_app. by right.
Qed.

(** After an allocation the cursor is a header of the new list: a block
    or the sentinel. *)
Lemma malloc_spec_cursor a l s c l' p c' :
  malloc_spec a l s c = Some (l', p, c') -> c' = s \/ c' ∈ addrs l'.
Proof.
  intros H.
  destruct (malloc_spec_next_fit _ _ _ _ _ _ _ H)
    as (xs & b & n & ys & bs & L & R & _ & _ & _ & _ & _ & Hc & _ & Hn & ->).
  unfold addrs. rewrite !map_app. unfold carve_blocks in Hc.
  destruct (_ <=? _); injection Hc as <- <-.
  - right. simpl. set_solver.
  - destruct R as [|r R]; simpl in Hn; [by left|right]. subst n. simpl. set_solver.
Qed.

(** The block carved is a used block of the new list, with at least [a]
    bytes; it was free before. *)
Lemma malloc_spec_block a l s c l' p c' :
  malloc_spec a l s c = Some (l', p, c') ->
  (exists n, (Block (p - HDR) true, n) ∈ sized l s /\ a <= bsize (Block (p - HDR) true) n) /\
  (exists n', (Block (p - HDR) false, n') ∈ sized l' s /\ a <= bsize (Block (p - HDR) false) n').
Proof.
  intros H.
  destruct (malloc_spec_next_fit _ _ _ _ _ _ _ H)
    as (xs & [h f] & n & ys & bs & L & R & _ & _ & Hb & Hf & -> & Hc & -> & Hn & ->).
  simpl in *. subst f. replace (h + HDR - HDR) with h by lia. split.
  - exists n. split; [|done]. rewrite sized_app. apply elem_of_app. right. simpl. rewrite Hn.
    apply elem_of_cons. by left.
  - unfold carve_blocks in Hc. simpl in Hc. rewrite sized_app. destruct (_ <=? _) eqn:Ht;
      injection Hc as <- <-; simpl.
    + exists (h + HDR + a). split; [|unfold bsize; simpl; lia].
      apply elem_of_app. right. apply elem_of_cons. by left.
    + exists (next_addr R s). split; [|rewrite Hn; exact Hf].
      apply elem_of_app. right. apply elem_of_cons. by left.
Qed.

(** ** The block next-fit chooses is determined by the scan order *)

Lemma first_fit_unique a xs b n ys xs' b' n' ys' :
  xs ++ (b, n) :: ys = xs' ++ (b', n') :: ys' ->
  no_fit a xs -> no_fit a xs' ->
  bfree b = true -> a <= bsize b n -> bfree b' = true -> a <= bsize b' n' ->
  b = b' /\ n = n'.
Proof.
  unfold no_fit. revert xs'.
  induction xs as [|x xs IH]; intros [|x' xs'] Heq Hn Hn' Hb Hf Hb' Hf'; simpl in Heq;
    injection Heq; intros; subst; try done.
  - apply Forall_cons in Hn' as [H _]. specialize (H Hb). lia.
  - apply Forall_cons in Hn as [H _]. specialize (H Hb'). lia.
  - apply Forall_cons in Hn as [_ Hn]. apply Forall_cons in Hn' as [_ Hn'].
    eapply IH; eauto.
Qed.

Lemma scan_order_elem l s c x : x ∈ scan_order l s c <-> x ∈ sized l s.
Proof. unfold scan_order. rewrite (sized_split l s c), !elem_of_app. tauto. Qed.

(** Whenever the scan order has a first fitting free block, the search
    carves that block. *)
Lemma malloc_spec_finds a l s c xs b n ys :
  scan_order l s c = xs ++ (b, n) :: ys -> no_fit a xs ->
  bfree b = true -> a <= bsize b n ->
  exists l' c', malloc_spec a l s c = Some (l', addr b + HDR, c').
Proof.
  intros Ho Hn Hb Hf. destruct (malloc_spec a l s c) as [[[l' p] c']|] eqn:E.
  - destruct (malloc_spec_next_fit _ _ _ _ _ _ _ E)
      as (xs' & b' & n' & ys' & bs & L & R & Ho' & Hn' & Hb' & Hf' & -> & _).
    rewrite Ho in Ho'. destruct (first_fit_unique _ _ _ _ _ _ _ _ _ Ho' Hn Hn' Hb Hf Hb' Hf')
      as [-> _]. eauto.
  - apply malloc_spec_none_iff in E. unfold no_fit in E. rewrite Forall_forall in E.
    assert ((b, n) ∈ sized l s) as Hin
      by (apply (scan_order_elem l s c); rewrite Ho; apply elem_of_app; right; by left).
    specialize (E _ Hin Hb). lia.
Qed.
