(* ===== verification/Malloc.v ===== *)
(** * Malloc: [simple_malloc] of [mm.c] (lines 84-143)

    The concrete model follows the C code statement by statement: the
    coalescing [while] loop ([coalesce]), the carving of the fitting block
    with or without a split ([carve]), the step to the next header with the
    test for a full circle ([advance]), one iteration of the [do]-[while]
    loop ([malloc_iter]) and the loop itself ([search]), with fuel. The
    refinement theorem shows that the loop terminates within its fuel and
    computes what the next-fit specification [malloc_spec] of [NextFit]
    says. *)

From Stdlib Require Import ZArith Lia.
From stdpp Require Import base list gmap.
From S2P Require Import Prelude Machine Ledger SimpleInit NextFit.

Open Scope Z_scope.
Open Scope mm_scope.

(** ** Concrete model *)

(** Lines 99-108: absorb the free headers that follow [cur]. *)
Fixpoint coalesce (fuel : nat) (m : gmap Z Z) (fst cur : Z) : option (gmap Z Z) :=
  match fuel with
  | O => None
  | S fuel' =>
      if negb (GET_FREE m (GET_NEXT m cur) =? 0) && negb (GET_NEXT m cur =? fst) then
        let next := GET_NEXT m cur in
        let next_next := GET_NEXT m next in
        if next =? cur then Some m
        else coalesce fuel' (SET_FREE (SET_NEXT m cur next_next) cur 1) fst cur
      else Some m
  end.

(** The outcome of one loop iteration: return from [simple_malloc] with a
    state and a pointer, or go round again. *)
Inductive outcome := Done (st : mm_state) (p : Z) | Next (st : mm_state).

(** Lines 114-136: the free block at [current] is large enough; split it
    when the rest can hold a header and [MIN_SIZE] bytes. *)
Definition carve (st : mm_state) (m : gmap Z Z) (aligned_size : Z) : mm_state * Z :=
  let cur := current st in
  if aligned_size ⊞ HDR ⊞ MIN_SIZE <=? SIZE m cur then
    let block_start := cur ⊞ HDR in
    let new_free := block_start ⊞ aligned_size in
    let m1 := SET_NEXT m new_free (GET_NEXT m cur) in
    let m2 := SET_FREE m1 new_free 1 in
    let m3 := SET_NEXT m2 cur new_free in
    let m4 := SET_FREE m3 cur 0 in
    (MmState m4 (first st) new_free, block_start)
  else
    let m1 := SET_FREE m cur 0 in
    let block := cur ⊞ HDR in
    (MmState m1 (first st) (GET_NEXT m1 cur), block).

(** Lines 139-140: [current = GET_NEXT(current)] and the loop test. *)
Definition advance (st : mm_state) (m : gmap Z Z) (search_start : Z) : outcome :=
  let nxt := GET_NEXT m (current st) in
  let st' := MmState m (first st) nxt in
  if nxt =? search_start then Done st' NULL else Next st'.

(** Lines 97-140: one iteration of the [do]-[while] loop. *)
Definition malloc_iter (cf : nat) (st : mm_state) (aligned_size search_start : Z)
    : option outcome :=
  let cur := current st in
  if GET_FREE (mem st) cur =? 0 then Some (advance st (mem st) search_start)
  else
    match coalesce cf (mem st) (first st) cur with
    | None => None
    | Some m =>
        if aligned_size <=? SIZE m cur
        then let '(st', p) := carve st m aligned_size in Some (Done st' p)
        else Some (advance st m search_start)
    end.

(** Lines 96-140: the loop; [cf] is the fuel of the inner loop. *)
Fixpoint search (cf fuel : nat) (st : mm_state) (aligned_size search_start : Z)
    : option (mm_state * Z) :=
  match fuel with
  | O => None
  | S fuel' =>
      match malloc_iter cf st aligned_size search_start with
      | None => None
      | Some (Done st' p) => Some (st', p)
      | Some (Next st') => search cf fuel' st' aligned_size search_start
      end
  end.

(** Lines 91-92: the request raised to [MIN_SIZE] and rounded up to 8. *)
Definition request_size (size : Z) : Z :=
  let size' := if size <? MIN_SIZE then MIN_SIZE else size in
  Z.land (size' ⊞ 7) (wnot 7).

(** Lines 90-142, after initialisation. *)
Definition malloc_search (ar : arena) (st : mm_state) (size : Z) : option (mm_state * Z) :=
  search (loop_fuel ar) (loop_fuel ar) st (request_size size) (current st).

(** Lines 84-143. [None] means that the loops ran out of fuel; the theorems
    show that this never happens on a state that satisfies the invariant. *)
Definition simple_malloc (ar : arena) (st : mm_state) (size : Z) : option (mm_state * Z) :=
  if first st =? NULL then
    let st0 := simple_init ar st in
    if first st0 =? NULL then Some (st0, NULL) else malloc_search ar st0 size
  else malloc_search ar st size.

(** ** Refinement: one iteration *)

Section Iteration.
Context (st : mm_state) (l : list block) (s : Z).
Context (Hl : ledger st l s).

(** [SIZE] of a header of the ledger is the payload of its block. *)
Lemma SIZE_ledger pre b post :
  l = pre ++ b :: post -> SIZE (mem st) (addr b) = bsize b (next_addr post s).
Proof.
  intros Heq. unfold SIZE, bsize.
  rewrite (proj1 (ledger_read _ _ _ _ _ _ Hl Heq)).
  pose proof (layout_split pre b post s) as (_ & Hb & _ & Hn & _);
    [rewrite <- Heq; apply (lg_layout _ _ _ Hl)|].
  pose proof (ledger_addr_low _ _ _ _ _ _ Hl Heq). pose proof (lg_top _ _ _ Hl).
  unfold HDR, MIN_SIZE in *. wsimpl. reflexivity.
Qed.

(** The coalescing loop finds nothing to merge: the successor of a free
    block is used ([nadj]). *)
Lemma coalesce_noop pre b post cf :
  l = pre ++ b :: post -> bfree b = true ->
  coalesce (S cf) (mem st) (first st) (addr b) = Some (mem st).
Proof.
  intros Heq Hb. simpl.
  rewrite (proj1 (ledger_read _ _ _ _ _ _ Hl Heq)).
  rewrite (ledger_next_used _ _ _ _ _ _ Hl Heq Hb). done.
Qed.

(** Going on from a block that is used or too small. *)
Lemma iter_skip pre b post a ss cf :
  l = pre ++ b :: post -> current st = addr b ->
  (bfree b = false \/ bsize b (next_addr post s) < a) ->
  malloc_iter (S cf) st a ss =
    Some (if next_addr post s =? ss then Done (set_current st (next_addr post s)) NULL
          else Next (set_current st (next_addr post s))).
Proof.
  intros Heq Hc Hskip. unfold malloc_iter, advance. cbn zeta. rewrite Hc.
  destruct (ledger_read _ _ _ _ _ _ Hl Heq) as [Hn Hf]. rewrite Hf.
  destruct (bfree b) eqn:Hb; cbn [Z.b2z Z.eqb].
  - rewrite (coalesce_noop pre b post cf Heq Hb), (SIZE_ledger pre b post Heq).
    destruct Hskip as [? | Hlt]; [congruence|].
    rewrite (proj2 (Z.leb_gt _ _) Hlt), Hn. reflexivity.
  - rewrite Hn. reflexivity.
Qed.

(** Stopping at a free block that is large enough. *)
Lemma iter_fit pre b post a ss cf :
  l = pre ++ b :: post -> current st = addr b -> bfree b = true ->
  a <= bsize b (next_addr post s) ->
  malloc_iter (S cf) st a ss = let '(st', p) := carve st (mem st) a in Some (Done st' p).
Proof.
  intros Heq Hc Hb Hfit. unfold malloc_iter. cbn zeta. rewrite Hc.
  destruct (ledger_read _ _ _ _ _ _ Hl Heq) as [_ Hf]. rewrite Hf, Hb. cbn [Z.b2z Z.eqb].
  rewrite (coalesce_noop pre b post cf Heq Hb), (SIZE_ledger pre b post Heq).
  rewrite (proj2 (Z.leb_le _ _) Hfit). reflexivity.
Qed.

(** Going on from the sentinel, which is never free. *)
Lemma iter_sentinel a ss cf :
  current st = s ->
  malloc_iter (S cf) st a ss =
    Some (if first st =? ss then Done (set_current st (first st)) NULL
          else Next (set_current st (first st))).
Proof.
  intros Hc. unfold malloc_iter, advance. cbn zeta. rewrite Hc.
  destruct (ledger_read_sentinel _ _ _ Hl) as [Hn Hf]. rewrite Hf, Hn. reflexivity.
Qed.
End Iteration.

Section Carving.
Context (st : mm_state) (l : list block) (s : Z).
Context (Hl : ledger st l s).

(** [carve] writes the headers [carve_blocks] describes, returns the
    payload of the block and moves the cursor past it; no live payload
    changes. *)
Lemma carve_spec pre b post a st' p bs c :
  l = pre ++ b :: post -> bfree b = true -> current st = addr b ->
  a mod 8 = 0 -> MIN_SIZE <= a -> a <= bsize b (next_addr post s) ->
  carve st (mem st) a = (st', p) -> carve_blocks a b (next_addr post s) = (bs, c) ->
  p = addr b + HDR /\ current st' = c /\ ledger st' (pre ++ bs ++ post) s /\
  (forall x, live_at l s x -> rd (mem st') x = rd (mem st) x).
Proof.
  intros Heq Hb Hc Ha8 Ha Hfit Hcarve Hbs.
  pose proof (SIZE_ledger st l s Hl pre b post Heq) as Hsz.
  destruct (ledger_read _ _ _ _ _ _ Hl Heq) as [Hn _].
  pose proof (ledger_next_aligned _ _ _ _ _ _ Hl Heq) as Hna.
  pose proof (lg_layout _ _ _ Hl) as Hlay. rewrite Heq in Hlay.
  pose proof (layout_split pre b post s Hlay) as (_ & Hbn & _ & Hns & Hb8).
  pose proof (ledger_addr_low _ _ _ _ _ _ Hl Heq). pose proof (lg_top _ _ _ Hl).
  change (pre ++ b :: post) with (pre ++ [b] ++ post) in Hlay.
  assert (Hfree : Forall (fun b => bfree b = true) [b]) by (constructor; auto).
  assert (Hl' : ledger st (pre ++ [b] ++ post) s) by (change (pre ++ [b] ++ post) with (pre ++ b :: post); rewrite <- Heq; exact Hl).
  set (n := next_addr post s) in *.
  unfold carve in Hcarve. rewrite Hc, Hsz in Hcarve. unfold carve_blocks, bsize in *.
  wsimpl. destruct (_ <=? _) eqn:Hsplit; injection Hbs as <- <-;
    injection Hcarve as <- <-; simpl.
  - apply Z.leb_le in Hsplit.
    assert (aligned8 (addr b + HDR + a)) by (split; [Z.div_mod_to_equations|]; mlia).
    rewrite Hn, SET_NEXT_SET_FREE_1, SET_NEXT_SET_FREE_0 by done.
    split_and!; [done|done| |].
    + apply (ledger_replace st _ _ pre [b] [Block (addr b) false; Block (addr b + HDR + a) true] post s Hl'); simpl; try done.
      * split_and!; [done|mlia|apply H1|mlia|done].
      * rewrite rd_insert_eq, rd_insert_ne, rd_insert_eq by mlia. done.
      * intros x Hx. rewrite !rd_insert_ne; [done| |];
          apply not_eq_sym; eapply region_fresh_ne; eauto; simpl; mlia.
      * apply (nadj_around_free pre b post [Block (addr b) false; Block (addr b + HDR + a) true]); simpl; auto.
        rewrite <- Heq. apply (lg_nadj _ _ _ Hl).
    + intros x Hx. rewrite Heq in Hx. change (pre ++ b :: post) with (pre ++ [b] ++ post) in Hx.
      rewrite !rd_insert_ne; [done| |]; apply not_eq_sym; eapply live_at_free_ne; eauto; simpl; mlia.
  - rewrite SET_FREE_0, Hn, GET_NEXT_hdr by done.
    split_and!; [done|done| |].
    + apply (ledger_replace st _ _ pre [b] [Block (addr b) false] post s Hl'); simpl; try done.
      * rewrite rd_insert_eq. done.
      * intros x Hx. rewrite rd_insert_ne; [done|].
        apply not_eq_sym; eapply region_fresh_ne; eauto; simpl; mlia.
      * apply (nadj_around_free pre b post [Block (addr b) false]); simpl; auto.
        rewrite <- Heq. apply (lg_nadj _ _ _ Hl).
    + intros x Hx. rewrite Heq in Hx. change (pre ++ b :: post) with (pre ++ [b] ++ post) in Hx.
      rewrite rd_insert_ne; [done|]. apply not_eq_sym; eapply live_at_free_ne; eauto; simpl; mlia.
Qed.
End Carving.

(** ** Refinement: the loop *)

Section Search.
Context (cf : nat) (a ss s : Z).
Hypothesis Ha8 : a mod 8 = 0.
Hypothesis Ha : MIN_SIZE <= a.

(** Running the loop over a run [seg] of blocks (from its first header)
    does what [scan_seg] says; when nothing fits, the loop reaches the
    header after the run. *)
Lemma search_seg post : forall seg pre fuel st,
  ledger st (pre ++ seg ++ post) s -> seg <> [] ->
  current st = next_addr seg s -> ss ∉ addrs (tail seg) ->
  (length seg <= fuel)%nat ->
  match scan_seg a seg (next_addr post s) with
  | Some (seg', p, c) =>
      exists st', search (S cf) fuel st a ss = Some (st', p) /\ current st' = c /\
        ledger st' (pre ++ seg' ++ post) s /\
        (forall x, live_at (pre ++ seg ++ post) s x -> rd (mem st') x = rd (mem st) x)
  | None =>
      search (S cf) fuel st a ss =
        (if next_addr post s =? ss then Some (set_current st (next_addr post s), NULL)
         else search (S cf) (fuel - length seg) (set_current st (next_addr post s)) a ss)
  end.
Proof.
  induction seg as [|b r IH]; intros pre fuel st Hl Hne Hc Hss Hfuel; [done|].
  destruct fuel as [|fuel]; [simpl in Hfuel; lia|].
  assert (Hn : next_addr (r ++ post) s = next_addr r (next_addr post s))
    by apply next_addr_app.
  cbn [scan_seg]. simpl in Hc.
  destruct (bfree b && (a <=? bsize b (next_addr r (next_addr post s)))) eqn:Hfit.
  - apply andb_true_iff in Hfit as [Hb Hfit]. apply Z.leb_le in Hfit.
    destruct (carve_blocks a b _) as [bs c] eqn:Hcb.
    destruct (carve st (mem st) a) as [st' p] eqn:Hcv.
    rewrite <- Hn in Hcb, Hfit.
    destruct (carve_spec st _ s Hl pre b (r ++ post) a st' p bs c eq_refl Hb Hc Ha8 Ha
                Hfit Hcv Hcb) as (-> & Hc' & Hl' & Hfr).
    exists st'. split_and!; [|done| |done].
    + simpl. rewrite (iter_fit st _ s Hl pre b (r ++ post) a ss cf eq_refl Hc Hb Hfit), Hcv.
      reflexivity.
    + rewrite <- app_assoc. exact Hl'.
  - assert (Hskip : bfree b = false \/ bsize b (next_addr (r ++ post) s) < a).
    { rewrite Hn. destruct (bfree b); [right|left; done].
      apply Z.leb_gt. done. }
    pose proof (iter_skip st _ s Hl pre b (r ++ post) a ss cf eq_refl Hc Hskip) as Hit.
    rewrite Hn in Hit. destruct r as [|b' r].
    + simpl in Hit |- *. rewrite Hit. rewrite Nat.sub_0_r. destruct (_ =? ss); reflexivity.
    + cbn [next_addr] in Hit.
      rewrite (proj2 (Z.eqb_neq (addr b') ss)) in Hit by (simpl in Hss; set_solver).
      cbn [search]. rewrite Hit.
      assert (Hl2 : ledger (set_current st (addr b')) ((pre ++ [b]) ++ (b' :: r) ++ post) s)
        by (rewrite <- app_assoc; by apply ledger_set_current).
      specialize (IH (pre ++ [b]) fuel (set_current st (addr b')) Hl2
                    ltac:(discriminate) eq_refl ltac:(simpl in Hss |- *; set_solver)
                    ltac:(simpl in Hfuel |- *; lia)).
      destruct (scan_seg a (b' :: r) (next_addr post s)) as [[[seg' p] c]|].
      * destruct IH as (st' & Hs & Hc' & Hl' & Hfr). exists st'.
        rewrite <- !app_assoc in Hl', Hfr. split_and!; done.
      * rewrite IH. reflexivity.
Qed.
End Search.

Section Refinement.
Context (cf : nat) (a : Z) (st : mm_state) (l : list block) (s : Z).
Hypothesis Ha8 : a mod 8 = 0.
Hypothesis Ha : MIN_SIZE <= a.
Hypothesis Hl : ledger st l s.

(** What [search] computes, as [malloc_spec] describes it. *)
Definition search_post (fuel : nat) : Prop :=
  match malloc_spec a l s (current st) with
  | Some (l', p, c) =>
      exists st', search (S cf) fuel st a (current st) = Some (st', p) /\
        current st' = c /\ ledger st' l' s /\
        (forall x, live_at l s x -> rd (mem st') x = rd (mem st) x)
  | None => search (S cf) fuel st a (current st) = Some (st, NULL)
  end.

Lemma sentinel_notin : s ∉ addrs l.
Proof.
  intros Hin. apply list_elem_of_In, in_map_iff in Hin as (b & Hb & Hin).
  pose proof (layout_below _ _ (lg_layout _ _ _ Hl)) as Hf.
  rewrite Forall_forall in Hf. specialize (Hf b (proj2 (list_elem_of_In _ _) Hin)). mlia.
Qed.

Lemma search_from_sentinel fuel :
  current st = s -> (length l + 2 <= fuel)%nat -> search_post fuel.
Proof.
  intros Hcs Hfuel. unfold search_post, malloc_spec. pose proof sentinel_notin as Hns.
  rewrite Hcs, (split_at_notin s l Hns). cbn [scan_seg next_addr].
  destruct l as [|b0 l0] eqn:El; [by destruct (lg_nonempty _ _ _ Hl)|].
  destruct fuel as [|fuel]; [lia|]. cbn [search].
  rewrite (iter_sentinel st _ s Hl a s cf Hcs), (lg_first _ _ _ Hl). simpl next_addr.
  rewrite (proj2 (Z.eqb_neq (addr b0) s)) by (intros He; apply Hns; set_solver).
  pose proof (search_seg cf a s s Ha8 Ha [] (b0 :: l0) [] fuel (set_current st (addr b0))
    ltac:(rewrite app_nil_r; by apply ledger_set_current) ltac:(discriminate) eq_refl
    ltac:(intros Hin; apply Hns; set_solver) ltac:(simpl in *; lia)) as H.
  cbn [next_addr] in H. destruct (scan_seg a (b0 :: l0) s) as [[[l' p] c]|].
  - destruct H as (st' & Hs & Hc & Hl' & Hfr). exists st'.
    rewrite app_nil_r in *. split_and!; try done.
  - rewrite H, Z.eqb_refl. simpl. rewrite <- Hcs. by destruct st.
Qed.

Lemma search_from_block fuel :
  current st ∈ addrs l -> (length l + 2 <= fuel)%nat -> search_post fuel.
Proof.
  intros Hin Hfuel. unfold search_post, malloc_spec.
  pose proof (layout_NoDup _ _ (lg_layout _ _ _ Hl)) as Hnd.
  destruct (split_at_in (current st) l Hnd Hin)
    as (pre & b & post & Hsplit & Heq & Hab & Hpre & Hpost).
  rewrite Hsplit.
  assert (Hsc : s <> current st) by (intros He; apply sentinel_notin; rewrite He; done).
  pose proof (search_seg cf a (current st) s Ha8 Ha [] (b :: post) pre fuel st
    ltac:(simpl; rewrite app_nil_r; rewrite <- Heq; exact Hl) ltac:(discriminate) ltac:(simpl; by rewrite Hab)
    ltac:(simpl; done) ltac:(rewrite Heq, length_app in Hfuel; simpl in *; lia)) as H.
  cbn [next_addr] in H. destruct (scan_seg a (b :: post) s) as [[[post' p] c]|].
  - destruct H as (st' & Hs & Hc & Hl' & Hfr). exists st'.
    rewrite app_nil_r, <- Heq in *. split_and!; done.
  - rewrite H, (proj2 (Z.eqb_neq _ _) Hsc).
    rewrite Heq, length_app in Hfuel. simpl in Hfuel.
    destruct (fuel - length (b :: post))%nat as [|fuel'] eqn:Ef; [simpl in Ef; lia|].
    cbn [search]. rewrite (iter_sentinel (set_current st s) _ s
                             (ledger_set_current _ _ _ _ Hl) a (current st) cf eq_refl).
    simpl first. rewrite (lg_first _ _ _ Hl), Heq, next_addr_app.
    destruct pre as [|b0 pre0]; simpl next_addr.
    + rewrite Hab, Z.eqb_refl. simpl. by destruct st.
    + rewrite (proj2 (Z.eqb_neq (addr b0) (current st))) by set_solver.
      pose proof (search_seg cf a (current st) s Ha8 Ha (b :: post) (b0 :: pre0) []
        fuel' (set_current st (addr b0))
        ltac:(change ([] ++ (b0 :: pre0) ++ b :: post) with ((b0 :: pre0) ++ b :: post); rewrite <- Heq; by apply ledger_set_current) ltac:(discriminate)
        eq_refl ltac:(simpl in *; set_solver) ltac:(simpl in *; lia)) as H2.
      cbn [next_addr] in H2 |- *. rewrite Hab in H2 |- *.
      destruct (scan_seg a (b0 :: pre0) (current st)) as [[[pre' p] c]|].
      * destruct H2 as (st' & Hs & Hc & Hl' & Hfr). exists st'.
        rewrite set_current_twice. simpl in Hl', Hfr |- *. split_and!; done.
      * rewrite set_current_twice, H2, Z.eqb_refl. simpl. by destruct st.
Qed.
End Refinement.

(** Refinement of the allocation loop. On a state that satisfies the
    ledger invariant, with the cursor on a header and an 8-aligned request
    of at least [MIN_SIZE] bytes, the loop of [simple_malloc] terminates
    within the fuel and does what next-fit [malloc_spec] says: it returns
    the payload the abstract search carves, leaves the cursor where the
    abstract search does and the memory holding the new list of blocks, and
    changes no byte of a live payload; when no free block is large enough it
    returns [NULL] and leaves the state as it was. *)
Theorem search_refines cf fuel a st l s :
  ledger st l s -> cursor_ok st l s -> a mod 8 = 0 -> MIN_SIZE <= a ->
  (length l + 2 <= fuel)%nat ->
  match malloc_spec a l s (current st) with
  | Some (l', p, c) =>
      exists st', search (S cf) fuel st a (current st) = Some (st', p) /\
        current st' = c /\ ledger st' l' s /\
        (forall x, live_at l s x -> rd (mem st') x = rd (mem st) x)
  | None => search (S cf) fuel st a (current st) = Some (st, NULL)
  end.
Proof.
  intros Hl [Hc | Hc] Ha8 Ha Hf.
  - by apply search_from_sentinel.
  - by apply search_from_block.
Qed.

(** ** The request size *)

Lemma request_size_spec size :
  0 <= size <= W - 8 ->
  request_size size mod 8 = 0 /\ MIN_SIZE <= request_size size /\
  size <= request_size size < Z.max size MIN_SIZE + 8.
Proof.
  intros Hs. unfold request_size.
  change (wnot 7) with (wnot (Z.ones 3)). change (2 ^ 3) with 8.
  destruct (Z.ltb_spec size MIN_SIZE); wsimpl;
    rewrite land_wnot_ones by (unfold W, MIN_SIZE in *; lia);
    change (2 ^ 3) with 8; unfold MIN_SIZE in *; Z.div_mod_to_equations; lia.
Qed.

(** C10: [size + 7] wraps around for the seven largest [size_t] values:
    the request is rounded to [0] bytes. *)
Theorem request_size_wraps size : W - 7 <= size < W -> request_size size = 0.
Proof.
  intros Hs. unfold request_size.
  rewrite (proj2 (Z.ltb_ge size MIN_SIZE)) by (unfold W, MIN_SIZE in *; lia).
  change (wnot 7) with (wnot (Z.ones 3)).
  rewrite land_wnot_ones by (first [apply wrap_range | lia]).
  unfold wadd, wrap. rewrite (Z.mod_eq (size + 7) W) by (unfold W; lia).
  replace ((size + 7) / W) with 1 by (apply Z.div_unique with (size + 7 - W); unfold W in *; lia).
  change (2 ^ 3) with 8. rewrite Z.mod_small by (unfold W in *; lia). lia.
Qed.

(** ** [simple_malloc] *)

Lemma loop_fuel_S ar : exists k, loop_fuel ar = S k.
Proof. unfold loop_fuel. eexists. rewrite Nat.add_succ_r. reflexivity. Qed.

(** The search of an initialised state, in terms of [malloc_spec]. *)
Lemma malloc_search_refines ar st l s size :
  ledger st l s -> cursor_ok st l s -> spans ar l s -> 0 <= size <= W - 8 ->
  match malloc_spec (request_size size) l s (current st) with
  | Some (l', p, c) =>
      exists st', malloc_search ar st size = Some (st', p) /\ current st' = c /\
        ledger st' l' s /\ (forall x, live_at l s x -> rd (mem st') x = rd (mem st) x)
  | None => malloc_search ar st size = Some (st, NULL)
  end.
Proof.
  intros Hl Hc Hsp Hs. pose proof (request_size_spec size Hs) as (Ha8 & Ha & _).
  unfold malloc_search. pose proof (loop_fuel_bound ar l s Hsp (lg_layout _ _ _ Hl)).
  destruct (loop_fuel_S ar) as [k Hk]. rewrite Hk in *.
  by apply search_refines.
Qed.

(** Once [first] is set, [simple_malloc] is the search. *)
Lemma simple_malloc_ready ar st size :
  first st <> NULL -> simple_malloc ar st size = malloc_search ar st size.
Proof. intros H. unfold simple_malloc. by rewrite (proj2 (Z.eqb_neq _ _) H). Qed.

Lemma ledger_ready st l s : ledger st l s -> first st <> NULL.
Proof. intros Hl. pose proof (lg_low _ _ _ Hl). mlia. Qed.

(** C1: Refinement. On an initialised state that satisfies the ledger
    invariant, with the cursor on a header and the ledger spanning the
    arena, [simple_malloc] terminates (its loops never run out of fuel) and
    does what next-fit [malloc_spec] says on the rounded request: it returns
    the payload of the block the abstract search carves, moves the cursor
    where the abstract search does, leaves the memory holding the new list
    of blocks, and changes no byte of a live payload; when no free block is
    large enough it returns [NULL] and changes nothing. *)
Theorem simple_malloc_refines ar st l s size :
  ledger st l s -> cursor_ok st l s -> spans ar l s -> 0 <= size <= W - 8 ->
  match malloc_spec (request_size size) l s (current st) with
  | Some (l', p, c) =>
      exists st', simple_malloc ar st size = Some (st', p) /\ current st' = c /\
        ledger st' l' s /\ (forall x, live_at l s x -> rd (mem st') x = rd (mem st) x)
  | None => simple_malloc ar st size = Some (st, NULL)
  end.
Proof.
  intros Hl Hc Hsp Hs. rewrite simple_malloc_ready by (by eapply ledger_ready).
  by apply malloc_search_refines.
Qed.

(** C5: Allocation is correct. On an initialised state that satisfies the
    invariant, [simple_malloc] returns. Either it returns [NULL], changes
    nothing, and no free block had room for the rounded request; or it
    returns a non-null 8-aligned pointer to the payload of a block that is
    now used and holds at least [size] bytes, the invariant holds again
    with the cursor on a header, every block that was used is still used
    with the same extent, and no byte of a live payload has changed. *)
Theorem simple_malloc_correct ar st l s size :
  ledger st l s -> cursor_ok st l s -> spans ar l s -> 0 <= size <= W - 8 ->
  exists st' p, simple_malloc ar st size = Some (st', p) /\
  ((p = NULL /\ st' = st /\ no_fit (request_size size) (sized l s)) \/
   (exists l', p mod 8 = 0 /\ NULL < p /\ ledger st' l' s /\ cursor_ok st' l' s /\
      (exists n, (Block (p - HDR) false, n) ∈ sized l' s /\ size <= n - p) /\
      (forall b n, (b, n) ∈ sized l s -> bfree b = false -> (b, n) ∈ sized l' s) /\
      (forall x, live_at l s x -> rd (mem st') x = rd (mem st) x))).
Proof.
  intros Hl Hc Hsp Hs. pose proof (malloc_search_refines ar st l s size Hl Hc Hsp Hs) as H.
  rewrite simple_malloc_ready by (by eapply ledger_ready).
  pose proof (request_size_spec size Hs) as (_ & _ & Hreq & _).
  destruct (malloc_spec (request_size size) l s (current st)) as [[[l' p] c]|] eqn:E.
  - destruct H as (st' & Hm & Hc' & Hl' & Hfr). exists st', p. split; [done|right].
    destruct (malloc_spec_block _ _ _ _ _ _ _ E) as [(n & Hin & _) (n' & Hin' & Hfit)].
    destruct (sized_layout l s _ n (lg_layout _ _ _ Hl) Hin) as (Ha & _ & Hlow & _).
    pose proof (lg_low _ _ _ Hl). rewrite (lg_first _ _ _ Hl) in *. simpl in Ha, Hlow.
    exists l'. split_and!; try done.
    + Z.div_mod_to_equations. mlia.
    + mlia.
    + unfold cursor_ok. rewrite Hc'. apply (malloc_spec_cursor _ _ _ _ _ _ _ E).
    + exists n'. split; [done|]. unfold bsize in Hfit. simpl in Hfit. mlia.
    + apply (malloc_spec_keeps_used _ _ _ _ _ _ _ E).
  - exists st, NULL. split; [done|left]. split_and!; try done.
    by apply malloc_spec_none_iff in E.
Qed.

(** The first call initialises the arena and then allocates as any later
    call does. *)
Lemma simple_malloc_uninit ar st size :
  first st = NULL -> first (simple_init ar st) <> NULL ->
  simple_malloc ar st size = simple_malloc ar (simple_init ar st) size.
Proof.
  intros H0 H1. unfold simple_malloc. rewrite H0, (proj2 (Z.eqb_neq _ _) H1). done.
Qed.

(** C12: On an arena too small for one block and the sentinel, every
    allocation returns [NULL] and the ledger stays uninitialised. *)
Theorem simple_malloc_small_arena ar st size :
  arena_wf ar -> ~ arena_big ar -> first st = NULL ->
  simple_malloc ar st size = Some (simple_init ar st, NULL) /\ first (simple_init ar st) = NULL.
Proof.
  intros Hw Hb H0. pose proof (simple_init_too_small ar st Hw Hb H0) as H1.
  unfold simple_malloc. rewrite H0, H1. done.
Qed.

(** C6: Next-fit, on the code. Visiting the blocks from the cursor to the
    sentinel and then from [first] up to the cursor, [simple_malloc]
    returns the payload of the first free block whose payload holds the
    rounded request. *)
Theorem simple_malloc_next_fit ar st l s size xs b n ys :
  ledger st l s -> cursor_ok st l s -> spans ar l s -> 0 <= size <= W - 8 ->
  scan_order l s (current st) = xs ++ (b, n) :: ys -> no_fit (request_size size) xs ->
  bfree b = true -> request_size size <= bsize b n ->
  exists st', simple_malloc ar st size = Some (st', addr b + HDR).
Proof.
  intros Hl Hc Hsp Hs Ho Hn Hb Hf.
  pose proof (malloc_search_refines ar st l s size Hl Hc Hsp Hs) as H.
  rewrite simple_malloc_ready by (by eapply ledger_ready).
  destruct (malloc_spec_finds _ _ _ _ _ _ _ _ Ho Hn Hb Hf) as (l' & c' & E).
  rewrite E in H. destruct H as (st' & Hm & _). eauto.
Qed.

(** C7: Exhaustion. On an initialised state, [simple_malloc] returns
    [NULL] exactly when no free block has room for the rounded request. *)
Theorem simple_malloc_null_iff ar st l s size :
  ledger st l s -> cursor_ok st l s -> spans ar l s -> 0 <= size <= W - 8 ->
  (exists st', simple_malloc ar st size = Some (st', NULL)) <->
  no_fit (request_size size) (sized l s).
Proof.
  intros Hl Hc Hsp Hs.
  pose proof (malloc_search_refines ar st l s size Hl Hc Hsp Hs) as H.
  rewrite simple_malloc_ready by (by eapply ledger_ready).
  rewrite <- (malloc_spec_none_iff _ l s (current st)).
  destruct (malloc_spec _ l s (current st)) as [[[l' p] c]|] eqn:E.
  - destruct H as (st' & Hm & _). rewrite Hm. split; [|discriminate].
    intros (st'' & [= _ Hp]). destruct (malloc_spec_block _ _ _ _ _ _ _ E) as [(n & Hin & _) _].
    destruct (sized_layout l s _ n (lg_layout _ _ _ Hl) Hin) as (_ & _ & Hlow & _).
    simpl in Hlow. pose proof (lg_low _ _ _ Hl). rewrite (lg_first _ _ _ Hl) in *. mlia.
  - split; [done|]. intros _. eauto.
Qed.

(** The loop never moves [first]. *)
Lemma search_first cf fuel st a ss st' p :
  search cf fuel st a ss = Some (st', p) -> first st' = first st.
Proof.
  revert st. induction fuel as [|fuel IH]; intros st; simpl; [discriminate|].
  unfold malloc_iter, advance, carve.
  repeat case_match; intros; simplify_eq; try done.
  all: match goal with H : search _ _ _ _ _ = _ |- _ => apply IH in H; rewrite H end.
  all: simplify_eq; done.
Qed.

(** C14: The rounding of lines 91-92, for every request that does not
    wrap: the least multiple of 8 that is at least the request and at
    least [MIN_SIZE]. *)
Theorem request_size_round size :
  0 <= size <= W - 8 ->
  request_size size = 8 * ((Z.max size MIN_SIZE + 7) / 8) /\
  Z.max size MIN_SIZE <= request_size size < Z.max size MIN_SIZE + 8.
Proof.
  intros Hs. unfold request_size. change (wnot 7) with (wnot (Z.ones 3)).
  rewrite land_wnot_ones by (first [apply wrap_range | lia]).
  change (2 ^ 3) with 8.
  assert ((if size <? MIN_SIZE then MIN_SIZE else size) = Z.max size MIN_SIZE) as ->
    by (destruct (Z.ltb_spec size MIN_SIZE); unfold MIN_SIZE in *; lia).
  wsimpl. rewrite (Z.mod_eq _ 8) by lia. Z.div_mod_to_equations. lia.
Qed.
