(* ===== verification/Free.v ===== *)
(** * Free: [simple_free] of [mm.c] (lines 156-192)

    The header is recovered at a fixed offset below the pointer; a block
    already free is left alone; otherwise the block is marked free,
    coalesced with the free blocks that follow it, its predecessor is found
    by walking the circular list, and a free predecessor absorbs it (and
    coalesces forward again). The abstract specification [free_spec] acts
    on the list of blocks. [simple_free] never touches [current]. *)

From Stdlib Require Import ZArith Lia.
From stdpp Require Import base list gmap.
From S2P Require Import Prelude Machine Ledger SimpleInit.

Open Scope Z_scope.
Open Scope mm_scope.

(** ** Concrete model *)

(** Lines 172-175 and 187-190: absorb the free headers after [block]. *)
Fixpoint coalesce_forward (fuel : nat) (m : gmap Z Z) (block : Z) : option (gmap Z Z) :=
  match fuel with
  | O => None
  | S fuel' =>
      if GET_FREE m (GET_NEXT m block) =? 0 then Some m
      else coalesce_forward fuel'
             (SET_FREE (SET_NEXT m block (GET_NEXT m (GET_NEXT m block))) block 1) block
  end.

(** Lines 178-181: walk the circle until the header whose next is [block]. *)
Fixpoint find_prev (fuel : nat) (m : gmap Z Z) (block prev : Z) : option Z :=
  match fuel with
  | O => None
  | S fuel' =>
      if GET_NEXT m prev =? block then Some prev
      else find_prev fuel' m block (GET_NEXT m prev)
  end.

(** Lines 156-192, each loop given [fuel] iterations. [None] means that a
    loop ran out of fuel. *)
Definition free_with (fuel : nat) (st : mm_state) (ptr : Z) : option mm_state :=
  let block := ptr ⊟ HDR in
  let m := mem st in
  if negb (GET_FREE m block =? 0) then Some st
  else
    let m1 := SET_FREE m block 1 in
    match coalesce_forward fuel m1 block with
    | None => None
    | Some m2 =>
        match find_prev fuel m2 block block with
        | None => None
        | Some prev =>
            if negb (GET_FREE m2 prev =? 0) then
              let m3 := SET_FREE (SET_NEXT m2 prev (GET_NEXT m2 block)) prev 1 in
              match coalesce_forward fuel m3 prev with
              | None => None
              | Some m4 => Some (MmState m4 (first st) (current st))
              end
            else Some (MmState m2 (first st) (current st))
        end
    end.

(** [simple_free] with the loop bound of the arena; the theorems show that
    it never runs out on a state that satisfies the invariant. *)
Definition simple_free (ar : arena) (st : mm_state) (ptr : Z) : option mm_state :=
  free_with (loop_fuel ar) st ptr.

(** ** Abstract release *)

(** The free blocks at the front of a list are absorbed by forward
    coalescing. *)
Fixpoint drop_free (l : list block) : list block :=
  match l with
  | b :: r => if bfree b then drop_free r else l
  | [] => []
  end.

Lemma drop_free_split l :
  exists fp, l = fp ++ drop_free l /\ Forall (fun b => bfree b = true) fp.
Proof.
  induction l as [|b l IH]; simpl; [exists []; auto|].
  destruct (bfree b) eqn:Hb.
  - destruct IH as (fp & Hl & Hf). exists (b :: fp). simpl. rewrite <- Hl. auto.
  - exists []. auto.
Qed.

Lemma drop_free_idem l : drop_free (drop_free l) = drop_free l.
Proof. induction l as [|b l IH]; simpl; [done|]. destruct (bfree b) eqn:Hb; simpl; [done|by rewrite Hb]. Qed.

(** What forward coalescing leaves after a block is used, or nothing. *)
Lemma drop_free_head x l : edge (Some x) (head (drop_free l)).
Proof. induction l as [|b l IH]; simpl; [done|]. destruct (bfree b) eqn:Hb; simpl; auto. Qed.

(** Releasing the used block whose header is at [h]: it becomes free, the
    free blocks after it merge into it, and a free predecessor absorbs it.
    The cursor is not part of the list and is not changed. *)
Definition free_spec (h : Z) (l : list block) : list block :=
  let '(pre, rest) := split_at h l in
  match rest with
  | b :: post =>
      if bfree b then l
      else
        match last pre with
        | Some p => if bfree p then pre ++ drop_free post
                    else pre ++ Block h true :: drop_free post
        | None => Block h true :: drop_free post
        end
  | [] => l
  end.

(** ** The forward coalescing loop *)

Section Coalesce.
Context (s : Z).

(** The run after the block at [h] is absorbed up to the first used
    header; only the word at [h] changes. *)
Lemma coalesce_forward_spec : forall post m h fuel,
  chain m post s -> rd m h = hdr_word (next_addr post s) true ->
  GET_FREE m s = 0 -> h ∉ addrs post -> h <> s ->
  Forall (fun b => aligned8 (addr b)) post -> aligned8 s ->
  (length post < fuel)%nat ->
  exists m', coalesce_forward fuel m h = Some m' /\
    rd m' h = hdr_word (next_addr (drop_free post) s) true /\
    (forall x, x <> h -> rd m' x = rd m x).
Proof.
  induction post as [|b r IH]; intros m h fuel Hc Hh Hs Hn Hhs Ha Has Hf;
    (destruct fuel as [|fuel]; [simpl in Hf; lia|]); simpl.
  - rewrite (GET_NEXT_of m h s true Has Hh), Hs. simpl. eexists. split_and!; eauto.
  - inversion Ha as [|? ? Hab Har]; subst. destruct Hc as [Hb Hc].
    rewrite (GET_NEXT_of m h (addr b) true Hab Hh).
    assert (aligned8 (next_addr r s)) as Hna by (destruct r; simpl; [|inversion Har]; done).
    rewrite (GET_FREE_of _ _ _ _ Hna Hb).
    destruct (bfree b) eqn:Hfb; simpl.
    + rewrite (GET_NEXT_of _ _ _ _ Hna Hb), SET_NEXT_SET_FREE_1 by done.
      destruct (IH (<[h := hdr_word (next_addr r s) true]> m) h fuel)
        as (m' & Hm' & Hh' & Hx); try done.
      * apply chain_insert_notin; [set_solver|done].
      * apply rd_insert_eq.
      * unfold GET_FREE. rewrite rd_insert_ne by done. done.
      * set_solver.
      * simpl in Hf. lia.
      * exists m'. split_and!; try done. intros x Hxh. rewrite Hx, rd_insert_ne by done. done.
    + exists m. split_and!; done.
Qed.
End Coalesce.

(** ** The predecessor walk *)

(** Following [GET_NEXT] from [x] visits the headers of [path] in order. *)
Fixpoint linked (m : gmap Z Z) (x : Z) (path : list Z) : Prop :=
  match path with
  | [] => True
  | y :: r => GET_NEXT m x = y /\ linked m y r
  end.

Lemma last_cons_default (y x : Z) p : List.last (y :: p) x = List.last p y.
Proof.
  revert y x. induction p as [|z p IH]; intros y x; [done|].
  change (List.last (z :: p) x = List.last (z :: p) y). rewrite !IH. done.
Qed.

Lemma linked_app m x p1 p2 :
  linked m x (p1 ++ p2) <-> linked m x p1 /\ linked m (List.last p1 x) p2.
Proof.
  revert x. induction p1 as [|y p1 IH]; intros x; cbn [linked app]; [simpl; tauto|].
  rewrite IH, last_cons_default. tauto.
Qed.

(** A chain is a linked path: from a header pointing at its first block,
    through its blocks, to the header after it. *)
Lemma chain_linked m l n x :
  chain m l n -> Forall (fun b => aligned8 (addr b)) l -> aligned8 n ->
  GET_NEXT m x = next_addr l n -> linked m x (addrs l ++ [n]).
Proof.
  revert x. induction l as [|b l IH]; intros x Hc Ha Hn Hx; simpl; [done|].
  inversion Ha as [|? ? Hab Hal]; subst. destruct Hc as [Hb Hc].
  split; [done|]. apply IH; try done.
  eapply GET_NEXT_of; [|exact Hb]. destruct l; simpl; [done|]. by inversion Hal.
Qed.

(** [find_prev] stops at the header before [target] on the path. *)
Lemma find_prev_path m target : forall path x fuel,
  linked m x (path ++ [target]) -> target ∉ path -> (length path < fuel)%nat ->
  find_prev fuel m target x = Some (List.last path x).
Proof.
  induction path as [|y path IH]; intros x fuel Hl Hn Hf;
    (destruct fuel as [|fuel]; [simpl in Hf; lia|]); cbn [find_prev]; simpl in Hl, Hf.
  - destruct Hl as [-> _]. by rewrite Z.eqb_refl.
  - destruct Hl as [Hx Hl]. rewrite Hx, (proj2 (Z.eqb_neq _ _)) by set_solver.
    rewrite IH by (try set_solver; lia). by rewrite last_cons_default.
Qed.

(** ** Refinement of [simple_free] *)

Lemma last_app_cons (p q : list Z) (s d : Z) : List.last (p ++ s :: q) d = List.last q s.
Proof.
  revert d. induction p as [|x p IH]; intros d; cbn [app].
  - apply last_cons_default.
  - rewrite last_cons_default. apply IH.
Qed.

Section Release.
Context (ar : arena) (st : mm_state) (l : list block) (s : Z).
Hypothesis Hl : ledger st l s.
Hypothesis Hsp : spans ar l s.
Context (pre : list block) (b : block) (post : list block).
Hypothesis Heq : l = pre ++ b :: post.
Hypothesis Hused : bfree b = false.

Lemma release_facts :
  addr b ∉ addrs pre /\ addr b ∉ addrs post /\ addr b <> s /\
  Forall (fun b => aligned8 (addr b)) l /\ aligned8 s /\ (length l + 2 <= loop_fuel ar)%nat.
Proof using All.
  pose proof (layout_NoDup _ _ (lg_layout _ _ _ Hl)) as Hnd.
  rewrite Heq in Hnd. unfold addrs in Hnd. rewrite map_app in Hnd. simpl in Hnd.
  apply NoDup_app in Hnd as (Hp & Hdis & Hq). apply NoDup_cons in Hq as [Hq _].
  destruct (ledger_aligned _ _ _ Hl) as [Ha Hs].
  pose proof (layout_split pre b post s) as (_ & Hb & _ & Hn & _);
    [rewrite <- Heq; apply (lg_layout _ _ _ Hl)|].
  split_and!; try done.
  - intros Hin. apply (Hdis (addr b)); [done|]. set_solver.
  - mlia.
  - apply (loop_fuel_bound ar l s Hsp (lg_layout _ _ _ Hl)).
Qed.

(** Marking the block free and coalescing forward. *)
Lemma release_coalesce :
  exists m2, coalesce_forward (loop_fuel ar) (SET_FREE (mem st) (addr b) 1) (addr b) = Some m2 /\
    rd m2 (addr b) = hdr_word (next_addr (drop_free post) s) true /\
    (forall x, x <> addr b -> rd m2 x = rd (mem st) x).
Proof using All.
  destruct release_facts as (Hpre & Hpost & Hbs & Ha & Has & Hf).
  destruct (ledger_read _ _ _ _ _ _ Hl Heq) as [Hn _].
  pose proof (lg_chain _ _ _ Hl) as Hc. rewrite Heq, chain_app in Hc. destruct Hc as [_ [_ Hc]].
  rewrite SET_FREE_1, Hn.
  destruct (coalesce_forward_spec s post (<[addr b := hdr_word (next_addr post s) true]> (mem st))
              (addr b) (loop_fuel ar)) as (m2 & Hm2 & Hh & Hx); try done.
  - by apply chain_insert_notin.
  - apply rd_insert_eq.
  - unfold GET_FREE. rewrite rd_insert_ne by done.
    rewrite (lg_sentinel _ _ _ Hl). apply hdr_word_free. apply (ledger_first_aligned _ _ _ Hl).
  - rewrite Heq, Forall_app, Forall_cons in Ha. tauto.
  - rewrite Heq, length_app in Hf. simpl in Hf. lia.
  - exists m2. split_and!; try done. intros x Hxb. rewrite Hx, rd_insert_ne by done. done.
Qed.
Lemma release_prev m2 :
  rd m2 (addr b) = hdr_word (next_addr (drop_free post) s) true ->
  (forall x, x <> addr b -> rd m2 x = rd (mem st) x) ->
  find_prev (loop_fuel ar) m2 (addr b) (addr b) = Some (List.last (addrs pre) s).
Proof using All.
  intros Hh Hx. destruct release_facts as (Hpre & Hpost & Hbs & Ha & Has & Hf).
  destruct (drop_free_split post) as (fp & Hpf & _).
  set (post' := drop_free post) in *.
  pose proof (lg_chain _ _ _ Hl) as Hc. rewrite Heq, chain_app in Hc.
  destruct Hc as [Hcpre [_ Hcpost]]. simpl in Hcpre.
  rewrite Hpf, chain_app in Hcpost. destruct Hcpost as [_ Hcpost'].
  assert (Hpost' : addr b ∉ addrs post')
    by (rewrite Hpf in Hpost; unfold addrs in *; rewrite map_app in Hpost; set_solver).
  rewrite Heq, Forall_app, Forall_cons in Ha. destruct Ha as (Hapre & Hab & Hapost).
  rewrite Hpf, Forall_app in Hapost. destruct Hapost as [_ Hapost'].
  rewrite Heq, length_app in Hf. simpl in Hf.
  assert (length post' <= length post)%nat by (rewrite Hpf; rewrite length_app; lia).
  rewrite <- (last_app_cons (addrs post') (addrs pre) s (addr b)).
  apply find_prev_path.
  - replace ((addrs post' ++ s :: addrs pre) ++ [addr b])
      with ((addrs post' ++ [s]) ++ (addrs pre ++ [addr b]))
      by (rewrite <- !app_assoc; done).
    apply linked_app. split.
    + apply chain_linked; try done.
      * apply (chain_agree (mem st)); [|done]. intros x Hin. apply Hx. set_solver.
      * eapply GET_NEXT_of; [|exact Hh]. destruct post'; simpl; [done|]. by inversion Hapost'.
    + rewrite last_last. apply chain_linked; try done.
      * apply (chain_agree (mem st)); [|done]. intros x Hin. apply Hx. set_solver.
      * assert (Hfirst : first st = next_addr pre (addr b))
          by (rewrite (lg_first _ _ _ Hl), Heq, next_addr_app; done).
        eapply GET_NEXT_of; [|rewrite Hx by done; rewrite (lg_sentinel _ _ _ Hl), Hfirst; done].
        rewrite <- Hfirst. apply (ledger_first_aligned _ _ _ Hl).
  - rewrite elem_of_app, elem_of_cons. intros [? | [? | ?]]; [done|congruence|done].
  - rewrite length_app. simpl. unfold addrs. rewrite !length_map. lia.
Qed.
(** The free blocks after the released one, and what follows them. *)
Lemma release_split :
  exists fp, l = pre ++ (b :: fp) ++ drop_free post /\ Forall (fun b => bfree b = true) fp.
Proof using All.
  destruct (drop_free_split post) as (fp & Hpf & Hfp). exists fp. split; [|done].
  rewrite Heq. simpl. rewrite <- Hpf. done.
Qed.

(** No free predecessor: the released block, grown over the free blocks
    after it, becomes one free block. *)
Lemma release_nomerge m2 c :
  rd m2 (addr b) = hdr_word (next_addr (drop_free post) s) true ->
  (forall x, x <> addr b -> rd m2 x = rd (mem st) x) ->
  edge (last pre) (Some (Block (addr b) true)) ->
  ledger (MmState m2 (first st) c) (pre ++ Block (addr b) true :: drop_free post) s /\
  (forall x, live_at (pre ++ Block (addr b) true :: drop_free post) s x -> rd m2 x = rd (mem st) x).
Proof using All.
  intros Hh Hx Hedge. destruct release_split as (fp & Hsplit & Hfp).
  pose proof (lg_layout _ _ _ Hl) as Hy. rewrite Hsplit in Hy.
  destruct (layout_run_end _ _ _ _ _ Hy) as [Hb8 Hreg].
  pose proof (lg_nadj _ _ _ Hl) as Hn. rewrite Hsplit in Hn.
  apply nadj_parts in Hn as [Hnp Hnq].
  assert (Hnew : ledger (MmState m2 (first st) c)
                   (pre ++ [Block (addr b) true] ++ drop_free post) s).
  { rewrite Hsplit in Hl.
    apply (ledger_replace st m2 c pre (b :: fp) [Block (addr b) true] _ s Hl); simpl; try done.
    - intros y Hy'. apply Hx.
      eapply (region_fresh_ne pre (b :: fp)); eauto; simpl; mlia.
    - apply nadj_between; try done. apply drop_free_head. }
  split; [exact Hnew|].
  intros y Hy'. apply Hx.
  eapply (live_at_free_ne pre [Block (addr b) true]); eauto.
  - apply (lg_layout _ _ _ Hnew).
  - simpl. mlia.
  - exact Hy'.
Qed.
(** A free predecessor absorbs the released block and the free blocks
    after it; its header is the only other word written. *)
Lemma release_merge pre0 p m2 c :
  pre = pre0 ++ [p] -> bfree p = true ->
  rd m2 (addr b) = hdr_word (next_addr (drop_free post) s) true ->
  (forall x, x <> addr b -> rd m2 x = rd (mem st) x) ->
  exists m4, coalesce_forward (loop_fuel ar)
               (SET_FREE (SET_NEXT m2 (addr p) (GET_NEXT m2 (addr b))) (addr p) 1) (addr p)
             = Some m4 /\
    ledger (MmState m4 (first st) c) (pre ++ drop_free post) s /\
    (forall x, live_at (pre ++ drop_free post) s x -> rd m4 x = rd (mem st) x).
Proof using All.
  intros Hpre Hp Hh Hx. destruct release_facts as (Hbpre & Hbpost & Hbs & Ha & Has & Hf).
  destruct release_split as (fp & Hsplit & Hfp). set (post' := drop_free post) in *.
  rewrite Hpre in Hsplit. rewrite <- app_assoc in Hsplit. simpl in Hsplit.
  change (pre0 ++ p :: b :: fp ++ post') with (pre0 ++ (p :: b :: fp) ++ post') in Hsplit.
  pose proof (lg_layout _ _ _ Hl) as Hy. rewrite Hsplit in Hy.
  destruct (layout_run_end _ _ _ _ _ Hy) as [Hp8 Hpreg].
  assert (Hpb : addr p + HDR + MIN_SIZE <= addr b).
  { rewrite layout_app in Hy. destruct Hy as [_ Hy]. simpl in Hy. tauto. }
  assert (Hbreg : addr b + HDR + MIN_SIZE <= next_addr post' s).
  { replace (pre0 ++ (p :: b :: fp) ++ post') with ((pre0 ++ [p]) ++ (b :: fp) ++ post') in Hy
      by (rewrite <- app_assoc; reflexivity).
    apply layout_run_end in Hy. tauto. }
  rewrite Hsplit in Ha. rewrite !Forall_app, !Forall_cons in Ha.
  destruct Ha as (_ & (Hap & _ & _) & Hapost').
  assert (Hna : aligned8 (next_addr post' s)) by (destruct post'; simpl; [done|]; by inversion Hapost').
  pose proof (lg_chain _ _ _ Hl) as Hc. rewrite Hsplit, !chain_app in Hc.
  destruct Hc as (_ & _ & Hcpost').
  assert (Hfresh : forall x y, addr p <= y < next_addr post' s ->
            x ∈ addrs pre0 \/ x ∈ addrs post' \/ x = s -> x <> y).
  { intros x y Hy' Hx'. eapply (region_fresh_ne pre0 (p :: b :: fp) post' s);
      [rewrite <- Hsplit; apply (lg_layout _ _ _ Hl) | discriminate | exact Hy' | exact Hx']. }
  rewrite (GET_NEXT_of _ _ _ _ Hna Hh), SET_NEXT_SET_FREE_1 by done.
  assert (Hm3 : forall x, x <> addr p -> x <> addr b ->
                rd (<[addr p := hdr_word (next_addr post' s) true]> m2) x = rd (mem st) x)
    by (intros; rewrite rd_insert_ne, Hx by done; done).
  assert (Hout : forall x, x ∈ addrs pre0 \/ x ∈ addrs post' \/ x = s ->
                 x <> addr p /\ x <> addr b)
    by (intros x Hx'; split; apply (Hfresh x); auto; simpl; mlia).
  assert (Hlen : (length post' < loop_fuel ar)%nat).
  { rewrite Hsplit, !length_app in Hf. simpl in Hf. lia. }
  assert (Hc3 : chain (<[addr p := hdr_word (next_addr post' s) true]> m2) post' s).
  { apply (chain_agree (mem st)); [|done]. intros x Hin. apply Hm3; apply Hout; auto. }
  assert (Hs3 : GET_FREE (<[addr p := hdr_word (next_addr post' s) true]> m2) s = 0).
  { unfold GET_FREE. rewrite Hm3 by (apply Hout; auto).
    rewrite (lg_sentinel _ _ _ Hl). apply hdr_word_free, (ledger_first_aligned _ _ _ Hl). }
  destruct (coalesce_forward_spec s post' (<[addr p := hdr_word (next_addr post' s) true]> m2)
              (addr p) (loop_fuel ar) Hc3 (rd_insert_eq _ _ _) Hs3
              ltac:(intros Hin; by destruct (Hout (addr p) ltac:(auto)))
              ltac:(intros Hps; by destruct (Hout s ltac:(auto)))
              Hapost' Has Hlen) as (m4 & Hm4 & Hp4 & Hx4).
  unfold post' in Hp4. rewrite drop_free_idem in Hp4. fold post' in Hp4.
  assert (Hall : forall x, x <> addr p -> x <> addr b -> rd m4 x = rd (mem st) x)
    by (intros; rewrite Hx4, Hm3 by done; done).
  assert (Hnew : ledger (MmState m4 (first st) c) (pre0 ++ [p] ++ post') s).
  { pose proof (lg_nadj _ _ _ Hl) as Hn. rewrite Hsplit in Hn.
    pose proof Hn as Hn'. apply nadj_parts in Hn as [Hn1 Hn2].
    rewrite nadj_app in Hn'. destruct Hn' as (_ & _ & He).
    rewrite Hsplit in Hl.
    apply (ledger_replace st m4 c pre0 (p :: b :: fp) [p] post' s Hl); try done.
    - simpl. split; [|done]. by rewrite Hp4, Hp.
    - intros x Hin. destruct (Hout x Hin). apply Hall; done.
    - apply nadj_between; try done. apply drop_free_head. }
  exists m4. rewrite Hpre, <- app_assoc. split_and!; [done|done|].
  intros x Hlive. apply Hall.
  - eapply (live_at_free_ne pre0 [p]); [apply (lg_layout _ _ _ Hnew)| |simpl; mlia|done].
    constructor; auto.
  - eapply (live_at_free_ne pre0 [p]); [apply (lg_layout _ _ _ Hnew)| |simpl; mlia|done].
    constructor; auto.
Qed.
End Release.

(** The release step in terms of [free_spec]: it terminates, leaves
    [current] alone, and the memory holds the list [free_spec] gives. *)
Lemma simple_free_spec ar st l s pre b post :
  ledger st l s -> spans ar l s -> l = pre ++ b :: post -> bfree b = false ->
  exists st', simple_free ar st (addr b + HDR) = Some st' /\
    current st' = current st /\ ledger st' (free_spec (addr b) l) s /\
    (forall x, live_at (free_spec (addr b) l) s x -> rd (mem st') x = rd (mem st) x).
Proof.
  intros Hl Hsp Heq Hb.
  destruct (release_facts ar st l s Hl Hsp pre b post Heq Hb) as (Hpre & _ & Hbs & Ha & _).
  destruct (release_coalesce ar st l s Hl Hsp pre b post Heq Hb) as (m2 & Hm2 & Hh & Hx).
  pose proof (release_prev ar st l s Hl Hsp pre b post Heq Hb m2 Hh Hx) as Hprev.
  destruct (ledger_read _ _ _ _ _ _ Hl Heq) as [_ Hfr].
  assert (Hba : aligned8 (addr b))
    by (rewrite Heq, Forall_app, Forall_cons in Ha; tauto).
  assert (Hsa : split_at (addr b) l = (pre, b :: post)) by (rewrite Heq; by apply split_at_mid).
  unfold free_spec, simple_free, free_with. rewrite Hsa, Hb.
  destruct Hba as [_ Hbu]. rewrite (wsub_small (addr b + HDR) HDR) by (unfold W, HDR in *; lia).
  replace (addr b + HDR - HDR) with (addr b) by lia.
  rewrite Hfr, Hb, Hm2, Hprev. cbn [Z.b2z Z.eqb negb].
  destruct pre as [|p pre0 _] using rev_ind; simpl List.last.
  - unfold GET_FREE. rewrite Hx by done. rewrite (lg_sentinel _ _ _ Hl).
    rewrite hdr_word_free by apply (ledger_first_aligned _ _ _ Hl). simpl.
    destruct (release_nomerge ar st l s Hl Hsp [] b post Heq Hb m2 (current st) Hh Hx I)
      as [Hnew Hfr2].
    eexists. split_and!; [reflexivity|done|done|done].
  - unfold addrs. rewrite map_app. change (map addr [p]) with [addr p].
    rewrite last_last, last_snoc. fold (addrs pre0).
    pose proof (ledger_read _ _ _ pre0 p (b :: post) Hl
                  ltac:(rewrite Heq, <- app_assoc; done)) as [_ Hfp].
    unfold GET_FREE in Hfp |- *. rewrite Hx by (intros Hpb; apply Hpre; rewrite <- Hpb; unfold addrs; rewrite map_app; set_solver).
    rewrite Hfp. destruct (bfree p) eqn:Hp; simpl.
    + destruct (release_merge ar st l s Hl Hsp (pre0 ++ [p]) b post Heq Hb pre0 p m2 (current st)
                  eq_refl Hp Hh Hx) as (m4 & Hm4 & Hnew & Hfr2).
      rewrite Hm4. eexists. split_and!; [reflexivity|done|done|done].
    + destruct (release_nomerge ar st l s Hl Hsp (pre0 ++ [p]) b post Heq Hb m2 (current st) Hh Hx
                  ltac:(rewrite last_snoc; simpl; auto)) as [Hnew Hfr2].
      eexists. split_and!; [reflexivity|done|done|done].
Qed.

(** C13: Releasing a block that is already free changes nothing (the
    double-free guard of line 161). *)
Theorem simple_free_double ar st l s pre b post :
  ledger st l s -> l = pre ++ b :: post -> bfree b = true ->
  simple_free ar st (addr b + HDR) = Some st.
Proof.
  intros Hl Heq Hb. destruct (ledger_read _ _ _ _ _ _ Hl Heq) as [_ Hf].
  destruct (ledger_aligned _ _ _ Hl) as [Ha _].
  assert (aligned8 (addr b)) as [_ Hu] by (rewrite Heq, Forall_app, Forall_cons in Ha; tauto).
  unfold simple_free, free_with. rewrite (wsub_small (addr b + HDR) HDR) by (unfold W, HDR in *; lia).
  replace (addr b + HDR - HDR) with (addr b) by lia. rewrite Hf, Hb. done.
Qed.

(** ** What release does to the list *)

Lemma sized_drop_free post s b n :
  (b, n) ∈ sized post s -> bfree b = false -> (b, n) ∈ sized (drop_free post) s.
Proof.
  induction post as [|x r IH]; simpl; [done|]. intros Hin Hb.
  destruct (bfree x) eqn:Hx; [|done].
  apply elem_of_cons in Hin as [[= -> _] | Hin]; [congruence|auto].
Qed.

Lemma sized_snoc pre p x : sized (pre ++ [p]) x = sized pre (addr p) ++ [(p, x)].
Proof. rewrite sized_app. done. Qed.

(** Releasing a block keeps every other used block, with its extent. *)
Lemma free_spec_keeps_used h l s b n :
  (b, n) ∈ sized l s -> bfree b = false -> addr b <> h ->
  (b, n) ∈ sized (free_spec h l) s.
Proof.
  intros Hin Hb Hne. unfold free_spec. pose proof (split_at_app h l) as Hl.
  pose proof (split_at_head h l) as Hh.
  destruct (split_at h l) as [pre [|b0 post]]; simpl in Hl, Hh; [done|].
  specialize (Hh pre b0 post eq_refl).
  destruct (bfree b0) eqn:Hb0; [done|].
  rewrite Hl, sized_app in Hin. simpl in Hin.
  apply elem_of_app in Hin as [Hin | Hin].
  - destruct pre as [|p pre0 _] using rev_ind; [set_solver|].
    rewrite last_snoc, sized_snoc in *. apply elem_of_app in Hin as [Hin | Hin].
    + destruct (bfree p); rewrite <- app_assoc, sized_app; simpl; apply elem_of_app; by left.
    + apply list_elem_of_singleton in Hin as [= -> ->].
      rewrite Hb, sized_app, sized_snoc. simpl next_addr. rewrite Hh.
      apply elem_of_app. left. apply elem_of_app. right. by apply list_elem_of_singleton.
  - apply elem_of_cons in Hin as [[= -> ->] | Hin]; [congruence|].
    pose proof (sized_drop_free post s b n Hin Hb) as Hd.
    destruct (last pre) as [p|]; [destruct (bfree p)|]; rewrite ?sized_app; simpl;
      rewrite ?elem_of_app, ?elem_of_cons; auto.
Qed.

(** [simple_free] never moves [first]. *)
Lemma simple_free_first ar st ptr st' :
  simple_free ar st ptr = Some st' -> first st' = first st.
Proof. unfold simple_free, free_with. repeat case_match; intros; simplify_eq; done. Qed.


(** C2: Refinement of [simple_free]. Releasing the payload of a used block
    of a state that satisfies the ledger invariant terminates and does what
    [free_spec] says: the block becomes free, absorbing the free blocks
    after it, and a free predecessor absorbs it. The ledger invariant holds
    for the new list, which still spans the arena; every other used block
    keeps its extent and no byte of a remaining live payload changes; and
    [current] is left where it was. *)
Theorem simple_free_refines ar st l s pre b post :
  ledger st l s -> spans ar l s -> l = pre ++ b :: post -> bfree b = false ->
  exists st', simple_free ar st (addr b + HDR) = Some st' /\
    current st' = current st /\ ledger st' (free_spec (addr b) l) s /\
    spans ar (free_spec (addr b) l) s /\
    (forall b' n, (b', n) ∈ sized l s -> bfree b' = false -> addr b' <> addr b ->
       (b', n) ∈ sized (free_spec (addr b) l) s) /\
    (forall x, live_at (free_spec (addr b) l) s x -> rd (mem st') x = rd (mem st) x).
Proof.
  intros Hl Hsp Heq Hb.
  destruct (simple_free_spec ar st l s pre b post Hl Hsp Heq Hb) as (st' & Hf & Hc & Hl' & Hfr).
  exists st'. split_and!; try done.
  - apply (spans_transfer ar st st' l _ s Hl Hl'); [by eapply simple_free_first|done].
  - intros. by apply free_spec_keeps_used.
Qed.

(** ** When the backward walk never comes back *)

(** The result of forward coalescing does not depend on the fuel, once
    there is enough. *)
Lemma coalesce_forward_det f f' m b x y :
  coalesce_forward f m b = Some x -> coalesce_forward f' m b = Some y -> x = y.
Proof.
  revert f' m. induction f as [|f IH]; intros [|f'] m; simpl; try discriminate.
  case_match; [congruence|]. apply IH.
Qed.

(** The headers [ns] are closed under [GET_NEXT] and none of them points
    to [block] (a check that evaluates). *)
Definition closed_avoiding (m : gmap Z Z) (block : Z) (ns : list Z) : bool :=
  forallb (fun x => negb (GET_NEXT m x =? block) && existsb (Z.eqb (GET_NEXT m x)) ns) ns.

(** From a header of such a set, the walk of lines 179-181 goes round for
    ever. *)
Lemma find_prev_none fuel m block prev ns :
  existsb (Z.eqb prev) ns = true -> closed_avoiding m block ns = true ->
  find_prev fuel m block prev = None.
Proof.
  unfold closed_avoiding. rewrite forallb_forall. intros Hp Hns. revert prev Hp.
  induction fuel as [|f IH]; intros prev Hp; simpl; [done|].
  apply existsb_exists in Hp as (x & Hx & ->%Z.eqb_eq).
  apply Hns, andb_true_iff in Hx as [Hne Hin]. apply negb_true_iff in Hne. rewrite Hne. auto.
Qed.

(** If, after the release of [ptr] is marked and coalesced forward, the
    headers reachable from the block never point back to it, the release
    does not return, whatever the fuel. *)
Lemma free_with_loops fuel f0 st ptr m2 ns :
  GET_FREE (mem st) (ptr ⊟ HDR) = 0 ->
  coalesce_forward f0 (SET_FREE (mem st) (ptr ⊟ HDR) 1) (ptr ⊟ HDR) = Some m2 ->
  existsb (Z.eqb (ptr ⊟ HDR)) ns = true -> closed_avoiding m2 (ptr ⊟ HDR) ns = true ->
  free_with fuel st ptr = None.
Proof.
  intros Hf Hc Hin Hns. unfold free_with. rewrite Hf. simpl.
  destruct (coalesce_forward fuel _ _) as [m2'|] eqn:Hc'; [|done].
  rewrite <- (coalesce_forward_det _ _ _ _ _ _ Hc Hc').
  by rewrite (find_prev_none fuel m2 _ _ ns).
Qed.

(** ** Which headers a release keeps *)

Lemma split_at_app_in c A R :
  c ∈ addrs A -> split_at c (A ++ R) = ((split_at c A).1, (split_at c A).2 ++ R).
Proof.
  induction A as [|b A IH]; simpl; [set_solver|]. intros Hin.
  destruct (Z.eqb_spec (addr b) c) as [_ | Hne]; [done|].
  rewrite IH by set_solver. by destruct (split_at c A).
Qed.

Lemma split_at_app_notin c A R :
  c ∉ addrs A -> split_at c (A ++ R) = (A ++ (split_at c R).1, (split_at c R).2).
Proof.
  induction A as [|b A IH]; simpl; intros Hn; [by destruct (split_at c R)|].
  rewrite (proj2 (Z.eqb_neq _ _)) by set_solver. rewrite IH by set_solver. done.
Qed.

Lemma split_at_nil c l pre : split_at c l = (pre, []) -> c ∉ addrs l.
Proof.
  revert pre. induction l as [|b l IH]; intros pre; simpl; [set_solver|].
  destruct (Z.eqb_spec (addr b) c) as [_ | Hne]; [discriminate|].
  destruct (split_at c l) as [p q] eqn:E. intros [= _ ->]. specialize (IH p eq_refl). set_solver.
Qed.

(** The blocks before the released one are all kept. *)
Lemma free_spec_pre h l pre rest y :
  split_at h l = (pre, rest) -> y ∈ addrs pre -> y ∈ addrs (free_spec h l).
Proof.
  intros Hs Hy. unfold free_spec. rewrite Hs. pose proof (split_at_app h l) as Hl.
  rewrite Hs in Hl. simpl in Hl.
  destruct rest as [|b post]; [by rewrite Hl, app_nil_r|].
  destruct (bfree b); [rewrite Hl; unfold addrs; rewrite map_app; set_solver|].
  destruct (last pre) as [p|] eqn:E; [destruct (bfree p)|].
  - unfold addrs; rewrite map_app. set_solver.
  - unfold addrs; rewrite map_app. set_solver.
  - apply last_None in E. subst pre. unfold addrs in Hy. simpl in Hy. set_solver.
Qed.

Lemma drop_free_used_tail A b R :
  bfree b = false -> exists D, drop_free (A ++ b :: R) = D ++ b :: R.
Proof.
  intros Hb. induction A as [|a A IH]; simpl.
  - rewrite Hb. by exists [].
  - destruct (bfree a); [done|]. by exists (a :: A).
Qed.

(** A header that follows a used block other than the released one is still
    a header after the release. *)
Lemma free_spec_keeps_after_used h A b x B :
  bfree b = false -> addr b <> h -> addr x ∈ addrs (free_spec h (A ++ b :: x :: B)).
Proof.
  intros Hb Hbh. destruct (decide (h ∈ addrs A)) as [HA | HA].
  - unfold free_spec. rewrite split_at_app_in by done.
    pose proof (split_at_app h A) as HAe.
    destruct (split_at h A) as [A1 [|b0 A2]] eqn:Es; simpl in *.
    + by apply split_at_nil in Es.
    + rewrite HAe. destruct (bfree b0); [unfold addrs; rewrite !map_app; simpl; set_solver|].
      destruct (drop_free_used_tail A2 b (x :: B) Hb) as [D ->].
      destruct (last A1) as [p|]; [destruct (bfree p)|]; unfold addrs; rewrite ?map_app;
        simpl; set_solver.
  - destruct (Z.eqb_spec (addr x) h) as [Hx | Hx].
    + unfold free_spec. replace (A ++ b :: x :: B) with ((A ++ [b]) ++ x :: B)
        by (rewrite <- app_assoc; done).
      rewrite split_at_app_notin by (unfold addrs; rewrite map_app; set_solver).
      cbn [split_at fst snd]. rewrite Hx, Z.eqb_refl. cbn [fst snd].
      destruct (bfree x); [unfold addrs; rewrite !map_app; simpl; set_solver|].
      rewrite app_nil_r, last_snoc, Hb. unfold addrs; rewrite !map_app; simpl. set_solver.
    + apply (free_spec_pre h _ (A ++ b :: x :: (split_at h B).1) (split_at h B).2).
      * rewrite split_at_app_notin by done. simpl.
        rewrite (proj2 (Z.eqb_neq _ _) Hbh), (proj2 (Z.eqb_neq _ _) Hx).
        by destruct (split_at h B).
      * unfold addrs. rewrite map_app. simpl. set_solver.
Qed.
