(* ===== verification/Allocator.v ===== *)
(** * Allocator: sequences of calls and the states they reach

    The invariant [mm_inv] of an initialised allocator (the ledger, the
    cursor on a header, the ledger spanning the arena), its preservation by
    [simple_malloc] (first call included) and by [simple_free] when the
    cursor survives the release, the states reachable that way as an
    inductive step relation, and the disjointness of the blocks in every
    such state. *)

From Stdlib Require Import ZArith Lia.
From stdpp Require Import base list gmap.
From S2P Require Import Prelude Machine Ledger SimpleInit NextFit Malloc Free.

Open Scope Z_scope.
Open Scope mm_scope.

(** ** The invariant of an initialised allocator *)

Definition mm_inv (ar : arena) (st : mm_state) (l : list block) (s : Z) : Prop :=
  ledger st l s /\ cursor_ok st l s /\ spans ar l s.

#[export] Instance mm_inv_dec ar st l s : Decision (mm_inv ar st l s).
Proof. unfold mm_inv. apply _. Defined.

(** The payload of a used block of the ledger. *)
Definition allocated (ar : arena) (st : mm_state) (ptr : Z) : Prop :=
  exists l s pre b post, mm_inv ar st l s /\ l = pre ++ b :: post /\
    bfree b = false /\ ptr = addr b + HDR.

(** Releasing [ptr] keeps the cursor on a header: [current] is not one of
    the headers that the coalescing of the release absorbs. *)
Definition keeps_cursor (ar : arena) (st : mm_state) (ptr : Z) : Prop :=
  forall l s, mm_inv ar st l s -> current st = s \/ current st ∈ addrs (free_spec (ptr - HDR) l).

(** Every two blocks of a list are disjoint: a block ends, at the header
    that follows it, before the other begins. *)
Definition blocks_disjoint (l : list block) (s : Z) : Prop :=
  forall b1 n1 b2 n2, (b1, n1) ∈ sized l s -> (b2, n2) ∈ sized l s ->
    addr b1 <> addr b2 -> n1 <= addr b2 \/ n2 <= addr b1.

(** ** The states reachable from an uninitialised allocator *)

Inductive reachable (ar : arena) : mm_state -> Prop :=
| reach_start st :
    first st = NULL -> reachable ar st
| reach_malloc st size st' p :
    reachable ar st -> 0 <= size <= W - 8 ->
    simple_malloc ar st size = Some (st', p) -> reachable ar st'
| reach_free st ptr st' :
    reachable ar st -> allocated ar st ptr -> keeps_cursor ar st ptr ->
    simple_free ar st ptr = Some st' -> reachable ar st'.

(** ** Preservation *)

Lemma malloc_search_inv ar st l s size st' p :
  mm_inv ar st l s -> 0 <= size <= W - 8 -> malloc_search ar st size = Some (st', p) ->
  exists l', mm_inv ar st' l' s.
Proof.
  intros (Hl & Hc & Hsp) Hs Hm.
  pose proof (malloc_search_refines ar st l s size Hl Hc Hsp Hs) as H.
  destruct (malloc_spec _ l s (current st)) as [[[l' p'] c]|] eqn:E.
  - destruct H as (st'' & Hm' & Hc' & Hl' & _). rewrite Hm in Hm'. injection Hm' as <- <-.
    exists l'. split_and!; [done| |].
    + unfold cursor_ok. rewrite Hc'. by eapply malloc_spec_cursor.
    + unfold malloc_search in Hm. apply search_first in Hm. exact (spans_transfer ar st st' l l' s Hl Hl' Hm Hsp).
  - rewrite Hm in H. injection H as -> ->. by exists l.
Qed.

Lemma simple_init_inv ar st :
  arena_wf ar -> arena_big ar -> first st = NULL ->
  mm_inv ar (simple_init ar st) [Block (aligned_memory_start ar) true] (aligned_memory_end ar - HDR).
Proof.
  intros Hw Hb H0. destruct (simple_init_establishes ar st Hw Hb H0) as (Hl & Hc & Hsp).
  split_and!; [done| |done]. right. rewrite Hc. by left.
Qed.

Lemma simple_malloc_inv ar st size st' p :
  arena_wf ar -> 0 <= size <= W - 8 ->
  (first st = NULL \/ exists l s, mm_inv ar st l s) ->
  simple_malloc ar st size = Some (st', p) ->
  first st' = NULL \/ exists l s, mm_inv ar st' l s.
Proof.
  intros Hw Hs [H0 | (l & s & Hi)] Hm.
  - destruct (decide (arena_big ar)) as [Hb | Hb].
    + pose proof (simple_init_inv ar st Hw Hb H0) as Hi. right.
      rewrite simple_malloc_uninit, simple_malloc_ready in Hm
        by first [done | eapply ledger_ready, (proj1 Hi)].
      destruct (malloc_search_inv _ _ _ _ _ _ _ Hi Hs Hm) as [l' ?]. eauto.
    + left. unfold simple_malloc in Hm.
      rewrite H0, (simple_init_too_small ar st Hw Hb H0) in Hm. injection Hm as <- _.
      by apply simple_init_too_small.
  - right. rewrite simple_malloc_ready in Hm by (eapply ledger_ready, (proj1 Hi)).
    destruct (malloc_search_inv _ _ _ _ _ _ _ Hi Hs Hm) as [l' ?]. eauto.
Qed.

Lemma simple_free_inv ar st ptr st' :
  allocated ar st ptr -> keeps_cursor ar st ptr -> simple_free ar st ptr = Some st' ->
  exists l s, mm_inv ar st' l s.
Proof.
  intros (l & s & pre & b & post & Hi & Heq & Hb & ->) Hk Hf.
  destruct Hi as (Hl & Hc & Hsp) eqn:Hi'.
  destruct (simple_free_spec ar st l s pre b post Hl Hsp Heq Hb) as (st'' & Hf' & Hc' & Hl' & _).
  rewrite Hf in Hf'. injection Hf' as <-.
  exists (free_spec (addr b) l), s. split_and!; [done| |].
  - unfold cursor_ok. rewrite Hc'. specialize (Hk l s Hi).
    by replace (addr b + HDR - HDR) with (addr b) in Hk by lia.
  - apply (spans_transfer ar st st' l _ s Hl Hl'); [by eapply simple_free_first|done].
Qed.

(** ** Disjointness *)

Lemma layout_disjoint l s : layout l s -> blocks_disjoint l s.
Proof.
  unfold blocks_disjoint. induction l as [|b r IH]; simpl; [set_solver|].
  intros (_ & _ & Hr) b1 n1 b2 n2 H1 H2 Hne.
  apply elem_of_cons in H1 as [[= -> ->] | H1]; apply elem_of_cons in H2 as [[= -> ->] | H2].
  - done.
  - left. by destruct (sized_layout r s b2 n2 Hr H2) as (_ & _ & ? & _).
  - right. by destruct (sized_layout r s b1 n1 Hr H1) as (_ & _ & ? & _).
  - by apply (IH Hr b1 n1 b2 n2).
Qed.

Lemma mm_inv_within ar st l s b n :
  mm_inv ar st l s -> (b, n) ∈ sized l s ->
  aligned_memory_start ar <= addr b /\ addr b + HDR + MIN_SIZE <= n /\
  n <= aligned_memory_end ar - HDR.
Proof.
  intros (Hl & _ & [Hn Hs]) Hin.
  destruct (sized_layout l s b n (lg_layout _ _ _ Hl) Hin) as (_ & ? & ? & ?). lia.
Qed.

(** C3: Safety of every reachable state. From an uninitialised allocator,
    any sequence of allocations of at most [W - 8] bytes and of releases of
    allocated payloads that leave the cursor on a header reaches only
    states that are still uninitialised or satisfy the invariant; in the
    latter, the blocks lie inside the rounded arena, each with room for a
    header and [MIN_SIZE] bytes, and no two of them overlap. *)
Theorem reachable_safe ar st :
  arena_wf ar -> reachable ar st ->
  first st = NULL \/
  exists l s, mm_inv ar st l s /\ blocks_disjoint l s /\
    (forall b n, (b, n) ∈ sized l s ->
       aligned_memory_start ar <= addr b /\ addr b + HDR + MIN_SIZE <= n /\
       n <= aligned_memory_end ar - HDR).
Proof.
  intros Hw Hr.
  assert (first st = NULL \/ exists l s, mm_inv ar st l s) as [H0 | (l & s & Hi)].
  { induction Hr as [st H0 | st size st' p _ IH Hs Hm | st ptr st' _ _ Ha Hk Hf].
    - by left.
    - by eapply simple_malloc_inv.
    - right. by eapply simple_free_inv. }
  - by left.
  - right. exists l, s. split_and!; [done| |].
    + apply layout_disjoint, (lg_layout _ _ _ (proj1 Hi)).
    + intros b n. by apply (mm_inv_within ar st l s).
Qed.

(** ** The first call *)

(** C11: The first call of [simple_malloc], on a well-formed arena large
    enough for one block and the sentinel, initialises the ledger and, if
    the rounded request fits in the arena's single free block, returns the
    payload of that block at the rounded start; the invariant then holds. *)
Theorem simple_malloc_first_call ar st size :
  arena_wf ar -> arena_big ar -> first st = NULL -> 0 <= size <= W - 8 ->
  request_size size <= aligned_memory_end ar - aligned_memory_start ar - 2 * HDR ->
  exists st', simple_malloc ar st size = Some (st', aligned_memory_start ar + HDR) /\
    exists l', mm_inv ar st' l' (aligned_memory_end ar - HDR).
Proof.
  intros Hw Hb H0 Hs Hfit. pose proof (simple_init_inv ar st Hw Hb H0) as Hi.
  rewrite simple_malloc_uninit, simple_malloc_ready
    by first [done | eapply ledger_ready, (proj1 Hi)].
  destruct (malloc_spec_finds (request_size size) [Block (aligned_memory_start ar) true]
    (aligned_memory_end ar - HDR) (current (simple_init ar st)) []
    (Block (aligned_memory_start ar) true) (aligned_memory_end ar - HDR) [])
    as (l' & c' & E).
  { destruct Hi as (_ & Hc & _). destruct Hc as [Hc | Hc].
    - exfalso. destruct (simple_init_establishes ar st Hw Hb H0) as (_ & Hc' & _).
      unfold arena_big in Hb. rewrite Hc' in Hc. mlia.
    - apply list_elem_of_singleton in Hc. unfold scan_order. rewrite Hc. simpl.
      by rewrite Z.eqb_refl. }
  { constructor. }
  { done. }
  { unfold bsize. simpl. lia. }
  pose proof (malloc_search_refines ar _ _ _ size (proj1 Hi) (proj1 (proj2 Hi))
                (proj2 (proj2 Hi)) Hs) as H.
  rewrite E in H. destruct H as (st' & Hm & _). exists st'. split; [done|].
  by eapply malloc_search_inv.
Qed.

(** ** Two allocations in a row *)

Lemma sized_addr_unique l s b1 n1 b2 n2 :
  layout l s -> (b1, n1) ∈ sized l s -> (b2, n2) ∈ sized l s -> addr b1 = addr b2 ->
  b1 = b2 /\ n1 = n2.
Proof.
  induction l as [|b r IH]; simpl; [set_solver|].
  intros (_ & Hb & Hr) H1 H2 Heq.
  apply elem_of_cons in H1 as [[= -> ->] | H1]; apply elem_of_cons in H2 as [[= -> ->] | H2].
  - done.
  - destruct (sized_layout r s b2 n2 Hr H2) as (_ & _ & ? & _). mlia.
  - destruct (sized_layout r s b1 n1 Hr H1) as (_ & _ & ? & _). mlia.
  - by apply IH.
Qed.

(** What a successful allocation gives, on a state with the invariant. *)
Lemma simple_malloc_post ar st l s size st' p :
  mm_inv ar st l s -> 0 <= size <= W - 8 ->
  simple_malloc ar st size = Some (st', p) -> p <> NULL ->
  exists l' n n', mm_inv ar st' l' s /\
    (Block (p - HDR) true, n) ∈ sized l s /\
    (Block (p - HDR) false, n') ∈ sized l' s /\ size <= n' - p /\
    (forall b k, (b, k) ∈ sized l s -> bfree b = false -> (b, k) ∈ sized l' s).
Proof.
  intros Hi Hs Hm Hp. destruct Hi as (Hl & Hc & Hsp) eqn:Hi'.
  pose proof (malloc_search_refines ar st l s size Hl Hc Hsp Hs) as H.
  rewrite simple_malloc_ready in Hm by (by eapply ledger_ready).
  pose proof (request_size_spec size Hs) as (_ & _ & Hreq & _).
  destruct (malloc_spec _ l s (current st)) as [[[l' p'] c]|] eqn:E.
  - destruct H as (st'' & Hm' & Hc' & Hl' & _). rewrite Hm in Hm'. injection Hm' as <- <-.
    destruct (malloc_spec_block _ _ _ _ _ _ _ E) as [(n & Hin & _) (n' & Hin' & Hfit)].
    exists l', n, n'. split_and!; try done.
    + split_and!; [done| |].
      * unfold cursor_ok. rewrite Hc'. by eapply malloc_spec_cursor.
      * unfold malloc_search in Hm. apply search_first in Hm. exact (spans_transfer ar st st' l l' s Hl Hl' Hm Hsp).
    + unfold bsize in Hfit. simpl in Hfit. lia.
    + by apply (malloc_spec_keeps_used _ _ _ _ _ _ _ E).
  - rewrite Hm in H. by injection H as _ ->.
Qed.

(** C9: Two allocations in a row on a state with the invariant, both
    non-null, return byte ranges [[p1, p1 + n1)] and [[p2, p2 + n2)] that
    do not overlap: the assertion of [test_simple_unique_addresses]
    ([check_mm.c] line 62), for any sizes. *)
Theorem two_allocations_disjoint ar st l s n1 n2 st1 p1 st2 p2 :
  mm_inv ar st l s -> 0 <= n1 <= W - 8 -> 0 <= n2 <= W - 8 ->
  simple_malloc ar st n1 = Some (st1, p1) -> simple_malloc ar st1 n2 = Some (st2, p2) ->
  p1 <> NULL -> p2 <> NULL ->
  p1 + n1 <= p2 \/ p2 + n2 <= p1.
Proof.
  intros Hi Hn1 Hn2 Hm1 Hm2 Hp1 Hp2.
  destruct (simple_malloc_post _ _ _ _ _ _ _ Hi Hn1 Hm1 Hp1) as (l1 & _ & N1 & Hi1 & _ & Hb1 & Hf1 & _).
  destruct (simple_malloc_post _ _ _ _ _ _ _ Hi1 Hn2 Hm2 Hp2)
    as (l2 & N & N2 & Hi2 & Hb2 & Hb2' & Hf2 & Hkeep).
  pose proof (Hkeep _ _ Hb1 eq_refl) as Hb1'.
  destruct (decide (p1 = p2)) as [<- | Hne].
  - destruct (sized_addr_unique l1 s _ _ _ _ (lg_layout _ _ _ (proj1 Hi1)) Hb1 Hb2 eq_refl)
      as [[=] _].
  - assert (p1 - HDR <> p2 - HDR) as Hne' by lia.
    destruct (layout_disjoint l2 s (lg_layout _ _ _ (proj1 Hi2)) _ _ _ _ Hb1' Hb2' Hne')
      as [H | H]; simpl in *; mlia.
Qed.

(** ** The cursor after an allocation *)

(** Right after an allocation, the cursor follows the block just carved,
    which is used: releasing any other block keeps it on a header. *)
Lemma malloc_spec_release_safe a l s c l' p c' h :
  malloc_spec a l s c = Some (l', p, c') -> h <> p - HDR ->
  c' = s \/ c' ∈ addrs (free_spec h l').
Proof.
  intros E Hh.
  destruct (malloc_spec_next_fit _ _ _ _ _ _ _ E)
    as (xs & b & n & ys & bs & L & R & _ & _ & _ & _ & -> & Hc & _ & Hn & ->).
  assert (addr b <> h) by lia.
  unfold carve_blocks in Hc. destruct (_ <=? _); injection Hc as <- <-.
  - right. exact (free_spec_keeps_after_used h L (Block (addr b) false)
                      (Block (addr b + HDR + a) true) R eq_refl H).
  - destruct R as [|x R']; simpl in Hn; [by left|].
    right. rewrite <- Hn.
    exact (free_spec_keeps_after_used h L (Block (addr b) false) x R' eq_refl H).
Qed.

Lemma sized_live l s h N a :
  (Block h false, N) ∈ sized l s -> h + HDR <= a < N -> live_at l s a.
Proof.
  induction l as [|b r IH]; simpl; [set_solver|]. intros Hin Ha.
  apply elem_of_cons in Hin as [[= <- ->] | Hin]; [left; simpl; split; [done|lia]|].
  right. by apply IH.
Qed.

(** The invariant determines the list and the sentinel. *)
Lemma mm_inv_unique ar st l1 s1 l2 s2 :
  mm_inv ar st l1 s1 -> mm_inv ar st l2 s2 -> l1 = l2 /\ s1 = s2.
Proof.
  intros (H1 & _ & _ & Hs1) (H2 & _ & _ & Hs2). assert (s1 = s2) as <- by lia.
  split; [by eapply ledger_unique|done].
Qed.

(** ** Where the cursor survives a release *)

Lemma free_spec_mid pre b post :
  addr b ∉ addrs pre -> bfree b = false ->
  free_spec (addr b) (pre ++ b :: post) =
  match last pre with
  | Some p => if bfree p then pre ++ drop_free post else pre ++ Block (addr b) true :: drop_free post
  | None => Block (addr b) true :: drop_free post
  end.
Proof. intros Hn Hb. unfold free_spec. rewrite split_at_mid by done. by rewrite Hb. Qed.

(** Under [nadj] the free run after a used block has at most one block. *)
Lemma drop_free_after_used b post :
  nadj (b :: post) -> bfree b = false ->
  drop_free post = match post with x :: r => if bfree x then r else post | [] => [] end.
Proof.
  intros Hn Hb. destruct post as [|x [|y r]]; simpl in *; [done| |].
  - by destruct (bfree x).
  - destruct (bfree x) eqn:Ex; [|done]. destruct Hn as [_ [[Hx | Hy] _]]; [congruence|].
    by rewrite Hy.
Qed.

(** The headers a release removes: the free block after the released one,
    and the released one itself when its predecessor is free. *)
Lemma free_spec_cursor l s pre b post c :
  layout l s -> nadj l -> l = pre ++ b :: post -> bfree b = false -> (c = s \/ c ∈ addrs l) ->
  (c = s \/ c ∈ addrs (free_spec (addr b) l)) <->
  ~ (exists x, head post = Some x /\ bfree x = true /\ c = addr x) /\
  ~ (exists y, last pre = Some y /\ bfree y = true /\ c = addr b).
Proof.
  intros Hy Hn -> Hb Hc.
  pose proof (layout_NoDup _ _ Hy) as Hnd. pose proof (layout_below _ _ Hy) as Hbl.
  assert (Hs : s ∉ addrs (pre ++ b :: post)).
  { unfold addrs. intros (x & -> & Hx)%list_elem_of_fmap. rewrite Forall_forall in Hbl.
    specialize (Hbl x Hx). mlia. }
  apply nadj_app in Hn as (_ & Hn & _).
  unfold addrs in *. rewrite map_app in Hnd, Hs, Hc. simpl in Hnd, Hs, Hc.
  apply NoDup_app in Hnd as (_ & Hpre & Hnd). apply NoDup_cons in Hnd as [Hbp Hpost].
  assert (Hbpre : addr b ∉ map addr pre) by (intros Hin; apply (Hpre _ Hin); left).
  rewrite free_spec_mid by (unfold addrs; assumption).
  rewrite (drop_free_after_used b post Hn Hb). clear Hy Hbl Hn.
  destruct post as [|x r]; [|destruct (bfree x) eqn:Ex];
    (destruct (last pre) as [y|] eqn:Ey; [destruct (bfree y) eqn:Eyf|apply last_None in Ey; subst pre]);
    unfold addrs; rewrite ?map_app; simpl in *.
  all: try (assert (Hxpre : addr x ∉ map addr pre) by (intros Hin; apply (Hpre _ Hin); right; left)).
  all: try (apply NoDup_cons in Hpost as [Hxr _]).
  all: rewrite ?elem_of_app, ?elem_of_cons, ?elem_of_nil in *.
  all: split; [intros Hc'; split; intros (z & Hz & Hf & ->);
               (discriminate || (injection Hz as <-; intuition congruence))|].
  all: intros [H1 H2].
  all: try (destruct (decide (c = addr x)) as [->|?]; [exfalso; apply H1; by eexists|]);
       try (destruct (decide (c = addr b)) as [->|?]; [exfalso; apply H2; by eexists|]);
       intuition congruence.
Qed.

(** C22: Exactly when [simple_free] keeps the invariant. On a state with
    the invariant, releasing the used block [b] returns a state whose
    memory holds the list [free_spec] gives, and that state satisfies the
    invariant (ledger, span and cursor on a header) if and only if the
    cursor is neither the free block right after [b] (absorbed by the
    forward merge, lines 172-175) nor [b] itself when the block before [b]
    is free (absorbed by the backward merge, lines 182-184): [simple_free]
    never moves [current]. *)
Theorem simple_free_inv_iff ar st l s pre b post :
  mm_inv ar st l s -> l = pre ++ b :: post -> bfree b = false ->
  exists st', simple_free ar st (addr b + HDR) = Some st' /\ ledger st' (free_spec (addr b) l) s /\
    (mm_inv ar st' (free_spec (addr b) l) s <->
     ~ (exists x, head post = Some x /\ bfree x = true /\ current st = addr x) /\
     ~ (exists y, last pre = Some y /\ bfree y = true /\ current st = addr b)).
Proof.
  intros Hi Heq Hb. pose proof Hi as (Hl & Hc & Hsp).
  destruct (simple_free_spec ar st l s pre b post Hl Hsp Heq Hb) as (st' & Hf & Hc' & Hl' & _).
  exists st'. split_and!; [done|done|].
  rewrite <- (free_spec_cursor l s pre b post (current st)); try done;
    [|apply (lg_layout _ _ _ Hl)|apply (lg_nadj _ _ _ Hl)].
  unfold mm_inv, cursor_ok. rewrite Hc'.
  pose proof (spans_transfer ar st st' l _ s Hl Hl' (simple_free_first _ _ _ _ Hf) Hsp).
  tauto.
Qed.
