(* ===== verification/Coalesce.v ===== *)
(** * Coalesce: what the merging of free blocks guarantees

    [simple_free] merges a released block with the free blocks around it
    (lines 172-175, 182-184 and 187-190 of [src/group_06_assign_3/mm.c]),
    so that no two neighbouring blocks are free ([nadj]). The list of
    blocks a release leaves is the coalescing [coalesced] of the list
    with the released block marked free, a normal form in which a used
    block is a barrier. Three consequences are proved on the code: two
    releases give the same list of blocks, the same cursor and the same
    live contents in either order; releasing every live block, in any
    order ([release_all], a client loop of the specification), leaves a
    single free block spanning the arena, so releases leave no
    fragmentation behind; and releasing the block just allocated restores
    the list of blocks, with the cursor on a header exactly when the
    allocation did not split a block. *)

From Stdlib Require Import ZArith Lia.
From Stdlib Require Permutation.
From stdpp Require Import base list gmap.
From S2P Require Import Prelude Machine Ledger SimpleInit NextFit Malloc Free Allocator.

Open Scope Z_scope.
Open Scope mm_scope.

(** ** Fragmentation *)

(** A list without neighbouring free blocks whose blocks are all free has
    one block at most. *)
Lemma nadj_all_free l : nadj l -> Forall (fun b => bfree b = true) l -> (length l <= 1)%nat.
Proof.
  destruct l as [|b [|c l]]; simpl; [lia|lia|].
  intros [[Hb | Hc] _] (Hb' & Hc')%Forall_cons_iff; [congruence|].
  apply Forall_cons_iff in Hc' as [Hc' _]. congruence.
Qed.

(** A ledger spanning the arena with every block free: one free block
    at the rounded start. *)
Lemma ledger_all_free ar st l s :
  ledger st l s -> spans ar l s -> Forall (fun b => bfree b = true) l ->
  l = [Block (aligned_memory_start ar) true].
Proof.
  intros Hl [Hf _] Hfree. pose proof (nadj_all_free l (lg_nadj _ _ _ Hl) Hfree).
  destruct l as [|[a f] [|c l]]; [by destruct (lg_nonempty _ _ _ Hl)| |simpl in *; lia].
  apply Forall_cons_iff in Hfree as [Hfree _]. simpl in *. by subst.
Qed.

(** ** The coalescing normal form *)

(** The last block of a list is free. *)
Definition tailfree (x : list block) : bool :=
  match last x with Some p => bfree p | None => false end.

(** The first block of [y] is dropped when it is free and [f] holds. *)
Definition seam (f : bool) (y : list block) : list block :=
  match y with
  | c :: y' => if f && bfree c then y' else y
  | [] => []
  end.

(** Appending [y] to [x]: when the last block of [x] and the first of [y]
    are both free, the first of [y] is absorbed. *)
Definition join (x y : list block) : list block := x ++ seam (tailfree x) y.

(** Every run of free blocks merged into its first block. *)
Fixpoint coalesced (l : list block) : list block :=
  match l with
  | [] => []
  | b :: r => join [b] (coalesced r)
  end.

Lemma tailfree_app x y : y <> [] -> tailfree (x ++ y) = tailfree y.
Proof.
  intros Hy. unfold tailfree. rewrite last_app.
  destruct (last y) eqn:E; [done|by apply last_None in E].
Qed.

Lemma seam_app f y w : y <> [] -> seam f (y ++ w) = seam f y ++ w.
Proof. destruct y as [|c y]; [done|]. intros _. simpl. by destruct (f && bfree c). Qed.

Lemma tailfree_join x y : y <> [] -> tailfree (join x y) = tailfree y.
Proof.
  unfold join. destruct y as [|c y]; [done|]. intros _. cbn [seam].
  destruct (tailfree x && bfree c) eqn:E; [|by apply tailfree_app].
  destruct y as [|d y].
  - rewrite app_nil_r. apply andb_true_iff in E as [E1 E2]. rewrite E1. unfold tailfree. simpl. by rewrite E2.
  - rewrite !tailfree_app by done. done.
Qed.

Lemma join_nil_l y : join [] y = y.
Proof. by destruct y. Qed.

Lemma join_nil_r x : join x [] = x.
Proof. apply app_nil_r. Qed.

(** A used block at the head of [y] is a barrier. *)
Lemma join_used_r x c y : bfree c = false -> join x (c :: y) = x ++ c :: y.
Proof. intros Hc. unfold join, seam. by rewrite Hc, andb_false_r. Qed.

Lemma join_assoc x y z : join x (join y z) = join (join x y) z.
Proof.
  destruct (decide (y = [])) as [->|Hy]; [by rewrite join_nil_l, join_nil_r|].
  unfold join at 1 3. rewrite (tailfree_join x y Hy). unfold join.
  rewrite seam_app by done. by rewrite app_assoc.
Qed.

Lemma coalesced_cons b r : coalesced (b :: r) = b :: seam (bfree b) (coalesced r).
Proof. done. Qed.

Lemma coalesced_app x y : coalesced (x ++ y) = join (coalesced x) (coalesced y).
Proof.
  induction x as [|b x IH]; [by rewrite join_nil_l|].
  rewrite <- app_comm_cons. cbn [coalesced]. by rewrite IH, join_assoc.
Qed.

(** The coalesced list has no two neighbouring free blocks. *)
Lemma nadj_coalesced l : nadj (coalesced l).
Proof.
  induction l as [|b l IH]; [done|]. rewrite coalesced_cons.
  destruct (coalesced l) as [|c r]; [done|]. cbn [seam].
  destruct (bfree b) eqn:Eb, (bfree c) eqn:Ec; cbn [andb]; try (split; [first [by left | by right]|done]).
  destruct r as [|d r]; [done|]. destruct IH as [[? | ?] ?]; [congruence|]. split; [by right|done].
Qed.

(** A list without neighbouring free blocks is its own normal form. *)
Lemma coalesced_nadj l : nadj l -> coalesced l = l.
Proof.
  induction l as [|b l IH]; [done|]. intros Hn. rewrite coalesced_cons.
  change (b :: l) with ([b] ++ l) in Hn. apply nadj_app in Hn as (_ & Hl & He).
  rewrite (IH Hl). destruct l as [|c r]; [done|]. simpl in He. cbn [seam].
  by destruct He as [-> | ->]; rewrite ?andb_false_r.
Qed.

Lemma coalesced_idem l : coalesced (coalesced l) = coalesced l.
Proof. apply coalesced_nadj, nadj_coalesced. Qed.

(** A used block splits the normal form. *)
Lemma coalesced_barrier x u y :
  bfree u = false -> coalesced (x ++ u :: y) = coalesced x ++ u :: coalesced y.
Proof.
  intros Hu. rewrite coalesced_app, coalesced_cons, Hu.
  rewrite join_used_r by done. f_equal. f_equal. by destruct (coalesced y).
Qed.

(** The first header is kept, and so is every byte of a used payload. *)
Lemma coalesced_next l s : next_addr (coalesced l) s = next_addr l s.
Proof. by destruct l. Qed.

Lemma live_at_coalesced l s x : live_at (coalesced l) s x <-> live_at l s x.
Proof.
  induction l as [|b l IH]; [done|]. rewrite coalesced_cons. cbn [live_at].
  rewrite <- IH, <- (coalesced_next l s).
  destruct (coalesced l) as [|c r]; [done|]. cbn [seam].
  destruct (bfree b) eqn:Eb, (bfree c) eqn:Ec; cbn [andb live_at next_addr]; try tauto.
  rewrite Ec. split; [intros [[? _] | H]; [congruence|auto]|intros [[? _] | [[? _] | H]]; [congruence..|auto]].
Qed.

(** Marking a block free removes its payload from the live bytes. *)
Lemma live_at_mark pre b post s x :
  live_at (pre ++ Block (addr b) true :: post) s x -> live_at (pre ++ b :: post) s x.
Proof. rewrite !live_at_app. cbn [live_at next_addr addr bfree]. intuition congruence. Qed.

(** ** A release in normal form *)

(** The list a release leaves is the normal form of the list with the
    released block marked free. *)
Lemma free_spec_coalesced pre b post :
  nadj (pre ++ b :: post) -> addr b ∉ addrs pre -> bfree b = false ->
  free_spec (addr b) (pre ++ b :: post) = coalesced (pre ++ Block (addr b) true :: post).
Proof.
  intros Hn Hpre Hb. rewrite free_spec_mid by done.
  apply nadj_app in Hn as (Hp & Hbp & _).
  rewrite (drop_free_after_used b post Hbp Hb).
  pose proof (proj1 (proj2 (proj1 (nadj_app [b] post) Hbp))) as Hpost.
  rewrite coalesced_app, coalesced_cons, (coalesced_nadj pre Hp), (coalesced_nadj post Hpost).
  unfold join, tailfree. cbn [bfree].
  destruct (last pre) as [p|] eqn:E; [destruct (bfree p)|apply last_None in E as ->];
    cbn [seam andb]; try done; by destruct post.
Qed.

Lemma coalesced_around x c y :
  coalesced (coalesced x ++ c :: coalesced y) = coalesced (x ++ c :: y).
Proof. by rewrite !coalesced_app, !coalesced_cons, !coalesced_idem. Qed.

(** The header of a block occurs once in the list. *)
Lemma layout_addr_notin l s pre b post :
  layout l s -> l = pre ++ b :: post -> addr b ∉ addrs pre.
Proof.
  intros Hy ->. pose proof (layout_NoDup _ _ Hy) as Hnd. unfold addrs in *.
  rewrite map_app in Hnd. apply NoDup_app in Hnd as (_ & Hd & _).
  intros Hin. apply (Hd _ Hin). cbn [map]. by left.
Qed.

(** One release on a state with the ledger, in normal form. *)
Lemma release_step ar st l s pre b post :
  ledger st l s -> spans ar l s -> l = pre ++ b :: post -> bfree b = false ->
  exists st', simple_free ar st (addr b + HDR) = Some st' /\ current st' = current st /\
    ledger st' (coalesced (pre ++ Block (addr b) true :: post)) s /\
    spans ar (coalesced (pre ++ Block (addr b) true :: post)) s /\
    (forall x, live_at (coalesced (pre ++ Block (addr b) true :: post)) s x ->
       rd (mem st') x = rd (mem st) x).
Proof.
  intros Hl Hsp Heq Hb.
  destruct (simple_free_spec ar st l s pre b post Hl Hsp Heq Hb) as (st' & Hf & Hc & Hl' & Hfr).
  pose proof (lg_nadj _ _ _ Hl) as Hn. rewrite Heq in Hn.
  pose proof (layout_addr_notin _ _ _ _ _ (lg_layout _ _ _ Hl) Heq) as Hnot.
  rewrite Heq, free_spec_coalesced in Hl', Hfr by done.
  exists st'. split_and!; try done.
  apply (spans_transfer ar st st' l _ s Hl Hl'); [by eapply simple_free_first|done].
Qed.

(** C27: Releases commute. On a state with the ledger spanning the arena,
    releasing two used blocks [u] (the earlier in address order) and [v]
    returns in either order, with the same list of blocks, the normal
    form of the list with both marked free, the cursor where it was, and
    every byte of the payloads still live unchanged: the two final states
    differ at most in words no header and no live payload occupies. *)
Theorem release_commute ar st l s pre u mid v post :
  ledger st l s -> spans ar l s -> l = pre ++ u :: mid ++ v :: post ->
  bfree u = false -> bfree v = false ->
  let l' := coalesced (pre ++ Block (addr u) true :: mid ++ Block (addr v) true :: post) in
  exists st1 st2,
    (simple_free ar st (addr u + HDR) ≫= fun st' => simple_free ar st' (addr v + HDR)) = Some st1 /\
    (simple_free ar st (addr v + HDR) ≫= fun st' => simple_free ar st' (addr u + HDR)) = Some st2 /\
    current st1 = current st /\ current st2 = current st /\
    ledger st1 l' s /\ ledger st2 l' s /\
    (forall x, live_at l' s x -> rd (mem st1) x = rd (mem st) x /\ rd (mem st2) x = rd (mem st) x).
Proof.
  intros Hl Hsp Heq Hu Hv; cbv zeta.
  (* [u] first, then [v] *)
  destruct (release_step ar st l s pre u (mid ++ v :: post) Hl Hsp Heq Hu)
    as (sa & Ha & Hca & Hla & Hspa & Hfa).
  rewrite app_comm_cons, app_assoc, coalesced_barrier in Hla, Hspa by done.
  destruct (release_step ar sa _ s _ v _ Hla Hspa eq_refl Hv) as (s1 & H1 & Hc1 & Hl1 & _ & Hf1).
  rewrite coalesced_around, <- app_assoc, <- app_comm_cons in Hl1, Hf1.
  (* [v] first, then [u] *)
  destruct (release_step ar st l s (pre ++ u :: mid) v post Hl Hsp
              ltac:(by rewrite Heq, <- app_assoc) Hv) as (sb & Hb & Hcb & Hlb & Hspb & Hfb).
  rewrite <- app_assoc, <- app_comm_cons, coalesced_barrier in Hlb, Hspb by done.
  destruct (release_step ar sb _ s _ u _ Hlb Hspb eq_refl Hu) as (s2 & H2 & Hc2 & Hl2 & _ & Hf2).
  rewrite coalesced_around in Hl2, Hf2.
  exists s1, s2. rewrite Ha, Hb. cbn. split_and!; try done; [congruence|congruence|].
  intros x Hx. split.
  - rewrite Hf1 by done. apply Hfa. rewrite app_comm_cons, app_assoc, live_at_coalesced.
    rewrite live_at_coalesced, app_comm_cons, app_assoc in Hx. by apply live_at_mark.
  - rewrite Hf2 by done. apply Hfb. rewrite <- app_assoc, <- app_comm_cons, live_at_coalesced.
    rewrite live_at_coalesced in Hx. by apply (live_at_mark pre u (mid ++ _ :: post)).
Qed.

(** ** Allocation followed by its release *)

(** A free block right after a free block vanishes in the normal form. *)
Lemma coalesced_free_pair x b r y :
  bfree b = true -> bfree r = true -> coalesced (x ++ b :: r :: y) = coalesced (x ++ b :: y).
Proof.
  intros Hb Hr. rewrite !coalesced_app, !(coalesced_cons b), coalesced_cons, Hb, Hr.
  by cbn [seam andb]; rewrite Hr.
Qed.

(** A bound on every block of a list bounds its headers. *)
Lemma addrs_Forall (P : Z -> Prop) l a : Forall (fun b => P (addr b)) l -> a ∈ map addr l -> P a.
Proof.
  intros H (x & <- & Hx)%list_elem_of_In%in_map_iff. rewrite Forall_forall in H.
  apply H. by apply list_elem_of_In.
Qed.

(** C29: Round trip of an allocation. On a state with the invariant,
    releasing the pointer [simple_malloc] has just returned gives back
    exactly the list of blocks before the allocation, and keeps every live
    byte of it; the cursor is left on a header if and only if the
    allocation did not split the block, that is when the list after the
    allocation has as many blocks as before. When it split, the cursor
    stays on the header of the remainder, which the release absorbs. *)
Theorem alloc_release_roundtrip ar st l s size st1 p :
  mm_inv ar st l s -> 0 <= size <= W - 8 -> simple_malloc ar st size = Some (st1, p) -> p <> NULL ->
  exists l1 st2, ledger st1 l1 s /\ simple_free ar st1 p = Some st2 /\ ledger st2 l s /\
    (forall x, live_at l s x -> rd (mem st2) x = rd (mem st) x) /\
    (cursor_ok st2 l s <-> length l1 = length l).
Proof.
  intros Hi Hs Hm Hp. pose proof Hi as (Hl & Hc & Hsp).
  rewrite simple_malloc_ready in Hm by (by eapply ledger_ready).
  pose proof (malloc_search_refines ar st l s size Hl Hc Hsp Hs) as H.
  destruct (malloc_spec (request_size size) l s (current st)) as [[[l1 p'] c']|] eqn:E;
    [|rewrite Hm in H; by injection H as _ ->].
  destruct H as (st1' & Hm' & Hc1 & Hl1 & Hfr1).
  assert (st1' = st1 /\ p' = p) as [-> ->] by (rewrite Hm in Hm'; by injection Hm' as -> ->).
  destruct (malloc_search_inv ar st l s size st1 p Hi Hs Hm) as (l'' & Hl'' & _ & Hsp1).
  rewrite <- (ledger_unique _ _ _ _ Hl1 Hl'') in Hsp1.
  destruct (malloc_spec_next_fit _ _ _ _ _ _ _ E)
    as (xs & [ab fb] & n & ys & bs & L & R & _ & _ & Hb & Hfit & -> & Hcarve & -> & Hn & ->).
  cbn in Hb. subst fb. pose proof (request_size_spec size Hs) as (_ & Hreq & _).
  pose proof (layout_split L (Block ab true) R s (lg_layout _ _ _ Hl)) as (HL & Hb & HR & Hns & _).
  cbn [addr] in *. exists (L ++ bs ++ R).
  unfold carve_blocks in Hcarve. destruct (_ <=? _) eqn:Esplit; injection Hcarve as <- <-.
  - destruct (release_step ar st1 _ s L (Block ab false) (Block (ab + HDR + request_size size) true :: R)
                Hl1 Hsp1 eq_refl eq_refl) as (st2 & Hf & Hc2 & Hl2 & _ & Hfr2).
    rewrite coalesced_free_pair, coalesced_nadj in Hl2, Hfr2 by first [done | apply (lg_nadj _ _ _ Hl)].
    exists st2. split_and!; [done|done|done| |].
    + intros x Hx. rewrite Hfr2, Hfr1 by done. done.
    + rewrite !length_app. cbn [length]. split; [|lia].
      apply Z.leb_le in Esplit. unfold bsize in Esplit. cbn [addr] in Esplit.
      unfold cursor_ok. rewrite Hc2, Hc1. unfold addrs. rewrite map_app. cbn [map addr].
      rewrite elem_of_app, elem_of_cons.
      intros [? | [Hx | [? | Hx]]];
        [mlia|apply (addrs_Forall (fun a => a + HDR + MIN_SIZE <= ab) _ _ HL) in Hx; mlia|mlia|apply (addrs_Forall (fun a => next_addr R s <= a) _ _ HR) in Hx; mlia].
  - destruct (release_step ar st1 _ s L (Block ab false) R Hl1 Hsp1 eq_refl eq_refl)
      as (st2 & Hf & Hc2 & Hl2 & _ & Hfr2).
    rewrite coalesced_nadj in Hl2, Hfr2 by apply (lg_nadj _ _ _ Hl).
    exists st2. split_and!; [done|done|done| |].
    + intros x Hx. rewrite Hfr2, Hfr1 by done. done.
    + rewrite !length_app. cbn [length]. split; [lia|intros _].
      unfold cursor_ok. rewrite Hc2, Hc1, <- Hn. destruct R as [|r R]; [by left|right].
      unfold addrs. rewrite map_app. apply elem_of_app. right. cbn [map next_addr]. by right; left.
Qed.

(** ** Releasing every live block *)

(** The payload pointers of the used blocks, in address order. *)
Definition used_ptrs (l : list block) : list Z :=
  (fun b => addr b + HDR) <$> filter (fun b => bfree b = false) l.

(** Release the pointers [ps] one after the other. *)
Fixpoint release_all (ar : arena) (st : mm_state) (ps : list Z) : option mm_state :=
  match ps with
  | [] => Some st
  | p :: ps' => st' ← simple_free ar st p; release_all ar st' ps'
  end.

Lemma filter_used_seam f y :
  filter (fun b => bfree b = false) (seam f y) = filter (fun b => bfree b = false) y.
Proof.
  destruct y as [|c y]; [done|]. cbn [seam].
  destruct (f && bfree c) eqn:E; [|done]. apply andb_true_iff in E as [_ Ec].
  rewrite filter_cons_False; [done|]. by rewrite Ec.
Qed.

(** Coalescing keeps the used blocks. *)
Lemma filter_used_coalesced l :
  filter (fun b => bfree b = false) (coalesced l) = filter (fun b => bfree b = false) l.
Proof.
  induction l as [|b l IH]; [done|]. rewrite coalesced_cons, !filter_cons.
  by rewrite filter_used_seam, IH.
Qed.

Lemma used_ptrs_app x y : used_ptrs (x ++ y) = used_ptrs x ++ used_ptrs y.
Proof. unfold used_ptrs. by rewrite filter_app, fmap_app. Qed.

(** The used pointers after the release of [b]: those before it and
    those after it. *)
Lemma used_ptrs_release pre b post :
  used_ptrs (coalesced (pre ++ Block (addr b) true :: post)) = used_ptrs pre ++ used_ptrs post.
Proof.
  unfold used_ptrs at 1. rewrite filter_used_coalesced. fold (used_ptrs (pre ++ Block (addr b) true :: post)).
  by rewrite used_ptrs_app.
Qed.

Lemma used_ptrs_split l p :
  p ∈ used_ptrs l -> exists pre b post, l = pre ++ b :: post /\ bfree b = false /\ p = addr b + HDR /\
    used_ptrs l = used_ptrs pre ++ p :: used_ptrs post.
Proof.
  unfold used_ptrs. intros (b & -> & Hb)%list_elem_of_fmap.
  apply list_elem_of_filter in Hb as [Hb Hin]. apply list_elem_of_split in Hin as (pre & post & ->).
  exists pre, b, post. split_and!; [done|done|done|].
  rewrite filter_app, filter_cons_True by done. by rewrite fmap_app, fmap_cons.
Qed.

(** With no used block left, the ledger is a single free block. *)
Lemma used_ptrs_nil_all_free l : used_ptrs l = [] -> Forall (fun b => bfree b = true) l.
Proof.
  unfold used_ptrs. intros H. apply fmap_nil_inv in H.
  apply Forall_forall. intros b Hb. destruct (bfree b) eqn:E; [done|].
  assert (Hin : b ∈ filter (fun b => bfree b = false) l) by (by apply list_elem_of_filter).
  rewrite H in Hin. by apply elem_of_nil in Hin.
Qed.

(** C26: No fragmentation. On a state whose memory holds a ledger
    spanning the arena, releasing the payloads of all its used blocks, in
    any order, returns at every call and leaves exactly one free block
    spanning the arena, with the cursor where it was. *)
Theorem release_all_one_block ar st l s ps :
  ledger st l s -> spans ar l s -> ps ≡ₚ used_ptrs l ->
  exists st', release_all ar st ps = Some st' /\
    ledger st' [Block (aligned_memory_start ar) true] s /\ current st' = current st.
Proof.
  revert st l. induction ps as [|p ps IH]; intros st l Hl Hsp Hps.
  - exists st. split_and!; [done| |done].
    rewrite <- (ledger_all_free ar st l s Hl Hsp); [done|].
    apply used_ptrs_nil_all_free. by apply Permutation_nil.
  - assert (Hp : p ∈ used_ptrs l) by (rewrite <- Hps; by left).
    destruct (used_ptrs_split l p Hp) as (pre & b & post & Heq & Hb & -> & Hu).
    destruct (release_step ar st l s pre b post Hl Hsp Heq Hb) as (st1 & Hf & Hc1 & Hl1 & Hsp1 & _).
    rewrite Hu in Hps. apply Permutation.Permutation_cons_app_inv in Hps.
    rewrite <- (used_ptrs_release pre b post) in Hps.
    destruct (IH st1 _ Hl1 Hsp1 Hps) as (st' & Hr & Hl' & Hc').
    exists st'. cbn [release_all]. rewrite Hf. cbn. split_and!; [done|done|congruence].
Qed.
