(* ===== verification/Exhaustion.v ===== *)
(** * Exhaustion: repeated allocation runs out of memory

    The specification's exhaustion contract (section 6): allocating again
    and again until an allocation fails ends with a failing call, returning
    the null sentinel. The free bytes of the ledger ([free_bytes], the
    headers of the free blocks included) are a variant: every successful
    [simple_malloc] takes at least a header's worth of them, by carving
    a block and splitting off the rest behind a new header, or by using a
    whole free block of at least [HDR + MIN_SIZE] bytes. The client loop
    [alloc_until] is the test of the specification, not code of the
    repository. *)

From Stdlib Require Import ZArith Lia.
From stdpp Require Import base list gmap.
From S2P Require Import Prelude Machine Ledger SimpleInit NextFit Malloc Allocator.

Open Scope Z_scope.
Open Scope mm_scope.

(** The bytes of the free blocks, headers included. *)
Definition free_bytes (l : list block) (s : Z) : Z :=
  foldr Z.add 0 ((fun '(b, n) => if bfree b then n - addr b else 0) <$> sized l s).

(** The exhaustion test: allocate [n] bytes until an allocation returns
    [NULL]; the pointers returned before, and the final state. [None]: a
    call did not return, or the calls ran out of [fuel]. *)
Fixpoint alloc_until (ar : arena) (fuel : nat) (st : mm_state) (n : Z) : option (list Z * mm_state) :=
  match fuel with
  | O => None
  | S f =>
      match simple_malloc ar st n with
      | None => None
      | Some (st1, p) =>
          if p =? NULL then Some ([], st1)
          else match alloc_until ar f st1 n with
               | Some (ps, st2) => Some (p :: ps, st2)
               | None => None
               end
      end
  end.

(** ** The variant *)

Lemma free_bytes_nil s : free_bytes [] s = 0.
Proof. done. Qed.

Lemma free_bytes_cons b l s :
  free_bytes (b :: l) s = (if bfree b then next_addr l s - addr b else 0) + free_bytes l s.
Proof. done. Qed.

Lemma free_bytes_app l1 l2 s :
  free_bytes (l1 ++ l2) s = free_bytes l1 (next_addr l2 s) + free_bytes l2 s.
Proof.
  induction l1 as [|b l1 IH]; [done|].
  rewrite <- app_comm_cons, !free_bytes_cons, IH, next_addr_app. lia.
Qed.

(** The free bytes lie between the first header and the sentinel. *)
Lemma free_bytes_range l s : layout l s -> 0 <= free_bytes l s <= s - next_addr l s.
Proof.
  induction l as [|b l IH]; [cbn; lia|]. simpl. intros (_ & Hb & Hl).
  rewrite free_bytes_cons. specialize (IH Hl). pose proof (layout_next_above l s Hl).
  destruct (bfree b); mlia.
Qed.

(** A successful next-fit allocation takes at least a header's worth of
    free bytes. *)
Lemma malloc_spec_free_bytes a l s c l' p c' :
  layout l s -> 0 <= a -> malloc_spec a l s c = Some (l', p, c') ->
  free_bytes l' s + HDR <= free_bytes l s.
Proof.
  intros Hy Ha E.
  destruct (malloc_spec_next_fit _ _ _ _ _ _ _ E)
    as (xs & b & n & ys & bs & L & R & _ & _ & Hb & Hfit & _ & Hc & -> & Hn & ->).
  pose proof (layout_split L b R s Hy) as (_ & Hsz & _).
  unfold carve_blocks in Hc.
  destruct (_ <=? _); injection Hc as <- <-;
    rewrite !free_bytes_app, <- !app_comm_cons, !free_bytes_cons, Hb; cbn [bfree next_addr app];
    rewrite ?free_bytes_cons, ?free_bytes_nil; cbn [bfree next_addr addr]; rewrite Hn; mlia.
Qed.

(** One allocation on a state with the invariant: it returns [NULL], or
    a pointer and a state with the invariant and fewer free bytes. *)
Lemma malloc_search_shrinks ar st l s n :
  mm_inv ar st l s -> 0 <= n <= W - 8 ->
  malloc_search ar st n = Some (st, NULL) \/
  exists st' p l', malloc_search ar st n = Some (st', p) /\ p <> NULL /\
    mm_inv ar st' l' s /\ free_bytes l' s + HDR <= free_bytes l s.
Proof.
  intros Hi Hn. pose proof Hi as (Hl & Hc & Hsp).
  pose proof (malloc_search_refines ar st l s n Hl Hc Hsp Hn) as H.
  pose proof (request_size_spec n Hn) as (_ & Hreq & _).
  destruct (malloc_spec _ l s (current st)) as [[[l' p] c]|] eqn:E; [|by left].
  destruct H as (st' & Hm & Hc' & Hl' & _). right.
  destruct (malloc_spec_block _ _ _ _ _ _ _ E) as [(N0 & Hin0 & _) _].
  destruct (sized_layout l s _ N0 (lg_layout _ _ _ Hl) Hin0) as (_ & _ & Hlow & _).
  pose proof (lg_low _ _ _ Hl). rewrite (lg_first _ _ _ Hl) in *. simpl in Hlow.
  exists st', p, l'. split_and!; [done|mlia| |].
  - destruct (malloc_search_inv ar st l s n st' p Hi Hn Hm) as (l'' & Hi'').
    destruct Hi'' as (Hl'' & Hc'' & Hsp''). rewrite (ledger_unique _ _ _ _ Hl' Hl''). by split_and!.
  - refine (malloc_spec_free_bytes _ _ _ _ _ _ _ (lg_layout _ _ _ Hl) _ E). unfold MIN_SIZE in Hreq; lia.
Qed.

(** The loop returns within one call more than the free bytes allow. *)
Lemma alloc_until_ready ar n : forall f st l s,
  mm_inv ar st l s -> 0 <= n <= W - 8 -> free_bytes l s < HDR * Z.of_nat f ->
  exists ps st', alloc_until ar f st n = Some (ps, st') /\
    Z.of_nat (length ps) * HDR <= free_bytes l s /\ exists l', mm_inv ar st' l' s.
Proof.
  induction f as [|f IH]; intros st l s Hi Hn Hf.
  { pose proof (free_bytes_range l s (lg_layout _ _ _ (proj1 Hi))). lia. }
  simpl. rewrite simple_malloc_ready by (eapply ledger_ready, (proj1 Hi)).
  destruct (malloc_search_shrinks ar st l s n Hi Hn) as [-> | (st' & p & l' & -> & Hp & Hi' & Hfb)].
  { rewrite Z.eqb_refl. eexists _, _. split_and!; [done|simpl; apply free_bytes_range, (lg_layout _ _ _ (proj1 Hi))|by exists l]. }
  rewrite (proj2 (Z.eqb_neq _ _) Hp).
  destruct (IH st' l' s Hi' Hn ltac:(lia)) as (ps & st'' & -> & Hlen & Hi'').
  eexists _, _. split_and!; [done| |done]. simpl length. lia.
Qed.

(** On a state with the invariant the loop fuel of the arena outlasts
    the free bytes. *)
Lemma alloc_until_inv ar st l s n :
  mm_inv ar st l s -> 0 <= n <= W - 8 ->
  exists ps st', alloc_until ar (loop_fuel ar) st n = Some (ps, st') /\
    (length ps < loop_fuel ar)%nat /\ exists l', mm_inv ar st' l' s.
Proof.
  intros Hi Hn. pose proof Hi as (Hl & _ & [Hf Hs]).
  pose proof (free_bytes_range l s (lg_layout _ _ _ Hl)) as Hfb.
  assert (Hfuel : free_bytes l s < HDR * Z.of_nat (loop_fuel ar)).
  { unfold loop_fuel. rewrite Nat2Z.inj_add, Z2Nat.id by (apply Z.div_pos; mlia).
    unfold HDR in *. Z.div_mod_to_equations. lia. }
  destruct (alloc_until_ready ar n (loop_fuel ar) st l s Hi Hn Hfuel) as (ps & st' & Hr & Hlen & Hi').
  exists ps, st'. split_and!; [done| |done]. unfold HDR in *. lia.
Qed.

(** C23: Exhaustion (the specification's section 6). From the initial
    globals or any state with the invariant, allocating [n] bytes again
    and again reaches a call that returns [NULL] within [loop_fuel ar]
    calls, every call returning; fewer than [loop_fuel ar] allocations
    succeed before it, and the state after the failing call is still
    uninitialised or satisfies the invariant. *)
Theorem exhaustion_returns_null ar st n :
  arena_wf ar -> (first st = NULL \/ exists l s, mm_inv ar st l s) -> 0 <= n <= W - 8 ->
  exists ps st', alloc_until ar (loop_fuel ar) st n = Some (ps, st') /\
    (length ps < loop_fuel ar)%nat /\ (first st' = NULL \/ exists l s, mm_inv ar st' l s).
Proof.
  intros Hw [H0 | (l & s & Hi)] Hn.
  - destruct (decide (arena_big ar)) as [Hb | Hb].
    + pose proof (simple_init_inv ar st Hw Hb H0) as Hi.
      destruct (alloc_until_inv _ _ _ _ n Hi Hn) as (ps & st' & Hr & Hlen & l' & Hi').
      exists ps, st'. split_and!; [|done|right; by eexists _, _].
      rewrite <- Hr. unfold loop_fuel. rewrite Nat.add_succ_r. cbn [alloc_until].
      by rewrite (simple_malloc_uninit ar st n H0 (ledger_ready _ _ _ (proj1 Hi))).
    + exists [], (simple_init ar st). unfold loop_fuel. rewrite Nat.add_succ_r. cbn [alloc_until].
      unfold simple_malloc. rewrite H0, (simple_init_too_small ar st Hw Hb H0). cbn.
      split_and!; [done|lia|left; first [done | by apply simple_init_too_small]].
  - destruct (alloc_until_inv _ _ _ _ n Hi Hn) as (ps & st' & Hr & Hlen & l' & Hi').
    exists ps, st'. split_and!; [done|done|right; by eexists _, _].
Qed.
