(* ===== verification/Interface.v ===== *)
(** * Interface: what an allocator promises its clients

    The operations a client of [mm.h] uses ([simple_malloc], [simple_free],
    and reading and writing payload words) as a class [AllocOps], and the
    laws a client may rely on as a class [AllocLaws]: a heap predicate
    [heap st L] that records the live allocations [L] (payload pointer,
    size requested), and a predicate [release_safe] under which a release
    keeps the heap predicate. [release_safe] is part of the interface
    because [simple_free] may leave the cursor on a header it absorbs
    (see [Scenarios]); the laws guarantee it right after a successful
    allocation, for every block allocated before. A weaker predicate
    [held st L] survives every release, safe or not: the live allocations
    can still be read and released, but nothing more is promised of an
    allocation. Both predicates ignore the order of [L]. [Client] and
    [Exerciser] are proved against these classes; [MmInstance] shows that
    [mm.c] satisfies them. *)

From Stdlib Require Import ZArith Lia.
From stdpp Require Import base list.
From Stdlib Require Import Morphisms.
From S2P Require Import Prelude Machine.

Open Scope Z_scope.

Class AllocOps (S : Type) := {
  alloc : S -> Z -> option (S * Z);
  release : S -> Z -> option S;
  load : S -> Z -> Z;
  store : S -> Z -> Z -> S;
}.

(** [a] lies in the payload of a live allocation. *)
Definition live_in (L : list (Z * Z)) (a : Z) : Prop :=
  Exists (fun '(p, n) => p <= a < p + n) L.

(** The live allocations after [p] is released. *)
Definition drop_ptr (p : Z) (L : list (Z * Z)) : list (Z * Z) :=
  filter (fun '(q, _) => q <> p) L.

#[export] Instance live_in_proper : Proper ((≡ₚ) ==> (=) ==> iff) live_in.
Proof.
  intros L L' HL a ? <-. unfold live_in. rewrite !Exists_exists.
  by setoid_rewrite HL.
Qed.

#[export] Instance drop_ptr_proper p : Proper ((≡ₚ) ==> (≡ₚ)) (drop_ptr p).
Proof. intros L L' HL. unfold drop_ptr. by rewrite HL. Qed.

(** The byte ranges [[p, p + n)] and [[q, q + m)] do not meet. *)
Definition apart (p n q m : Z) : Prop := p + n <= q \/ q + m <= p.

Class AllocLaws (S : Type) `{!AllocOps S} := {
  heap : S -> list (Z * Z) -> Prop;
  release_safe : S -> Z -> Prop;
  held : S -> list (Z * Z) -> Prop;
  heap_held st L : heap st L -> held st L;
  heap_perm st L L' : L ≡ₚ L' -> heap st L -> heap st L';
  held_perm st L L' : L ≡ₚ L' -> held st L -> held st L';
  (** An allocation returns; the contents of the live allocations are
      kept; on success the new block is 8-aligned, apart from the live
      ones, and each of them may be released. *)
  alloc_spec st L n :
    heap st L -> 0 <= n <= W - 8 ->
    exists st' p, alloc st n = Some (st', p) /\
      ((p = NULL /\ heap st' L /\ (forall a, live_in L a -> load st' a = load st a)) \/
       (p <> NULL /\ p mod 8 = 0 /\ heap st' ((p, n) :: L) /\
        Forall (fun '(q, m) => apart p n q m) L /\
        (forall a, live_in L a -> load st' a = load st a) /\
        Forall (fun '(q, _) => release_safe st' q) L));
  (** A release of a live allocation returns and keeps the other contents;
      when it is safe, the heap predicate holds without it. *)
  release_spec st L p n :
    heap st L -> (p, n) ∈ L ->
    exists st', release st p = Some st' /\
      (forall a, live_in (drop_ptr p L) a -> load st' a = load st a) /\
      (release_safe st p -> heap st' (drop_ptr p L));
  (** Any release of a live allocation returns, keeps the other contents
      and the weak predicate. *)
  release_held st L p n :
    held st L -> (p, n) ∈ L ->
    exists st', release st p = Some st' /\
      (forall a, live_in (drop_ptr p L) a -> load st' a = load st a) /\
      held st' (drop_ptr p L);
  (** A write into a live payload is read back and changes nothing else. *)
  store_spec st L a v :
    heap st L -> live_in L a ->
    heap (store st a v) L /\ load (store st a v) a = v /\
    (forall b, b <> a -> load (store st a v) b = load st b) /\
    (forall q, release_safe st q -> release_safe (store st a v) q);
}.

Arguments heap {S _ _} _ _.
Arguments release_safe {S _ _} _ _.
Arguments held {S _ _} _ _.

(** The predicates are invariant under permutation of the live list, so
    clients may rewrite it with [≡ₚ]. *)
#[export] Instance heap_proper {S} `{AllocLaws S} : Proper ((=) ==> (≡ₚ) ==> iff) heap.
Proof. intros st ? <- L L' HL. split; apply heap_perm; [done|by symmetry]. Qed.

#[export] Instance held_proper {S} `{AllocLaws S} : Proper ((=) ==> (≡ₚ) ==> iff) held.
Proof. intros st ? <- L L' HL. split; apply held_perm; [done|by symmetry]. Qed.
