(* ===== verification/Client.v ===== *)
(** * Client: [main.c], a growing array of [int] on top of the allocator

    [main] reads characters until end of input ([read_char() == -1]) or a
    character other than ['a'], ['b'], ['c']: ['a'] appends the counter to
    the array (doubling its capacity by allocate, copy, release when it is
    full), ['b'] skips a value, ['c'] drops the last element; every one of
    them advances the counter. It then prints the array and releases it.
    The input is a list of character codes and the output a list of
    [write_char] / [write_int] events ([io.h] is not among the sources, so
    [write_int]'s digits are not modelled). The model is generic in the
    allocator ([AllocOps], [AllocLaws] of [Interface]); the theorem says
    that [main] prints what the list semantics [spec_loop] gives, or exits
    with code 1 and prints nothing when an allocation fails. [int] values
    are kept as [Z]: the inputs considered are shorter than [2^30], so no
    [int] overflows and every size passed to [simple_malloc] is far below
    [2^64 - 8]. *)

From Stdlib Require Import ZArith Lia.
From stdpp Require Import base list.
From S2P Require Import Prelude Machine Interface.

Open Scope Z_scope.

(** The output of [main]: [write_char(c)] and [write_int(n)]. *)
Inductive event := WriteChar (c : Z) | WriteInt (n : Z).

(** The locals of [main]: [counter], [capacity], [size], [collection]. *)
Record vars := Vars { counter : Z; capacity : Z; size : Z; collection : Z }.

(** How the input loop ends: at end of input or a [break] (the locals are
    kept), or by [return 1] after a failed allocation. *)
Inductive loop_end (S : Type) := Break (st : S) (v : vars) | Exit1 (st : S).
Arguments Break {S} st v.
Arguments Exit1 {S} st.

Section Main.
Context {State : Type} `{AllocLaws State}.

(** Lines 36-38: [tmp[i] = collection[i]] for [i < old_capacity]. *)
Definition copy_ints (st : State) (dst src : Z) (n : nat) : State :=
  fold_left (fun st i => store st (dst + 4 * Z.of_nat i) (load st (src + 4 * Z.of_nat i)))
            (seq 0 n) st.

(** Lines 21-44: the array is full; double it. [None] inside: [tmp] is
    [NULL], the array has been released and [main] returns 1. *)
Definition grow (st : State) (v : vars) : option (State * option vars) :=
  let old_capacity := capacity v in
  let cap := capacity v * 2 in
  '(st1, tmp) ← alloc st (cap * 4);
  if tmp =? NULL then
    st2 ← release st1 (collection v); Some (st2, None)
  else
    let st2 := copy_ints st1 tmp (collection v) (Z.to_nat old_capacity) in
    st3 ← release st2 (collection v);
    Some (st3, Some (Vars (counter v) cap (size v) tmp)).

(** Lines 19-58: one character of the loop. [inl]: go on; [inr]: the loop
    ends. *)
Definition step (st : State) (v : vars) (c : Z) : option ((State * vars) + loop_end State) :=
  if c =? 97 then
    r ← (if size v =? capacity v then grow st v else Some (st, Some v));
    match r with
    | (st', None) => Some (inr (Exit1 st'))
    | (st', Some v') =>
        let st'' := store st' (collection v' + 4 * size v') (counter v') in
        Some (inl (st'', Vars (counter v' + 1) (capacity v') (size v' + 1) (collection v')))
    end
  else if c =? 98 then
    Some (inl (st, Vars (counter v + 1) (capacity v) (size v) (collection v)))
  else if c =? 99 then
    Some (inl (st, Vars (counter v + 1) (capacity v)
                        (if 0 <? size v then size v - 1 else size v) (collection v)))
  else Some (inr (Break st v)).

(** Lines 18-59: the loop; the end of the list is [read_char() == -1]. *)
Fixpoint main_loop (st : State) (v : vars) (input : list Z) : option (loop_end State) :=
  match input with
  | [] => Some (Break st v)
  | c :: rest =>
      r ← step st v c;
      match r with
      | inl (st', v') => main_loop st' v' rest
      | inr e => Some e
      end
  end.

(** Lines 73-81: one element and the comma after it. *)
Definition print_elem (x : Z) : list event :=
  if x =? 0 then [WriteChar 48] else [WriteInt x].

(** Lines 62-86: the output. *)
Definition print_result (st : State) (v : vars) : list event :=
  if size v =? 0 then [WriteChar 59; WriteChar 10]
  else
    (if (size v =? 1) && (load st (collection v) =? 0) then [WriteChar 48]
     else concat (map (fun i => print_elem (load st (collection v + 4 * Z.of_nat i)) ++
                                (if Z.of_nat i <? size v - 1 then [WriteChar 44] else []))
                      (seq 0 (Z.to_nat (size v)))))
    ++ [WriteChar 59; WriteChar 10].

(** Lines 7-91: the exit code and the output. [None]: an allocator call
    did not return. *)
Definition main (st : State) (input : list Z) : option (State * Z * list event) :=
  '(st1, col) ← alloc st (4 * 4);
  if col =? NULL then Some (st1, 1, [])
  else
    r ← main_loop st1 (Vars 0 4 0 col) input;
    match r with
    | Exit1 st2 => Some (st2, 1, [])
    | Break st2 v2 =>
        let out := print_result st2 v2 in
        st3 ← release st2 (collection v2);
        Some (st3, 0, out)
    end.

End Main.

(** ** What [main] computes, on lists *)

Fixpoint spec_loop (arr : list Z) (counter : Z) (input : list Z) : list Z :=
  match input with
  | [] => arr
  | c :: rest =>
      if c =? 97 then spec_loop (arr ++ [counter]) (counter + 1) rest
      else if c =? 98 then spec_loop arr (counter + 1) rest
      else if c =? 99 then spec_loop (removelast arr) (counter + 1) rest
      else arr
  end.

Fixpoint print_list (xs : list Z) : list event :=
  match xs with
  | [] => []
  | [x] => print_elem x
  | x :: r => print_elem x ++ WriteChar 44 :: print_list r
  end.

(** The output for the array [arr]: its elements separated by commas,
    then [";\n"]. *)
Definition spec_output (arr : list Z) : list event :=
  print_list arr ++ [WriteChar 59; WriteChar 10].

(** ** Correctness of [main] against the interface *)

Section Correctness.
Context {State : Type} `{AllocLaws State}.

Lemma copy_ints_S st dst src n :
  copy_ints st dst src (S n) =
  let st' := copy_ints st dst src n in
  store st' (dst + 4 * Z.of_nat n) (load st' (src + 4 * Z.of_nat n)).
Proof. unfold copy_ints. by rewrite seq_S, fold_left_app. Qed.

(** The copy loop, when the source words are outside the destination: the
    first [n] words of the destination hold the source's, nothing else
    changes, and the heap and the safety of releases are kept. *)
Lemma copy_ints_spec st L dst src m n :
  heap st L -> (dst, m) ∈ L -> 4 * Z.of_nat n <= m ->
  (forall i, (i < n)%nat -> src + 4 * Z.of_nat i < dst \/ dst + 4 * Z.of_nat n <= src + 4 * Z.of_nat i) ->
  heap (copy_ints st dst src n) L /\
  (forall i, (i < n)%nat -> load (copy_ints st dst src n) (dst + 4 * Z.of_nat i) =
                           load st (src + 4 * Z.of_nat i)) /\
  (forall a, a < dst \/ dst + 4 * Z.of_nat n <= a -> load (copy_ints st dst src n) a = load st a) /\
  (forall q, release_safe st q -> release_safe (copy_ints st dst src n) q).
Proof.
  intros Hh Hin. induction n as [|n IH]; intros Hm Hsrc.
  - split_and!; [done|lia|done|done].
  - destruct IH as (Hh' & Hc & Hf & Hs); [lia|intros i Hi; specialize (Hsrc i ltac:(lia)); lia|].
    rewrite copy_ints_S. cbv zeta.
    assert (Hl : live_in L (dst + 4 * Z.of_nat n)).
    { apply Exists_exists. exists (dst, m). split; [done|lia]. }
    destruct (store_spec _ L _ (load (copy_ints st dst src n) (src + 4 * Z.of_nat n)) Hh' Hl)
      as (Hh'' & Hv & Hother & Hsafe).
    split_and!; [done| | |].
    + intros i Hi. destruct (decide (i = n)) as [-> | Hne].
      * rewrite Hv. apply Hf. specialize (Hsrc n ltac:(lia)). lia.
      * rewrite Hother by lia. apply Hc. lia.
    + intros a Ha. rewrite Hother by lia. apply Hf. lia.
    + auto.
Qed.

Lemma drop_ptr_pair p n q m : p <> q -> drop_ptr q [(p, n); (q, m)] = [(p, n)].
Proof.
  intros Hne. unfold drop_ptr. rewrite filter_cons_True by done.
  rewrite filter_cons_False by (intros Hq; by apply Hq). done.
Qed.

Lemma live_in_single p n a : p <= a < p + n -> live_in [(p, n)] a.
Proof. intros Ha. by constructor. Qed.

(** The state of [main] while it holds the array [arr]: one live
    allocation of [capacity] ints, whose first [size] words are [arr]. *)
Definition array_ok (st : State) (v : vars) (arr : list Z) : Prop :=
  heap st [(collection v, capacity v * 4)] /\ collection v <> NULL /\
  size v = Z.of_nat (length arr) /\ size v <= capacity v /\
  (forall i x, arr !! i = Some x -> load st (collection v + 4 * Z.of_nat i) = x).

(** Doubling a full array returns; on success the new array holds the same
    elements. *)
Lemma grow_spec st v arr :
  array_ok st v arr -> size v = capacity v -> 0 < capacity v ->
  capacity v * 2 * 4 <= W - 8 ->
  exists st' r, grow st v = Some (st', r) /\
    match r with
    | None => True
    | Some v' => array_ok st' v' arr /\ capacity v' = capacity v * 2 /\
                 counter v' = counter v /\ size v' = size v
    end.
Proof.
  intros (Hh & Hnn & Hsz & Hle & Hc) Hfull Hpos Hbound.
  destruct (alloc_spec st _ (capacity v * 2 * 4) Hh ltac:(lia))
    as (st1 & tmp & Ha & [(-> & Hh1 & _) | (Hnn' & _ & Hh1 & Hap & Hfr1 & Hsafe1)]);
    unfold grow; rewrite Ha; cbn -[copy_ints].
  - destruct (release_spec st1 _ (collection v) (capacity v * 4) Hh1 ltac:(by left))
      as (st2 & Hr & _). rewrite Hr. by exists st2, None.
  - rewrite (proj2 (Z.eqb_neq _ _) Hnn').
    apply Forall_cons in Hap as [Hap _]. apply Forall_cons in Hsafe1 as [Hsafe1 _].
    unfold apart in Hap.
    destruct (copy_ints_spec st1 _ tmp (collection v) (capacity v * 2 * 4) (Z.to_nat (capacity v))
                Hh1 ltac:(by left) ltac:(lia) ltac:(intros i Hi; lia))
      as (Hh2 & Hcp & _ & Hsafe2).
    destruct (release_spec (copy_ints st1 tmp (collection v) (Z.to_nat (capacity v))) _
                (collection v) (capacity v * 4) Hh2 ltac:(right; by left))
      as (st3 & Hr & Hfr3 & Hh3). rewrite Hr.
    assert (Hne : tmp <> collection v) by lia.
    rewrite drop_ptr_pair in Hfr3, Hh3 by done.
    eexists _, _. split; [reflexivity|]. unfold array_ok; simpl. split_and!; try done; try lia.
    + by apply Hh3, Hsafe2.
    + intros i x Hx. pose proof (lookup_lt_Some _ _ _ Hx) as Hi.
      rewrite Hfr3 by (apply live_in_single; lia).
      rewrite Hcp by lia. rewrite Hfr1 by (apply live_in_single; lia). by apply Hc.
Qed.

(** Line 46: [collection[size++] = counter] when there is room. *)
Lemma append_spec st v arr x :
  array_ok st v arr -> size v < capacity v ->
  array_ok (store st (collection v + 4 * size v) x)
           (Vars (counter v + 1) (capacity v) (size v + 1) (collection v)) (arr ++ [x]).
Proof.
  intros (Hh & Hnn & Hsz & Hle & Hc) Hlt.
  destruct (store_spec st _ (collection v + 4 * size v) x Hh ltac:(apply live_in_single; lia))
    as (Hh' & Hv & Hother & _).
  unfold array_ok; simpl. split_and!; try done.
  - rewrite app_length. simpl. lia.
  - lia.
  - intros i y Hy. apply lookup_app_Some in Hy as [Hy | [Hi Hy]].
    + pose proof (lookup_lt_Some _ _ _ Hy). rewrite Hother by lia. by apply Hc.
    + apply list_lookup_singleton_Some in Hy as [Hi0 <-].
      replace (Z.of_nat i) with (size v) by lia. done.
Qed.

(** Line 53: dropping the last element. *)
Lemma drop_last_spec st v arr :
  array_ok st v arr ->
  array_ok st (Vars (counter v + 1) (capacity v)
                    (if 0 <? size v then size v - 1 else size v) (collection v)) (removelast arr).
Proof.
  intros (Hh & Hnn & Hsz & Hle & Hc). unfold array_ok; simpl.
  destruct arr as [|y arr0] using rev_ind.
  - simpl in *. rewrite Hsz. simpl. split_and!; try done; lia.
  - rewrite removelast_last. rewrite app_length in Hsz. simpl in Hsz.
    rewrite (proj2 (Z.ltb_lt _ _)) by lia. split_and!; try done; try lia.
    intros i x Hx. apply Hc. by apply lookup_app_l_Some.
Qed.

(** Bounds that keep every size passed to [simple_malloc] small. *)
Definition bounded (v : vars) : Prop :=
  0 <= counter v /\ 0 <= size v <= counter v /\ 4 <= capacity v <= 4 + 2 * counter v.

(** The input loop returns; unless an allocation failed, it ends holding
    the array [spec_loop] computes. *)
Lemma main_loop_spec st v arr input :
  array_ok st v arr -> bounded v -> counter v + Z.of_nat (length input) < 2 ^ 30 ->
  exists r, main_loop st v input = Some r /\
    match r with
    | Break st' v' => array_ok st' v' (spec_loop arr (counter v) input)
    | Exit1 _ => True
    end.
Proof.
  revert st v arr. induction input as [|c rest IH]; intros st v arr Hok Hb Hlen; simpl.
  - eexists. split; [reflexivity|done].
  - simpl in Hlen. unfold step.
    destruct (Z.eqb_spec c 97) as [_ | _]; [|destruct (Z.eqb_spec c 98) as [_ | _];
      [|destruct (Z.eqb_spec c 99) as [_ | _]]].
    + assert ((exists st1 v1, (if size v =? capacity v then grow st v else Some (st, Some v))
                = Some (st1, Some v1) /\ array_ok st1 v1 arr /\ size v1 < capacity v1 /\
                counter v1 = counter v /\ size v1 = size v /\ 4 <= capacity v1 <= 2 * counter v + 4)
              \/ (exists st1, (if size v =? capacity v then grow st v else Some (st, Some v))
                = Some (st1, None))) as [(st1 & v1 & Hg & Hok1 & Hroom & Hcnt & Hsz & Hcap) | (st1 & Hg)].
      { destruct (Z.eqb_spec (size v) (capacity v)) as [Hfull | Hroom].
        - destruct Hb as (? & ? & ?).
          destruct (grow_spec st v arr Hok Hfull ltac:(lia) ltac:(unfold W; lia))
            as (st1 & [v1|] & Hg & Hv1); [left | right; eauto].
          destruct Hv1 as (Hok1 & Hc1 & Hn1 & Hs1). exists st1, v1. split_and!; try done; lia.
        - left. exists st, v. pose proof Hok as (_ & _ & _ & Hle & _).
          destruct Hb as (? & ? & ?). split_and!; try done; lia. }
      * rewrite Hg. cbn [mbind option_bind].
        destruct (IH _ _ (arr ++ [counter v1]) (append_spec st1 v1 arr (counter v1) Hok1 Hroom))
          as (r & Hr & Hspec); [unfold bounded in *; simpl; lia | simpl; lia |].
        rewrite Hr. exists r. split; [done|]. destruct r; [|done].
        simpl in Hspec. by rewrite Hcnt in Hspec.
      * rewrite Hg. cbn [mbind option_bind]. eexists. split; [reflexivity|done].
    + cbn [mbind option_bind].
      destruct (IH st (Vars (counter v + 1) (capacity v) (size v) (collection v)) arr)
        as (r & Hr & Hspec); [apply Hok | unfold bounded in *; simpl; lia | simpl; lia |].
      rewrite Hr. eauto.
    + cbn [mbind option_bind].
      destruct (IH _ _ _ (drop_last_spec st v arr Hok)) as (r & Hr & Hspec);
        [unfold bounded in *; simpl; case_match; lia | simpl; lia |].
      rewrite Hr. eauto.
    + eexists. split; [reflexivity|]. simpl.
      exact Hok.
Qed.

Lemma print_items_list (f : nat -> Z) arr :
  (forall i x, arr !! i = Some x -> f i = x) ->
  concat (map (fun i => print_elem (f i) ++
                 (if Z.of_nat i <? Z.of_nat (length arr) - 1 then [WriteChar 44] else []))
              (seq 0 (length arr))) = print_list arr.
Proof.
  revert f. induction arr as [|x r IH]; intros f Hf; [done|].
  cbn [length seq map concat]. rewrite <- seq_shift, map_map.
  rewrite (Hf 0%nat x eq_refl).
  rewrite (map_ext _ (fun i => print_elem (f (S i)) ++
             (if Z.of_nat i <? Z.of_nat (length r) - 1 then [WriteChar 44] else [])))
    by (intros i; destruct (Z.ltb_spec (Z.of_nat (S i)) (Z.of_nat (S (length r)) - 1)),
          (Z.ltb_spec (Z.of_nat i) (Z.of_nat (length r) - 1)); try reflexivity; exfalso; lia).
  rewrite (IH (fun i => f (S i))) by (intros i y Hy; by apply Hf).
  destruct r as [|y r']; simpl; [by rewrite !app_nil_r|].
  rewrite (proj2 (Z.ltb_lt _ _)) by lia. rewrite <- app_assoc. done.
Qed.

(** Lines 62-86 print the list of the [size] words at [collection]. *)
Lemma print_result_list st v arr :
  size v = Z.of_nat (length arr) ->
  (forall i x, arr !! i = Some x -> load st (collection v + 4 * Z.of_nat i) = x) ->
  print_result st v = spec_output arr.
Proof.
  intros Hsz Hc. unfold print_result, spec_output.
  destruct (Z.eqb_spec (size v) 0) as [H0 | H0].
  - destruct arr; simpl in *; [done|lia].
  - f_equal. destruct (Z.eqb_spec (size v) 1) as [H1 | H1]; simpl.
    + destruct arr as [|x [|y r]]; simpl in Hsz; try lia.
      destruct (Z.eqb_spec (load st (collection v)) 0) as [Hx | Hx]; simpl.
      * pose proof (Hc 0%nat x eq_refl) as Hx'. rewrite Z.add_0_r in Hx'.
        rewrite Hx' in Hx. subst x. done.
      * rewrite Hsz. exact (print_items_list (fun i => load st (collection v + 4 * Z.of_nat i)) [x] Hc).
    + rewrite Hsz, Nat2Z.id.
      apply (print_items_list (fun i => load st (collection v + 4 * Z.of_nat i))). done.
Qed.

Lemma print_result_spec st v arr :
  array_ok st v arr -> print_result st v = spec_output arr.
Proof. intros (_ & _ & Hsz & _ & Hc). by apply print_result_list. Qed.

(** C18: The printing code of [main] (lines 62-86), with its special case
    for a single zero and its comma test [i < size - 1], prints exactly
    what the reference printer [spec_output] prints for the [size] ints at
    [collection]: each element ([0] as the character ['0']) separated by
    commas, then [";\n"]; for any [size], a negative one included. *)
Theorem print_result_equiv st v :
  print_result st v =
  spec_output (map (fun i => load st (collection v + 4 * Z.of_nat i)) (seq 0 (Z.to_nat (size v)))).
Proof.
  destruct (Z.leb_spec 0 (size v)) as [Hs | Hs].
  - apply print_result_list; [rewrite length_map, length_seq; lia|].
    intros i x Hi. apply list_lookup_fmap_Some in Hi as (j & Hx & Hj).
    apply lookup_seq in Hj as [-> _]. by subst.
  - replace (Z.to_nat (size v)) with 0%nat by lia. unfold print_result.
    rewrite (proj2 (Z.eqb_neq _ 0)), (proj2 (Z.eqb_neq (size v) 1)) by lia.
    by replace (Z.to_nat (size v)) with 0%nat by lia.
Qed.

(** [main] against the interface: it returns; either it prints what the
    list semantics gives and exits with 0, or an allocation failed and it
    exits with 1 having printed nothing. *)
Lemma main_spec st input :
  heap st [] -> Z.of_nat (length input) < 2 ^ 30 ->
  exists st' code out, main st input = Some (st', code, out) /\
    ((code = 0 /\ out = spec_output (spec_loop [] 0 input)) \/ (code = 1 /\ out = [])).
Proof.
  intros Hh Hlen. unfold main.
  destruct (alloc_spec st [] (4 * 4) Hh ltac:(unfold W; lia))
    as (st1 & col & Ha & [(-> & _) | (Hnn & _ & Hh1 & _)]); rewrite Ha; cbn [mbind option_bind].
  - rewrite Z.eqb_refl. do 3 eexists. split; [reflexivity|]. by right.
  - rewrite (proj2 (Z.eqb_neq _ _) Hnn).
    assert (Hok : array_ok st1 (Vars 0 4 0 col) []) by (split_and!; simpl; try done; lia).
    destruct (main_loop_spec st1 (Vars 0 4 0 col) [] input Hok)
      as ([st2 v2 | st2] & Hr & Hspec); [unfold bounded; simpl; lia | simpl; lia | |];
      rewrite Hr; cbn [mbind option_bind].
    + pose proof Hspec as (Hh2 & _).
      destruct (release_spec st2 _ (collection v2) (capacity v2 * 4) Hh2 ltac:(by left))
        as (st3 & Hrel & _). rewrite Hrel.
      do 3 eexists. split; [reflexivity|]. left. split; [done|].
      by apply print_result_spec.
    + do 3 eexists. split; [reflexivity|]. by right.
Qed.

End Correctness.
