(* ===== verification/Exerciser.v ===== *)
(** * Exerciser: the memory exerciser of [check_mm.c]

    [test_memory_exerciser] (lines 95-235 of
    [src/group_06_assign_3/check_mm.c]) keeps up to 16 live blocks in the
    array [blocks]. Each of its 1000 iterations draws a size from the
    running total and [rand()], allocates a block of that size, fills it
    with random words and records their XOR ([sum_block], lines 21-29),
    moves the clock to the next slot, checks every live block, frees the
    block in the slot the clock now points at and checks again. At the end
    it checks and frees what is left. Every failing [ck_assert] ends the
    test with a [verdict].

    The exerciser is modelled against the allocator interface ([AllocOps]
    and [AllocLaws] of [Interface]), the words it reads and writes being
    [load] and [store]. The values [rand()] returns are a parameter
    [rnd : nat -> Z], indexed by the number of calls so far; [uint32_t]
    arithmetic is kept at 32 bits ([wrap32]). The fields of [blocks] that
    the C code leaves uninitialised start at [0]: they are never read
    before they are written. The [printf] calls only print. The running
    total is the sum of the live sizes ([total_inv]), below [2^23]. *)

From Stdlib Require Import ZArith Lia.
From stdpp Require Import base list.
From S2P Require Import Prelude Machine Interface.

Open Scope Z_scope.

(** [uint32_t] arithmetic. *)
Definition U32 : Z := 2 ^ 32.
Definition wrap32 (z : Z) : Z := z mod U32.

(** One entry of [blocks] (lines 100-106). *)
Record slot := Slot { s_addr : Z; s_data : Z; s_size : Z; s_crc : Z }.

(** How the test ends: it passes, or one of its assertions fails. *)
Inductive verdict :=
  | Passed
  | AllocFailed          (* line 132: [addr != NULL] *)
  | Unaligned            (* lines 135-137: [addr & 0x07] *)
  | PreFreeCorruption    (* line 185 *)
  | PostFreeCorruption   (* line 214 *)
  | FinalCorruption.     (* lines 227-229 *)

#[export] Instance verdict_eq_dec : EqDecision verdict.
Proof. solve_decision. Defined.

(** Lines 122-123: the size of the next block. The difference, the
    product and the quotient are [uint32_t] operations. *)
Definition size_draw (total r : Z) : Z :=
  wrap32 (wrap32 (24 * 1024 * 1024 - total) * Z.land r (1024 * 1024 - 1)) / (1024 * 8).

(** The step of the test that either goes on with a value or ends with a
    verdict and the allocator state it leaves (a failed assertion ends the
    test, not the process, when the suite does not fork); [None]: an
    allocator call did not return. *)
Definition outcome (S A : Type) : Type := option ((verdict * S) + A).

Definition obind {S A B} (m : outcome S A) (k : A -> outcome S B) : outcome S B :=
  match m with
  | None => None
  | Some (inl v) => Some (inl v)
  | Some (inr a) => k a
  end.

Declare Scope ex_scope.
Notation "x ←ₑ m ; k" := (obind m (fun x => k))
  (at level 20, m at level 100, k at level 200, right associativity) : ex_scope.
Open Scope ex_scope.

Section Exerciser.
Context {State : Type} `{AllocOps State}.

(** The values of the successive calls of [rand()]. *)
Variable rnd : nat -> Z.

(** The locals of the test (lines 97-116): the allocator, [blocks],
    [clock], [total_memory_size], and how many times [rand()] was called. *)
Record ex_state := ExState {
  ex_mem : State; blocks : list slot; clock : Z; total : Z; draws : nat }.

(** Lines 21-29: [sum ^= data[n]] for [n < size >> 2]. *)
Fixpoint sum_loop (st : State) (data : Z) (n : nat) (cnt : nat) (sum : Z) : Z :=
  match cnt with
  | O => sum
  | S c => sum_loop st data (S n) c (Z.lxor sum (load st (data + 4 * Z.of_nat n)))
  end.

Definition sum_block (st : State) (data size : Z) : Z :=
  sum_loop st data 0 (Z.to_nat (Z.shiftr size 2)) 0.

(** Lines 147-156: [data[n] = x = (uint32_t) rand(); sum ^= x]. *)
Fixpoint fill (st : State) (data : Z) (n k : nat) (cnt : nat) (sum : Z) : State * nat * Z :=
  match cnt with
  | O => (st, k, sum)
  | S c =>
      let x := wrap32 (rnd k) in
      fill (store st (data + 4 * Z.of_nat n) x) data (S n) (S k) c (Z.lxor sum x)
  end.

(** Lines 172-185 (and 201-214): a block is checked when its [addr] is not
    [NULL]. *)
Definition slot_ok (st : State) (b : slot) : bool :=
  (s_addr b =? NULL) || (s_crc b =? sum_block st (s_data b) (s_size b)).

Definition verify (st : State) (bs : list slot) : bool := forallb (slot_ok st) bs.

(** Lines 121-166: draw a size; when it passes the sanity check, allocate
    the block, check it, fill it and record it in the slot of the clock;
    otherwise mark the slot empty. *)
Definition alloc_block (es : ex_state) : outcome State ex_state :=
  let c := Z.to_nat (clock es) in
  let sz := size_draw (total es) (rnd (draws es)) in
  let b := default (Slot NULL 0 0 0) (blocks es !! c) in
  if (0 <? sz) && (sz <? 24 * 1024 * 1024) then
    match alloc (ex_mem es) sz with
    | None => None
    | Some (st1, a) =>
        if a =? NULL then Some (inl (AllocFailed, st1))
        else if negb (Z.land a 7 =? 0) then Some (inl (Unaligned, st1))
        else
          let '(st2, k, crc) := fill st1 a 0 (S (draws es)) (Z.to_nat (Z.shiftr sz 2)) 0 in
          Some (inr (ExState st2 (<[c := Slot a a sz crc]> (blocks es)) (clock es)
                       (wrap32 (total es + sz)) k))
    end
  else
    Some (inr (ExState (ex_mem es) (<[c := Slot NULL (s_data b) sz (s_crc b)]> (blocks es))
                 (clock es) (total es) (S (draws es)))).

(** Lines 168-216: advance the clock, check every block, free the block
    of the new slot and check again. *)
Definition free_block (es : ex_state) : outcome State ex_state :=
  let cl := Z.land (clock es + 1) 15 in
  if negb (verify (ex_mem es) (blocks es)) then Some (inl (PreFreeCorruption, ex_mem es))
  else
    match blocks es !! Z.to_nat cl with
    | Some b =>
        if s_addr b =? NULL then Some (inr (ExState (ex_mem es) (blocks es) cl (total es) (draws es)))
        else
          match release (ex_mem es) (s_addr b) with
          | None => None
          | Some st1 =>
              let bs := <[Z.to_nat cl := Slot NULL (s_data b) (s_size b) (s_crc b)]> (blocks es) in
              if negb (verify st1 bs) then Some (inl (PostFreeCorruption, st1))
              else Some (inr (ExState st1 bs cl (wrap32 (total es - s_size b)) (draws es)))
          end
    | None => Some (inr (ExState (ex_mem es) (blocks es) cl (total es) (draws es)))
    end.

Definition iteration (es : ex_state) : outcome State ex_state :=
  es1 ←ₑ alloc_block es; free_block es1.

(** Line 118: [while (iterations--)]. *)
Fixpoint iterate (n : nat) (es : ex_state) : outcome State ex_state :=
  match n with
  | O => Some (inr es)
  | S n => es1 ←ₑ iteration es; iterate n es1
  end.

(** Lines 219-233: check and free the blocks left, in slot order. *)
Fixpoint final_frees (st : State) (bs : list slot) : option (verdict * State) :=
  match bs with
  | [] => Some (Passed, st)
  | b :: bs =>
      if s_addr b =? NULL then final_frees st bs
      else if negb (s_crc b =? sum_block st (s_data b) (s_size b)) then Some (FinalCorruption, st)
      else match release st (s_addr b) with
           | None => None
           | Some st1 => final_frees st1 bs
           end
  end.

(** Lines 97-235: the test, from the allocator state [st]; its verdict and
    the allocator state it leaves. *)
Definition test_memory_exerciser (st : State) : option (verdict * State) :=
  match iterate 1000 (ExState st (replicate 16 (Slot NULL 0 0 0)) 0 0 0) with
  | None => None
  | Some (inl r) => Some r
  | Some (inr es) => final_frees (ex_mem es) (blocks es)
  end.

End Exerciser.

Arguments ex_state : clear implicits.

(** ** Facts on the bookkeeping *)

(** The live blocks of [blocks]: pointer and size of each slot whose
    [addr] is not [NULL]. *)
Definition live_slots (bs : list slot) : list (Z * Z) :=
  (fun b => (s_addr b, s_size b)) <$> filter (fun b => s_addr b <> NULL) bs.

Lemma live_slots_app bs1 bs2 : live_slots (bs1 ++ bs2) = live_slots bs1 ++ live_slots bs2.
Proof. unfold live_slots. by rewrite filter_app, fmap_app. Qed.

Lemma live_slots_cons b bs : live_slots (b :: bs) = live_slots [b] ++ live_slots bs.
Proof. exact (live_slots_app [b] bs). Qed.

(** Replacing the slot [i] swaps its live entry, if any. *)
Lemma live_slots_insert bs i b b' :
  bs !! i = Some b ->
  live_slots (<[i := b']> bs) ++ live_slots [b] ≡ₚ live_slots bs ++ live_slots [b'].
Proof.
  intros Hb. pose proof (lookup_lt_Some _ _ _ Hb) as Hi.
  rewrite <- (take_drop_middle bs i b Hb) at 2. rewrite insert_take_drop by done.
  rewrite !live_slots_app, !(live_slots_cons _ (drop _ _)). solve_Permutation.
Qed.

Lemma drop_ptr_notin p L : Forall (fun '(q, _) => q <> p) L -> drop_ptr p L = L.
Proof.
  intros HL. unfold drop_ptr. induction HL as [|x L Hx HL IH]; [done|].
  rewrite filter_cons_True by (destruct x; exact Hx). by rewrite IH.
Qed.

Lemma live_slots_fst_notin p bs :
  p ∉ fst <$> live_slots bs -> Forall (fun '(q, _) => q <> p) (live_slots bs).
Proof.
  intros Hp. apply Forall_forall. intros [q m] Hq Heq. simpl in Heq. subst q. apply Hp.
  apply list_elem_of_fmap. by exists (p, m).
Qed.

Section Facts.
Context {State : Type} `{AllocOps State}.

(** [sum_loop] only reads the words it XORs. *)
Lemma sum_loop_ext st st' data n cnt sum :
  (forall j, (n <= j < n + cnt)%nat -> load st' (data + 4 * Z.of_nat j) = load st (data + 4 * Z.of_nat j)) ->
  sum_loop st' data n cnt sum = sum_loop st data n cnt sum.
Proof.
  revert n sum. induction cnt as [|c IH]; intros n sum Hj; simpl; [done|].
  rewrite Hj by lia. apply IH. intros j ?. apply Hj. lia.
Qed.

(** The words [sum_block] reads lie in the [size] bytes at [data]. *)
Lemma sum_block_range data size (j : nat) :
  0 <= size -> (j < Z.to_nat (Z.shiftr size 2))%nat ->
  data <= data + 4 * Z.of_nat j < data + size.
Proof.
  intros Hs Hj. rewrite Z.shiftr_div_pow2 in Hj by lia. change (2 ^ 2) with 4 in Hj.
  apply Nat2Z.inj_lt in Hj. rewrite Z2Nat.id in Hj by (apply Z.div_pos; lia).
  Z.div_mod_to_equations. lia.
Qed.

Lemma sum_block_kept st st' data size :
  0 <= size ->
  (forall a, data <= a < data + size -> load st' a = load st a) ->
  sum_block st' data size = sum_block st data size.
Proof.
  intros Hs Ha. unfold sum_block. apply sum_loop_ext. intros j Hj. apply Ha.
  apply sum_block_range; [done|lia].
Qed.

End Facts.

(** ** The schedule of sizes

    [book bs]: the size recorded in each slot, [None] for an empty one.
    [sched_ok rnd n live cl tot k] says that, as long as every allocation
    succeeds, each of the next [n] iterations draws a size that passes the
    sanity check of line 126; it follows the bookkeeping of lines 121-216
    ([clock], [total_memory_size], the sizes of the live slots and the
    calls of [rand()]) and nothing else. *)
Definition book (bs : list slot) : list (option Z) :=
  (fun b => if s_addr b =? NULL then None else Some (s_size b)) <$> bs.

Fixpoint sched_ok (rnd : nat -> Z) (n : nat) (live : list (option Z)) (cl tot : Z) (k : nat) : bool :=
  match n with
  | O => true
  | S n =>
      let sz := size_draw tot (rnd k) in
      if (0 <? sz) && (sz <? 24 * 1024 * 1024) then
        let live1 := <[Z.to_nat cl := Some sz]> live in
        let cl1 := Z.land (cl + 1) 15 in
        let k1 := (S k + Z.to_nat (Z.shiftr sz 2))%nat in
        match live1 !! Z.to_nat cl1 with
        | Some (Some m) =>
            sched_ok rnd n (<[Z.to_nat cl1 := None]> live1) cl1 (wrap32 (wrap32 (tot + sz) - m)) k1
        | _ => sched_ok rnd n live1 cl1 (wrap32 (tot + sz)) k1
        end
      else false
  end.

(** The next slot of the clock is another slot. *)
Lemma clock_next c : 0 <= c < 16 -> 0 <= Z.land (c + 1) 15 < 16 /\ Z.land (c + 1) 15 <> c.
Proof.
  intros Hc. change 15 with (Z.ones 4). rewrite Z.land_ones by lia.
  change (2 ^ 4) with 16. Z.div_mod_to_equations. lia.
Qed.

Lemma land7_aligned a : a mod 8 = 0 -> Z.land a 7 = 0.
Proof. intros Ha. change 7 with (Z.ones 3). by rewrite Z.land_ones by lia. Qed.

Lemma book_insert bs i b :
  book (<[i := b]> bs) = <[i := if s_addr b =? NULL then None else Some (s_size b)]> (book bs).
Proof. unfold book. by rewrite list_fmap_insert. Qed.

Lemma drop_ptr_live L L' p m :
  L ≡ₚ (p, m) :: L' -> NoDup (fst <$> L) -> drop_ptr p L ≡ₚ L'.
Proof.
  intros HP Hnd. rewrite HP in Hnd |- *. simpl in Hnd. apply NoDup_cons in Hnd as [Hp _].
  unfold drop_ptr. rewrite filter_cons_False by (simpl; tauto).
  fold (drop_ptr p L'). rewrite drop_ptr_notin; [done|].
  apply Forall_forall. intros [q n] Hq Heq. simpl in Heq. subst q. apply Hp.
  apply list_elem_of_fmap. by exists (p, n).
Qed.

Lemma live_slots_elem bs b : b ∈ bs -> s_addr b <> NULL -> (s_addr b, s_size b) ∈ live_slots bs.
Proof.
  intros Hb Hn. unfold live_slots. apply list_elem_of_fmap. exists b. split; [done|].
  by apply list_elem_of_filter.
Qed.

Lemma live_slots_single b :
  live_slots [b] = if decide (s_addr b = NULL) then [] else [(s_addr b, s_size b)].
Proof.
  unfold live_slots. rewrite (filter_singleton _ b []).
  repeat case_decide; done || tauto.
Qed.

(** Filling an empty slot adds its block; emptying a live slot removes it. *)
Lemma live_slots_set bs i b0 b :
  bs !! i = Some b0 -> s_addr b0 = NULL -> s_addr b <> NULL ->
  live_slots (<[i := b]> bs) ≡ₚ (s_addr b, s_size b) :: live_slots bs.
Proof.
  intros Hb0 Hn0 Hn. pose proof (live_slots_insert bs i b0 b Hb0) as HP.
  rewrite !live_slots_single in HP. repeat case_decide; try tauto. rewrite app_nil_r in HP.
  rewrite HP. solve_Permutation.
Qed.

Lemma live_slots_clear bs i b b' :
  bs !! i = Some b -> s_addr b <> NULL -> s_addr b' = NULL ->
  live_slots bs ≡ₚ (s_addr b, s_size b) :: live_slots (<[i := b']> bs).
Proof.
  intros Hb Hn Hn'. pose proof (live_slots_insert bs i b b' Hb) as HP.
  rewrite !live_slots_single in HP. repeat case_decide; try tauto. rewrite app_nil_r in HP.
  rewrite <- HP. solve_Permutation.
Qed.

(** A block apart from the live ones holds none of their bytes. *)
Lemma apart_live p n L a :
  Forall (fun '(q, m) => apart p n q m) L -> live_in L a -> ~ (p <= a < p + n).
Proof.
  intros Hap (x & Hx & Ha)%Exists_exists. rewrite Forall_forall in Hap.
  destruct x as [q m]. specialize (Hap _ Hx). unfold apart in Hap. lia.
Qed.

Section Correctness.
Context {State : Type} `{AllocLaws State}.
Variable rnd : nat -> Z.

(** A live slot records its block: [data] is [addr], the size is
    positive and [crc] is the XOR of its words. *)
Definition slot_inv (st : State) (b : slot) : Prop :=
  s_addr b <> NULL ->
  s_data b = s_addr b /\ 0 < s_size b /\ s_crc b = sum_block st (s_addr b) (s_size b).

(** The slots: 16 of them, live pointers distinct, each recording its
    block. *)
Definition slots_ok (st : State) (bs : list slot) : Prop :=
  length bs = 16%nat /\ NoDup (fst <$> live_slots bs) /\ Forall (slot_inv st) bs.

Lemma verify_ok st bs : Forall (slot_inv st) bs -> verify st bs = true.
Proof.
  intros Hb. unfold verify. apply forallb_forall. intros b Hin%list_elem_of_In.
  rewrite Forall_forall in Hb. specialize (Hb b Hin). unfold slot_ok.
  destruct (Z.eqb_spec (s_addr b) NULL) as [|Hn]; [done|].
  destruct (Hb Hn) as (-> & _ & ->). simpl. apply Z.eqb_refl.
Qed.

(** The checksums survive when the words of the live blocks do. *)
Lemma slots_kept st st' bs :
  (forall a, live_in (live_slots bs) a -> load st' a = load st a) ->
  Forall (slot_inv st) bs -> Forall (slot_inv st') bs.
Proof.
  intros Ha Hb. rewrite Forall_forall in Hb |- *. intros b Hin Hn.
  destruct (Hb b Hin Hn) as (Hd & Hs & Hc). split_and!; [done|done|].
  rewrite Hc. symmetry. apply sum_block_kept; [lia|]. intros a Hr. apply Ha.
  apply Exists_exists. exists (s_addr b, s_size b). split; [by apply live_slots_elem|done].
Qed.

(** Lines 147-155 fill the [cnt] words from [data + 4 n] with the next
    values of [rand()], read back as the XOR they return, and change no
    other word. *)
Lemma fill_spec st L data n k cnt sum :
  heap st L -> (forall j, (n <= j < n + cnt)%nat -> live_in L (data + 4 * Z.of_nat j)) ->
  let '(st', k', sum') := fill rnd st data n k cnt sum in
  heap st' L /\ k' = (k + cnt)%nat /\ sum' = sum_loop st' data n cnt sum /\
  (forall a, (forall j, (n <= j < n + cnt)%nat -> a <> data + 4 * Z.of_nat j) -> load st' a = load st a) /\
  (forall q, release_safe st q -> release_safe st' q).
Proof.
  revert st n k sum. induction cnt as [|c IH]; intros st n k sum Hh Hl; simpl.
  { split_and!; auto; lia. }
  destruct (store_spec st L (data + 4 * Z.of_nat n) (wrap32 (rnd k)) Hh ltac:(apply Hl; lia))
    as (Hh1 & Hrd & Hoth & Hsafe).
  specialize (IH (store st (data + 4 * Z.of_nat n) (wrap32 (rnd k))) (S n) (S k)
                 (Z.lxor sum (wrap32 (rnd k))) Hh1 ltac:(intros j ?; apply Hl; lia)).
  destruct (fill rnd _ data (S n) (S k) c _) as [[st' k'] sum'].
  destruct IH as (Hh' & -> & -> & Hkeep & Hsafe'). split_and!; [done|lia| | |auto].
  - f_equal. rewrite Hkeep, Hrd; [done|]. intros j ? ?. lia.
  - intros a Ha. rewrite Hkeep by (intros j ?; apply Ha; lia). apply Hoth. apply Ha. lia.
Qed.

Lemma live_slots_pos st bs :
  Forall (slot_inv st) bs -> Forall (fun '(_, m) => 0 < m) (live_slots bs).
Proof.
  intros Hb. apply Forall_forall. intros [q m] Hin.
  apply list_elem_of_fmap in Hin as (b & [= -> ->] & Hin).
  apply list_elem_of_filter in Hin as [Hn Hin]. rewrite Forall_forall in Hb.
  by destruct (Hb b Hin Hn) as (_ & ? & _).
Qed.

(** Lines 121-166, when the drawn size passes the sanity check and the
    slot of the clock is empty: the allocation fails the test, or the
    new block is recorded in that slot with its checksum, the other
    blocks keep theirs and may each be freed. *)
Lemma alloc_block_spec es b0 :
  heap (ex_mem es) (live_slots (blocks es)) -> slots_ok (ex_mem es) (blocks es) ->
  blocks es !! Z.to_nat (clock es) = Some b0 -> s_addr b0 = NULL ->
  0 < size_draw (total es) (rnd (draws es)) < 24 * 1024 * 1024 ->
  (exists st', alloc_block rnd es = Some (inl (AllocFailed, st'))) \/
  exists es1, alloc_block rnd es = Some (inr es1) /\
    heap (ex_mem es1) (live_slots (blocks es1)) /\ slots_ok (ex_mem es1) (blocks es1) /\
    clock es1 = clock es /\
    total es1 = wrap32 (total es + size_draw (total es) (rnd (draws es))) /\
    draws es1 = (S (draws es) + Z.to_nat (Z.shiftr (size_draw (total es) (rnd (draws es))) 2))%nat /\
    book (blocks es1) =
      <[Z.to_nat (clock es) := Some (size_draw (total es) (rnd (draws es)))]> (book (blocks es)) /\
    (forall i b, i <> Z.to_nat (clock es) -> blocks es1 !! i = Some b -> s_addr b <> NULL ->
       release_safe (ex_mem es1) (s_addr b)).
Proof.
  destruct es as [st bs c tot k]; simpl. intros Hh (Hlen & Hnd & Hinv) Hb0 Hn0 Hsz.
  set (sz := size_draw tot (rnd k)) in *. set (L := live_slots bs) in *.
  unfold alloc_block; simpl. fold sz.
  rewrite (proj2 (Z.ltb_lt 0 sz)), (proj2 (Z.ltb_lt sz _)) by lia. simpl.
  destruct (alloc_spec st L sz Hh ltac:(unfold W; lia))
    as (st1 & p & Ha & [(-> & _) | (Hp & Hp8 & Hh1 & Hap & Hfr & Hsafe)]); rewrite Ha;
    [left; by eexists|right].
  rewrite (proj2 (Z.eqb_neq _ _) Hp), land7_aligned by done. simpl.
  pose proof (fill_spec st1 ((p, sz) :: L) p 0 (S k) (Z.to_nat (Z.shiftr sz 2)) 0 Hh1) as Hf.
  destruct (fill rnd st1 p 0 (S k) _ 0) as [[st2 k2] crc].
  destruct Hf as (Hh2 & -> & Hcrc & Hkeep & Hsafe2).
  { intros j Hj. apply Exists_cons. left. apply sum_block_range; lia. }
  assert (Hold : forall a, live_in L a -> load st2 a = load st a).
  { intros a Ha'. rewrite Hkeep; [by apply Hfr|]. intros j Hj ->.
    apply (apart_live p sz L _ Hap Ha'). apply sum_block_range; lia. }
  pose proof (live_slots_set bs (Z.to_nat c) b0 (Slot p p sz crc) Hb0 Hn0 Hp) as HP. simpl in HP.
  eexists. split; [reflexivity|]. simpl. unfold slots_ok. split_and!.
  - by rewrite HP.
  - by rewrite length_insert.
  - rewrite HP. simpl. apply NoDup_cons. split; [|done].
    intros (x & -> & Hx)%list_elem_of_fmap. destruct x as [q m]. simpl.
    pose proof (live_slots_pos st bs Hinv) as Hpos. rewrite Forall_forall in Hap, Hpos.
    specialize (Hap _ Hx). specialize (Hpos _ Hx). simpl in *. unfold apart in Hap. lia.
  - apply Forall_insert; [by apply (slots_kept st st2 bs)|].
    intros _. simpl. split_and!; [done|lia|exact Hcrc].
  - done.
  - done.
  - lia.
  - rewrite book_insert. simpl. by rewrite (proj2 (Z.eqb_neq _ _) Hp).
  - intros i b Hi Hb Hn. rewrite list_lookup_insert_ne in Hb by done.
    apply Hsafe2. rewrite Forall_forall in Hsafe.
    exact (Hsafe _ (live_slots_elem bs b (list_elem_of_lookup_2 _ _ _ Hb) Hn)).
Qed.

(** Lines 168-216, when the block of the next slot may be freed: every
    check passes, the clock moves, and that slot is emptied. *)
Lemma free_block_spec es :
  heap (ex_mem es) (live_slots (blocks es)) -> slots_ok (ex_mem es) (blocks es) ->
  0 <= clock es < 16 ->
  (forall b, blocks es !! Z.to_nat (Z.land (clock es + 1) 15) = Some b -> s_addr b <> NULL ->
     release_safe (ex_mem es) (s_addr b)) ->
  exists es2, free_block es = Some (inr es2) /\
    heap (ex_mem es2) (live_slots (blocks es2)) /\ slots_ok (ex_mem es2) (blocks es2) /\
    clock es2 = Z.land (clock es + 1) 15 /\ draws es2 = draws es /\
    (exists b, blocks es2 !! Z.to_nat (clock es2) = Some b /\ s_addr b = NULL) /\
    match book (blocks es) !! Z.to_nat (clock es2) with
    | Some (Some m) => book (blocks es2) = <[Z.to_nat (clock es2) := None]> (book (blocks es)) /\
                       total es2 = wrap32 (total es - m)
    | _ => book (blocks es2) = book (blocks es) /\ total es2 = total es
    end.
Proof.
  destruct es as [st bs c tot k]; simpl. intros Hh (Hlen & Hnd & Hinv) Hc Hsafe.
  unfold free_block; simpl. rewrite verify_ok by done. simpl.
  set (cl := Z.land (c + 1) 15) in *. destruct (clock_next c Hc) as [Hcl _].
  destruct (lookup_lt_is_Some_2 bs (Z.to_nat cl) ltac:(lia)) as [b Hb].
  assert (Hbk : book bs !! Z.to_nat cl = Some (if s_addr b =? NULL then None else Some (s_size b)))
    by (unfold book; by rewrite list_lookup_fmap, Hb).
  rewrite Hb. destruct (Z.eqb_spec (s_addr b) NULL) as [Hn | Hn].
  { eexists. split; [reflexivity|]. simpl. rewrite Hbk. split_and!; try done. by exists b. }
  set (b' := Slot NULL (s_data b) (s_size b) (s_crc b)).
  pose proof (live_slots_clear bs (Z.to_nat cl) b b' Hb Hn eq_refl) as HP.
  destruct (release_spec st (live_slots bs) (s_addr b) (s_size b) Hh ltac:(rewrite HP; left))
    as (st1 & Hrel & Hfr & Hh1). rewrite Hrel.
  pose proof (drop_ptr_live _ _ _ _ HP Hnd) as Hdrop.
  assert (Hinv1 : Forall (slot_inv st1) (<[Z.to_nat cl := b']> bs)).
  { apply (slots_kept st); [intros a Ha; apply Hfr; by rewrite Hdrop|].
    apply Forall_insert; [done|]. by intros []. }
  rewrite verify_ok by done. simpl.
  eexists. split; [reflexivity|]. simpl. unfold slots_ok. split_and!.
  - rewrite <- Hdrop. apply Hh1, Hsafe; done.
  - by rewrite length_insert.
  - rewrite HP in Hnd. simpl in Hnd. by apply NoDup_cons in Hnd as [_ ?].
  - done.
  - done.
  - done.
  - exists b'. split; [|done]. apply list_lookup_insert_eq. lia.
  - rewrite Hbk. split; [|done]. rewrite book_insert. done.
Qed.

(** The state at the start of an iteration: the blocks recorded, the
    clock on an empty slot. *)
Definition ex_inv (es : ex_state State) : Prop :=
  heap (ex_mem es) (live_slots (blocks es)) /\ slots_ok (ex_mem es) (blocks es) /\
  0 <= clock es < 16 /\
  exists b, blocks es !! Z.to_nat (clock es) = Some b /\ s_addr b = NULL.

Lemma iterate_spec n es :
  ex_inv es -> sched_ok rnd n (book (blocks es)) (clock es) (total es) (draws es) = true ->
  (exists st', iterate rnd n es = Some (inl (AllocFailed, st'))) \/
  exists es', iterate rnd n es = Some (inr es') /\ ex_inv es'.
Proof.
  revert es. induction n as [|n IH]; intros es (Hh & Hok & Hc & b0 & Hb0 & Hn0) Hs;
    [right; eexists; split; [reflexivity|]; split_and!; [done|done|lia|lia|by exists b0]|].
  simpl in Hs. set (sz := size_draw (total es) (rnd (draws es))) in *.
  lazymatch type of Hs with (if ?g then _ else _) = _ => destruct g eqn:Eg; [|discriminate] end.
  apply andb_true_iff in Eg as [E1 E2]. apply Z.ltb_lt in E1, E2.
  destruct (alloc_block_spec es b0 Hh Hok Hb0 Hn0 ltac:(lia))
    as [(st' & Hf) | (es1 & Ha & Hh1 & Hok1 & Hc1 & Ht1 & Hk1 & Hbk1 & Hsafe1)];
    [left; exists st'; simpl; unfold iteration; by rewrite Hf|].
  destruct (clock_next (clock es) Hc) as [Hcl Hne].
  destruct (free_block_spec es1 Hh1 Hok1 ltac:(lia)) as (es2 & Hf & Hh2 & Hok2 & Hc2 & Hk2 & He2 & Hbk2).
  { rewrite Hc1. intros b Hb Hn. apply (Hsafe1 (Z.to_nat (Z.land (clock es + 1) 15))); [lia|done|done]. }
  assert (Hit : iterate rnd (S n) es = iterate rnd n es2)
    by (simpl; unfold iteration; rewrite Ha; simpl; by rewrite Hf).
  rewrite Hit. apply IH; [unfold ex_inv; split_and!; [done|done|rewrite Hc2, Hc1; lia|rewrite Hc2, Hc1; lia|done]|].
  rewrite Hc1 in Hc2. fold sz in Ht1, Hk1, Hbk1. rewrite <- Hbk1 in Hs.
  rewrite Hc2 in Hbk2 |- *. rewrite Hk2, Hk1.
  destruct (book (blocks es1) !! _) as [[m|]|]; destruct Hbk2 as [-> ->]; by rewrite ?Ht1.
Qed.

(** Lines 219-233: every block left passes its check and is freed, even
    when the frees are not safe for later allocations. *)
Lemma final_frees_spec st bs :
  held st (live_slots bs) -> NoDup (fst <$> live_slots bs) -> Forall (slot_inv st) bs ->
  exists st', final_frees st bs = Some (Passed, st').
Proof.
  revert st. induction bs as [|b bs IH]; intros st Hh Hnd Hinv; [by eexists|].
  apply Forall_cons in Hinv as [Hb Hinv]. rewrite live_slots_cons, live_slots_single in Hh, Hnd.
  simpl. destruct (Z.eqb_spec (s_addr b) NULL) as [Hn | Hn].
  { rewrite decide_True in Hh, Hnd by done. by apply IH. }
  rewrite decide_False in Hh, Hnd by done. destruct (Hb Hn) as (-> & _ & <-).
  rewrite Z.eqb_refl. simpl.
  destruct (release_held st _ (s_addr b) (s_size b) Hh ltac:(left)) as (st1 & Hrel & Hfr & Hh1).
  rewrite Hrel. pose proof (drop_ptr_live _ (live_slots bs) _ _ (reflexivity _) Hnd) as Hdrop.
  simpl in Hnd. apply NoDup_cons in Hnd as [_ Hnd].
  apply IH; [by rewrite <- Hdrop|done|].
  apply (slots_kept st); [|done]. intros a Ha. apply Hfr. by rewrite Hdrop.
Qed.

(** The whole test against the interface: when no drawn size fails the
    sanity check, it passes, or it reports a failed allocation. *)
Lemma exerciser_spec st :
  heap st [] -> sched_ok rnd 1000 (replicate 16 None) 0 0 0 = true ->
  exists v st', test_memory_exerciser rnd st = Some (v, st') /\ (v = Passed \/ v = AllocFailed).
Proof.
  intros Hh Hs. unfold test_memory_exerciser.
  assert (H0 : ex_inv (ExState st (replicate 16 (Slot NULL 0 0 0)) 0 0 0))
.
  { assert (E : live_slots (replicate 16 (Slot NULL 0 0 0)) = []) by reflexivity.
    unfold ex_inv, slots_ok; cbn [blocks ex_mem clock]; rewrite E. split_and!; [exact Hh|done|constructor| |lia|lia|by eexists].
    apply Forall_replicate. intros Hn. by destruct Hn. }
  destruct (iterate_spec 1000 _ H0 Hs) as [(st' & ->) | (es & -> & Hh' & (_ & Hnd & Hinv) & _)].
  - exists AllocFailed, st'. split; [done|by right].
  - destruct (final_frees_spec (ex_mem es) (blocks es)) as (st' & ->); [by apply heap_held|done|done|].
    exists Passed, st'. split; [done|by left].
Qed.

End Correctness.

(** ** The running total

    Whatever the allocator does, [total_memory_size] is the sum of the
    sizes of the live slots, each below [2^19]; with at most 16 of them
    it stays below [2^23], so neither the subtraction of line 122, nor
    the addition of line 159, nor the subtraction of line 195 wraps. *)

Lemma size_draw_range total r : 0 <= size_draw total r < 2 ^ 19.
Proof.
  unfold size_draw, wrap32, U32.
  pose proof (Z.mod_pos_bound (wrap32 (24 * 1024 * 1024 - total) * Z.land r (1024 * 1024 - 1)) (2 ^ 32)).
  unfold wrap32, U32 in *. split; [apply Z.div_pos; lia|]. apply Z.div_lt_upper_bound; lia.
Qed.

(** The sum of the sizes of a list of live blocks. *)
Definition sum_sizes (L : list (Z * Z)) : Z := foldr Z.add 0 (snd <$> L).

#[export] Instance sum_sizes_proper : Proper ((≡ₚ) ==> (=)) sum_sizes.
Proof.
  intros L L' HL. unfold sum_sizes. induction HL as [|x L L' _ IH|x y L|L1 L2 L3 _ IH1 _ IH2];
    rewrite ?fmap_cons; cbn [foldr]; lia.
Qed.

Lemma sum_sizes_bound L :
  Forall (fun '(_, m) => 0 <= m < 2 ^ 19) L -> 0 <= sum_sizes L <= Z.of_nat (length L) * (2 ^ 19 - 1).
Proof.
  induction 1 as [|[q m] L Hm _ IH]; unfold sum_sizes in *; [simpl; lia|].
  rewrite fmap_cons. cbn [foldr length snd]. lia.
Qed.

Lemma live_slots_length bs : (length (live_slots bs) <= length bs)%nat.
Proof. unfold live_slots. rewrite length_fmap. apply length_filter. Qed.

Section Bookkeeping.
Context {State : Type} `{AllocOps State}.
Variable rnd : nat -> Z.

(** The bookkeeping of the loop at the start of an iteration. *)
Definition total_inv (es : ex_state State) : Prop :=
  length (blocks es) = 16%nat /\ 0 <= clock es < 16 /\
  (exists b, blocks es !! Z.to_nat (clock es) = Some b /\ s_addr b = NULL) /\
  Forall (fun '(_, m) => 0 <= m < 2 ^ 19) (live_slots (blocks es)) /\
  total es = sum_sizes (live_slots (blocks es)).

Lemma total_inv_bound es : total_inv es -> 0 <= total es < 2 ^ 23.
Proof.
  intros (Hlen & _ & _ & Hf & ->). pose proof (sum_sizes_bound _ Hf).
  pose proof (live_slots_length (blocks es)). rewrite Hlen in *. lia.
Qed.

Lemma total_inv_iteration es es' :
  total_inv es -> iteration rnd es = Some (inr es') -> total_inv es'.
Proof.
  intros Hi Hit. pose proof (total_inv_bound es Hi) as Htot.
  destruct es as [st bs c tot k]; destruct Hi as (Hlen & Hc & (b0 & Hb0 & Hn0) & Hf & Htot'); simpl in *.
  pose proof (size_draw_range tot (rnd k)) as Hsz.
  unfold iteration, alloc_block in Hit; simpl in Hit. rewrite Hb0 in Hit. simpl in Hit.
  set (sz := size_draw tot (rnd k)) in *.
  (* the state after lines 121-166 *)
  assert (Hmid : exists st1 bs1 tot1 k1, free_block (ExState st1 bs1 c tot1 k1) = Some (inr es') /\
            length bs1 = 16%nat /\ Forall (fun '(_, m) => 0 <= m < 2 ^ 19) (live_slots bs1) /\
            tot1 = sum_sizes (live_slots bs1) /\ 0 <= tot1 < 2 ^ 23 + 2 ^ 19).
  { destruct ((0 <? sz) && (sz <? 24 * 1024 * 1024)) eqn:Eg.
    - apply andb_true_iff in Eg as [Eg _]. apply Z.ltb_lt in Eg.
      destruct (alloc st sz) as [[st1 a]|]; [|discriminate].
      destruct (Z.eqb_spec a NULL) as [|Ha]; [discriminate|].
      destruct (negb (Z.land a 7 =? 0)); [discriminate|].
      destruct (fill rnd st1 a 0 (S k) _ 0) as [[st2 k2] crc]. simpl in Hit.
      pose proof (live_slots_set bs (Z.to_nat c) b0 (Slot a a sz crc) Hb0 Hn0 Ha) as HP.
      simpl in HP. do 4 eexists. split; [exact Hit|]. rewrite HP, length_insert.
      unfold sum_sizes in *. rewrite fmap_cons. cbn [foldr snd].
      unfold wrap32, U32. rewrite Z.mod_small by lia.
      split_and!; [done|constructor; [lia|done]|lia|lia|lia].
    - simpl in Hit. do 4 eexists. split; [exact Hit|].
      pose proof (live_slots_insert bs (Z.to_nat c) b0 (Slot NULL (s_data b0) sz (s_crc b0)) Hb0) as HP.
      rewrite !live_slots_single in HP. repeat case_decide; try tauto. rewrite !app_nil_r in HP.
      rewrite HP, length_insert. split_and!; [done|done|done|lia|lia]. }
  clear Hit. destruct Hmid as (st1 & bs1 & tot1 & k1 & Hfree & Hlen1 & Hf1 & Htot1 & Hr1).
  destruct (clock_next c Hc) as [Hcl _].
  unfold free_block in Hfree; simpl in Hfree. destruct (verify st1 bs1); [|discriminate]. simpl in Hfree.
  destruct (lookup_lt_is_Some_2 bs1 (Z.to_nat (Z.land (c + 1) 15)) ltac:(lia)) as [b Hb].
  rewrite Hb in Hfree. destruct (Z.eqb_spec (s_addr b) NULL) as [Hn | Hn].
  - injection Hfree as <-. split_and!; simpl; try done; [lia|lia|by exists b].
  - destruct (release st1 (s_addr b)) as [st2|]; [|discriminate].
    destruct (verify st2 _); [|discriminate]. injection Hfree as <-.
    set (b' := Slot NULL (s_data b) (s_size b) (s_crc b)).
    pose proof (live_slots_clear bs1 _ b b' Hb Hn eq_refl) as HP.
    rewrite HP in Hf1, Htot1. apply Forall_cons in Hf1 as [Hm Hf1].
    unfold sum_sizes in Htot1. rewrite fmap_cons in Htot1. cbn [foldr snd fst] in Htot1.
    split_and!; simpl; [by rewrite length_insert|lia|lia| |done|].
    + exists b'. split; [apply list_lookup_insert_eq; lia|done].
    + unfold wrap32, U32, sum_sizes. pose proof (sum_sizes_bound _ Hf1). unfold sum_sizes in *.
      rewrite Z.mod_small; lia.
Qed.

Lemma iterate_total_inv n es es' :
  total_inv es -> iterate rnd n es = Some (inr es') -> total_inv es'.
Proof.
  revert es. induction n as [|n IH]; intros es Hi Hit; simpl in Hit; [by injection Hit as <-|].
  unfold obind in Hit at 1. destruct (iteration rnd es) as [[|es1]|] eqn:E; try discriminate.
  exact (IH es1 (total_inv_iteration es es1 Hi E) Hit).
Qed.

End Bookkeeping.

(** ** Theorems *)

(** C19: Because the product of line 122 is computed in [uint32_t] and
    wraps, every drawn size is below [2^19] (512 KiB), whatever the total
    and [rand()]: the bound [size < 24 MiB] of the sanity check at line
    126 never fails, and the sizes are far from the 24 MiB the formula
    means to spread. *)
Theorem size_draw_bound total r : 0 <= size_draw total r < 2 ^ 19.
Proof. exact (size_draw_range total r). Qed.

(** C20: On the first iteration ([total_memory_size = 0]) the drawn size
    is 0, and no block is allocated, exactly when the low 20 bits of
    [rand()] are a multiple of 512: the product [24 MiB * r] wraps to
    less than 8192. One draw in 512 skips its allocation, and the
    iteration still frees a block. *)
Theorem size_draw_zero_first r :
  size_draw 0 r = 0 <-> Z.land r (1024 * 1024 - 1) mod 512 = 0.
Proof.
  unfold size_draw, wrap32, U32.
  assert (Hr : 0 <= Z.land r (1024 * 1024 - 1) < 2 ^ 20).
  { change (1024 * 1024 - 1) with (Z.ones 20). rewrite Z.land_ones by lia.
    apply Z.mod_pos_bound. lia. }
  generalize dependent (Z.land r (1024 * 1024 - 1)). intros x Hx.
  rewrite (Z.mod_small (24 * 1024 * 1024 - 0)) by lia.
  split; intros Hz; Z.div_mod_to_equations; lia.
Qed.

(** C24: The running total of the exerciser never wraps. Whatever the
    allocator and [rand()] do, at the start of every iteration the main
    loop reaches, [total_memory_size] is the sum of the sizes of the live
    blocks, and it lies below [2^23] (8 MiB): [24 MiB - total] on line 122,
    [total + size] on line 159 and [total - size] on line 195 are exact
    in [uint32_t]. *)
Theorem exerciser_total_bound {State} `{AllocOps State} rnd st n es :
  iterate rnd n (ExState st (replicate 16 (Slot NULL 0 0 0)) 0 0 0) = Some (inr es) ->
  total es = sum_sizes (live_slots (blocks es)) /\ 0 <= total es < 2 ^ 23.
Proof.
  intros Hit. assert (H0 : total_inv (ExState st (replicate 16 (Slot NULL 0 0 0)) 0 0 0)).
  { assert (E : live_slots (replicate 16 (Slot NULL 0 0 0)) = []) by reflexivity.
    unfold total_inv. cbn [blocks clock total]. rewrite E.
    split_and!; [done|lia|lia|by eexists|constructor|done]. }
  pose proof (iterate_total_inv rnd n _ es H0 Hit) as Hi.
  split; [apply Hi|exact (total_inv_bound es Hi)].
Qed.
