(* ===== verification/MmInstance.v ===== *)
(** * MmInstance: [mm.c] implements the allocator interface

    [simple_malloc] and [simple_free] of a fixed arena, with the client's
    reads and writes of payload words, are an instance of [AllocOps]. The
    heap predicate [mm_heap] says that the allocator is uninitialised with
    nothing allocated, or that the invariant [mm_inv] holds and each live
    allocation [(p, n)] is a used block at [p - HDR] with at least [n]
    bytes; [release_safe] is [keeps_cursor]; the weak predicate [mm_held]
    drops the cursor from the invariant, which every release keeps. The
    laws of [AllocLaws] are theorems of this file, so every theorem proved
    against the interface ([Client.main_spec], [Exerciser.exerciser_spec])
    holds of [mm.c]. *)

From Stdlib Require Import ZArith Lia.
From stdpp Require Import base list gmap.
From S2P Require Import Prelude Machine Ledger SimpleInit NextFit Malloc Free Allocator Interface Client Exerciser.

Open Scope Z_scope.
Open Scope mm_scope.

#[export] Instance mm_ops (ar : arena) : AllocOps mm_state := {|
  alloc := simple_malloc ar;
  release := simple_free ar;
  load st a := rd (mem st) a;
  store st a v := set_mem st (<[a := v]> (mem st));
|}.

(** The live allocation [(p, n)] is a used block of the list with room for
    [n] bytes. *)
Definition entry (l : list block) (s : Z) (e : Z * Z) : Prop :=
  let '(p, n) := e in
  0 <= n /\ exists N, (Block (p - HDR) false, N) ∈ sized l s /\ p + n <= N.

Definition mm_heap (ar : arena) (st : mm_state) (L : list (Z * Z)) : Prop :=
  (first st = NULL /\ L = []) \/ exists l s, mm_inv ar st l s /\ Forall (entry l s) L.

(** What survives any release: the ledger and the arena span, without
    the cursor. *)
Definition mm_held (ar : arena) (st : mm_state) (L : list (Z * Z)) : Prop :=
  (first st = NULL /\ L = []) \/
  exists l s, ledger st l s /\ spans ar l s /\ Forall (entry l s) L.

(** ** Facts on the live allocations *)

Lemma entry_live l s L a : Forall (entry l s) L -> live_in L a -> live_at l s a.
Proof.
  intros HL Ha. apply Exists_exists in Ha as ([p n] & Hin & Ha).
  rewrite Forall_forall in HL. destruct (HL _ Hin) as (_ & N & HN & Hle).
  apply (sized_live l s (p - HDR) N); [done|mlia].
Qed.

(** A free block is none of the live allocations. *)
Lemma entry_fresh l s L p N0 :
  layout l s -> (Block (p - HDR) true, N0) ∈ sized l s -> Forall (entry l s) L ->
  Forall (fun '(q, _) => q <> p) L.
Proof.
  intros Hy Hin HL. rewrite Forall_forall in HL |- *. intros [q m] Hq ->.
  destruct (HL _ Hq) as (_ & Nq & Hinq & _).
  by destruct (sized_addr_unique l s _ _ _ _ Hy Hin Hinq eq_refl) as [[=] _].
Qed.

Lemma entry_keep_free L l l' s p :
  Forall (entry l s) L ->
  (forall b n, (b, n) ∈ sized l s -> bfree b = false -> addr b <> p - HDR -> (b, n) ∈ sized l' s) ->
  Forall (entry l' s) (drop_ptr p L).
Proof.
  intros HL Hk. rewrite Forall_forall in HL |- *. intros [q m] Hq.
  apply list_elem_of_filter in Hq as [Hqp Hq].
  destruct (HL _ Hq) as (Hm & N & Hin & Hle). split; [done|].
  exists N. split; [|done]. apply Hk; [done|done|simpl; lia].
Qed.

(** ** The laws *)

Section Laws.
Context (ar : arena) (Hwf : arena_wf ar).

(** An allocation on an initialised state. *)
Lemma mm_alloc_ready st l s L n :
  mm_inv ar st l s -> Forall (entry l s) L -> 0 <= n <= W - 8 ->
  exists st' p, malloc_search ar st n = Some (st', p) /\
   ((p = NULL /\ st' = st) \/
    (p <> NULL /\ p mod 8 = 0 /\ exists l', mm_inv ar st' l' s /\ Forall (entry l' s) ((p, n) :: L) /\
      Forall (fun '(q, m) => apart p n q m) L /\
      (forall a, live_in L a -> rd (mem st') a = rd (mem st) a) /\
      Forall (fun '(q, _) => keeps_cursor ar st' q) L)).
Proof.
  intros Hi HL Hn. pose proof Hi as (Hl & Hc & Hsp).
  pose proof (malloc_search_refines ar st l s n Hl Hc Hsp Hn) as H.
  pose proof (request_size_spec n Hn) as (_ & _ & Hreq & _).
  destruct (malloc_spec _ l s (current st)) as [[[l' p] c]|] eqn:E;
    [|exists st, NULL; split; [done|by left]].
  destruct H as (st' & Hm & Hc' & Hl' & Hfr).
  destruct (malloc_spec_block _ _ _ _ _ _ _ E) as [(N0 & Hin0 & _) (N & Hin & Hfit)].
  pose proof (entry_fresh l s L p N0 (lg_layout _ _ _ Hl) Hin0 HL) as Hfresh.
  destruct (sized_layout l s _ N0 (lg_layout _ _ _ Hl) Hin0) as (Hal & _ & Hlow & _).
  pose proof (lg_low _ _ _ Hl). rewrite (lg_first _ _ _ Hl) in *. simpl in Hlow.
  unfold bsize in Hfit. simpl in Hfit.
  assert (Hi' : mm_inv ar st' l' s).
  { split_and!; [done| |].
    - unfold cursor_ok. rewrite Hc'. by eapply malloc_spec_cursor.
    - unfold malloc_search in Hm. apply search_first in Hm.
      exact (spans_transfer ar st st' l l' s Hl Hl' Hm Hsp). }
  assert (HL' : Forall (entry l' s) L).
  { rewrite Forall_forall in HL |- *. intros [q m] Hq.
    destruct (HL _ Hq) as (? & Nq & ? & ?). split; [done|]. exists Nq. split; [|done].
    by apply (malloc_spec_keeps_used _ _ _ _ _ _ _ E). }
  exists st', p. split; [done|]. right. split; [mlia|].
  split; [revert Hal; simpl; unfold HDR; intros; Z.div_mod_to_equations; lia|].
  exists l'. split_and!.
  - done.
  - constructor; [|done]. split; [lia|]. exists N. split; [done|lia].
  - rewrite Forall_forall in HL', Hfresh |- *. intros [q m] Hq.
    destruct (HL' _ Hq) as (_ & Nq & Hinq & Hle). specialize (Hfresh _ Hq). simpl in Hfresh.
    destruct (layout_disjoint l' s (lg_layout _ _ _ Hl') _ _ _ _ Hinq Hin ltac:(simpl; lia))
      as [Hd | Hd]; simpl in Hd; unfold apart; mlia.
  - intros a Ha. by apply Hfr, (entry_live l s L).
  - rewrite Forall_forall in Hfresh |- *. intros [q m] Hq l2 s2 Hi2.
    destruct (mm_inv_unique _ _ _ _ _ _ Hi' Hi2) as [<- <-]. rewrite Hc'.
    apply (malloc_spec_release_safe _ _ _ _ _ _ _ (q - HDR) E).
    specialize (Hfresh _ Hq). simpl in Hfresh. lia.
Qed.

Lemma mm_alloc_spec st L n :
  mm_heap ar st L -> 0 <= n <= W - 8 ->
  exists st' p, simple_malloc ar st n = Some (st', p) /\
    ((p = NULL /\ mm_heap ar st' L /\ (forall a, live_in L a -> rd (mem st') a = rd (mem st) a)) \/
     (p <> NULL /\ p mod 8 = 0 /\ mm_heap ar st' ((p, n) :: L) /\
      Forall (fun '(q, m) => apart p n q m) L /\
      (forall a, live_in L a -> rd (mem st') a = rd (mem st) a) /\
      Forall (fun '(q, _) => keeps_cursor ar st' q) L)).
Proof.
  intros [(H0 & ->) | (l & s & Hi & HL)] Hn.
  - destruct (decide (arena_big ar)) as [Hb | Hb].
    + pose proof (simple_init_inv ar st Hwf Hb H0) as Hi.
      rewrite simple_malloc_uninit, simple_malloc_ready
        by first [done | eapply ledger_ready, (proj1 Hi)].
      destruct (mm_alloc_ready _ _ _ [] n Hi (Forall_nil_2 _) Hn)
        as (st' & p & Hm & [(-> & ->) | (Hp & Hp8 & l' & Hi' & HL' & Hap & Hfr & Hk)]);
        eexists _, _; (split; [exact Hm|]).
      * left. split_and!; [done | unfold mm_heap; right; eexists _, _; split; [exact Hi | constructor] |].
        intros a Ha. inversion Ha.
      * right. split_and!; [done | done | unfold mm_heap; right; eexists l', _; split; [exact Hi' | exact HL'] | done | | done].
        intros a Ha. inversion Ha.
    + exists (simple_init ar st), NULL. unfold simple_malloc.
      rewrite H0, (simple_init_too_small ar st Hwf Hb H0). split; [done|].
      left. split_and!; [done | unfold mm_heap; left; split; [by apply simple_init_too_small | done] |].
      intros a Ha. inversion Ha.
  - rewrite simple_malloc_ready by (eapply ledger_ready, (proj1 Hi)).
    destruct (mm_alloc_ready _ _ _ L n Hi HL Hn)
      as (st' & p & Hm & [(-> & ->) | (Hp & Hp8 & l' & Hi' & HL' & Hap & Hfr & Hk)]);
      eexists _, _; (split; [exact Hm|]).
    + left. split_and!; [done | unfold mm_heap; right; by exists l, s | done].
    + right. split_and!; [done | done | unfold mm_heap; right; by exists l', s | done | done | done].
Qed.

(** A release of a live allocation on a state whose ledger holds: the
    ledger of [free_spec] with the same arena span, the cursor unmoved,
    the other allocations kept. *)
Lemma mm_release_core st l s L p n :
  ledger st l s -> spans ar l s -> Forall (entry l s) L -> (p, n) ∈ L ->
  exists st', simple_free ar st p = Some st' /\ current st' = current st /\
    ledger st' (free_spec (p - HDR) l) s /\ spans ar (free_spec (p - HDR) l) s /\
    Forall (entry (free_spec (p - HDR) l) s) (drop_ptr p L) /\
    (forall a, live_in (drop_ptr p L) a -> rd (mem st') a = rd (mem st) a).
Proof.
  intros Hl Hsp HL Hin. pose proof HL as HL0. rewrite Forall_forall in HL0.
  destruct (HL0 _ Hin) as (_ & N & HN & _).
  destruct (sized_elem_split l s _ _ HN) as (pre & post & Heq & _).
  destruct (simple_free_spec ar st l s pre (Block (p - HDR) false) post Hl Hsp Heq eq_refl)
    as (st' & Hf & Hc' & Hl' & Hfr). simpl in Hf. replace (p - HDR + HDR) with p in Hf by lia.
  pose proof (entry_keep_free L l (free_spec (p - HDR) l) s p HL
                (fun b n Hb Hu Hne => free_spec_keeps_used (p - HDR) l s b n Hb Hu Hne)) as HL'.
  exists st'. split_and!; try done.
  - exact (spans_transfer ar st st' l _ s Hl Hl' (simple_free_first ar st p st' Hf) Hsp).
  - intros a Ha. apply Hfr. by apply (entry_live _ _ (drop_ptr p L)).
Qed.

Lemma mm_release_spec st L p n :
  mm_heap ar st L -> (p, n) ∈ L ->
  exists st', simple_free ar st p = Some st' /\
    (forall a, live_in (drop_ptr p L) a -> rd (mem st') a = rd (mem st) a) /\
    (keeps_cursor ar st p -> mm_heap ar st' (drop_ptr p L)).
Proof.
  intros [(_ & ->) | (l & s & Hi & HL)] Hin; [by apply elem_of_nil in Hin|].
  pose proof Hi as (Hl & Hc & Hsp).
  destruct (mm_release_core st l s L p n Hl Hsp HL Hin) as (st' & Hf & Hc' & Hl' & Hsp' & HL' & Hfr).
  exists st'. split_and!; [done|done|]. intros Hk. unfold mm_heap. right.
  exists (free_spec (p - HDR) l), s. split; [|exact HL'].
  split_and!; [done| |done]. unfold cursor_ok. rewrite Hc'. apply (Hk l s Hi).
Qed.

Lemma mm_store_spec st L a v :
  mm_heap ar st L -> live_in L a ->
  mm_heap ar (set_mem st (<[a := v]> (mem st))) L /\
  rd (mem (set_mem st (<[a := v]> (mem st)))) a = v /\
  (forall b, b <> a -> rd (mem (set_mem st (<[a := v]> (mem st)))) b = rd (mem st) b) /\
  (forall q, keeps_cursor ar st q -> keeps_cursor ar (set_mem st (<[a := v]> (mem st))) q).
Proof.
  intros [(_ & ->) | (l & s & Hi & HL)] Ha; [by apply Exists_nil in Ha|].
  pose proof (entry_live l s L a HL Ha) as Hlive. destruct Hi as (Hl & Hc & Hsp).
  assert (Hi' : mm_inv ar (set_mem st (<[a := v]> (mem st))) l s)
    by (split_and!; [by apply ledger_store | done | done]).
  split_and!.
  - unfold mm_heap. right. by exists l, s.
  - apply rd_insert_eq.
  - intros b Hb. simpl. by apply rd_insert_ne.
  - intros q Hk l2 s2 Hi2. destruct (mm_inv_unique _ _ _ _ _ _ Hi' Hi2) as [<- <-].
    apply (Hk l s). split_and!; done.
Qed.

Lemma mm_heap_held st L : mm_heap ar st L -> mm_held ar st L.
Proof.
  intros [H | (l & s & (Hl & _ & Hsp) & HL)]; [by left|]. right. by exists l, s.
Qed.

Lemma mm_heap_perm st L L' : L ≡ₚ L' -> mm_heap ar st L -> mm_heap ar st L'.
Proof.
  intros HP [(H0 & ->) | (l & s & Hi & HL)].
  - left. split; [done|]. by apply Permutation_nil_r.
  - right. exists l, s. split; [done|]. by rewrite <- HP.
Qed.

Lemma mm_held_perm st L L' : L ≡ₚ L' -> mm_held ar st L -> mm_held ar st L'.
Proof.
  intros HP [(H0 & ->) | (l & s & Hl & Hsp & HL)].
  - left. split; [done|]. by apply Permutation_nil_r.
  - right. exists l, s. split_and!; [done|done|]. by rewrite <- HP.
Qed.

Lemma mm_release_held st L p n :
  mm_held ar st L -> (p, n) ∈ L ->
  exists st', simple_free ar st p = Some st' /\
    (forall a, live_in (drop_ptr p L) a -> rd (mem st') a = rd (mem st) a) /\
    mm_held ar st' (drop_ptr p L).
Proof.
  intros [(_ & ->) | (l & s & Hl & Hsp & HL)] Hin; [by apply elem_of_nil in Hin|].
  destruct (mm_release_core st l s L p n Hl Hsp HL Hin) as (st' & Hf & _ & Hl' & Hsp' & HL' & Hfr).
  exists st'. split_and!; [done|done|]. right. by exists (free_spec (p - HDR) l), s.
Qed.

End Laws.

#[export] Instance mm_laws (ar : arena) (Hwf : arena_wf ar) : @AllocLaws mm_state (mm_ops ar).
Proof.
  refine {| heap := mm_heap ar; release_safe := keeps_cursor ar; held := mm_held ar |}.
  - exact (mm_heap_held ar).
  - exact (mm_heap_perm ar).
  - exact (mm_held_perm ar).
  - exact (mm_alloc_spec ar Hwf).
  - exact (mm_release_spec ar).
  - exact (mm_release_held ar).
  - exact (mm_store_spec ar).
Defined.

(** ** [main.c] on [mm.c] *)

(** C4: The program [main.c] linked with [mm.c]. On a well-formed arena,
    starting with [first == NULL] (any memory, any cursor), [main] returns
    for every input shorter than [2^30] characters: either it prints the
    elements the list semantics [spec_loop] keeps, separated by commas and
    followed by [";\n"], and exits with 0; or an allocation failed and it
    exits with 1 having printed nothing. In particular the contents of the
    array survive every reallocation and release. *)
Theorem main_mm_correct ar st input :
  arena_wf ar -> first st = NULL -> Z.of_nat (length input) < 2 ^ 30 ->
  exists st' code out, @main mm_state (mm_ops ar) st input = Some (st', code, out) /\
    ((code = 0 /\ out = spec_output (spec_loop [] 0 input)) \/ (code = 1 /\ out = [])).
Proof.
  intros Hwf H0 Hlen.
  apply (@main_spec mm_state (mm_ops ar) (mm_laws ar Hwf)); [|done].
  by left.
Qed.

(** ** The memory exerciser of [check_mm.c] on [mm.c] *)

(** C21: The memory exerciser of [check_mm.c] run on [mm.c] from an
    uninitialised allocator. For every sequence of [rand()] values under
    which each of the 1000 iterations draws a size that passes the sanity
    check (when every allocation succeeds), it returns and either passes
    or fails only on an allocation that returned [NULL]: no block is ever
    misaligned or corrupted, neither before nor after a free, nor at the
    final frees. *)
Theorem exerciser_mm_passes ar st rnd :
  arena_wf ar -> first st = NULL -> sched_ok rnd 1000 (replicate 16 None) 0 0 0 = true ->
  exists v st', @test_memory_exerciser mm_state (mm_ops ar) rnd st = Some (v, st') /\
    (v = Passed \/ v = AllocFailed).
Proof.
  intros Hwf H0 Hs.
  apply (@exerciser_spec mm_state (mm_ops ar) (mm_laws ar Hwf)); [|done].
  by left.
Qed.
