(* ===== verification/Durability.v ===== *)
(** * Durability: what a client may rely on across its own calls

    The specification's content-durability property: bytes written into a
    live payload are unchanged by later allocations and releases of other
    blocks. [mm.c] does not keep it for every sequence of calls: a release
    can leave [current] on a header it absorbs, after which allocations
    overlap a live block ([Scenarios.dangling_cursor_overlap]). This file
    identifies a discipline under which it holds, whatever the allocator
    behind the interface: a client that releases only a block allocated
    before its latest successful allocation, and releases at most once
    between two successful allocations. The memory exerciser of
    [check_mm.c] follows it while no drawn size is 0 and no allocation
    fails, and the allocate, copy, release pattern of [main.c] follows
    it. The client and its discipline are the specification's, not code
    of the repository.

    A run is a relation [run_ok st L R cs st' L'] over the allocator state,
    the live allocations [L] and the allocations [R] that may be released
    next; its soundness is proved against [AllocLaws] and applied to
    [mm.c] through [MmInstance.mm_laws]. *)

From Stdlib Require Import ZArith Lia.
From stdpp Require Import base list.
From S2P Require Import Prelude Machine SimpleInit Interface MmInstance.

Open Scope Z_scope.

(** The calls of a client: allocate [n] bytes, release the pointer [p],
    write [v] at the payload address [a]. *)
Inductive cmd := CAlloc (n : Z) | CFree (p : Z) | CStore (a v : Z).

Section Runs.
Context {S : Type} `{AllocOps S}.

(** The runs of a disciplined client. [L]: the live allocations, newest
    first; [R]: those the client may release next, the ones that were live
    before the latest successful allocation, none after a release or a
    failed allocation. *)
Inductive run_ok : S -> list (Z * Z) -> list (Z * Z) -> list cmd -> S -> list (Z * Z) -> Prop :=
| run_done st L R : run_ok st L R [] st L
| run_alloc st L R n st1 p cs st' L' :
    0 <= n <= W - 8 -> alloc st n = Some (st1, p) -> p <> NULL ->
    run_ok st1 ((p, n) :: L) L cs st' L' -> run_ok st L R (CAlloc n :: cs) st' L'
| run_alloc_null st L R n st1 cs st' L' :
    0 <= n <= W - 8 -> alloc st n = Some (st1, NULL) ->
    run_ok st1 L [] cs st' L' -> run_ok st L R (CAlloc n :: cs) st' L'
| run_free st L R p n st1 cs st' L' :
    (p, n) ∈ R -> release st p = Some st1 ->
    run_ok st1 (drop_ptr p L) [] cs st' L' -> run_ok st L R (CFree p :: cs) st' L'
| run_store st L R a v cs st' L' :
    live_in L a -> run_ok (store st a v) L R cs st' L' -> run_ok st L R (CStore a v :: cs) st' L'.

(** The live allocations are pairwise apart: each is apart from the ones
    allocated before it. *)
Fixpoint disjoint_live (L : list (Z * Z)) : Prop :=
  match L with
  | [] => True
  | (p, n) :: L' => Forall (fun '(q, m) => apart p n q m) L' /\ disjoint_live L'
  end.

Lemma Forall_filter_sub {A} (P : A -> Prop) (Q : A -> Prop) `{!forall x, Decision (Q x)} l :
  Forall P l -> Forall P (filter Q l).
Proof. rewrite !Forall_forall. intros HP x [_ Hx]%list_elem_of_filter. by apply HP. Qed.

Lemma disjoint_live_filter (P : Z * Z -> Prop) `{!forall e, Decision (P e)} L :
  disjoint_live L -> disjoint_live (filter P L).
Proof.
  induction L as [|[p n] L IH]; [done|]. cbn [disjoint_live]. intros [Ha Hd].
  rewrite filter_cons. case_decide; [cbn [disjoint_live]; split; [by apply Forall_filter_sub|]|]; auto.
Qed.

(** Durability of a run from [st] to [st'] over the calls [cs]: every
    byte of a live allocation of [L] that [cs] neither releases nor
    writes is unchanged, and the allocation is still live. *)
Definition durable (st : S) (L : list (Z * Z)) (cs : list cmd) (st' : S) (L' : list (Z * Z)) : Prop :=
  forall p n a, (p, n) ∈ L -> p <= a < p + n -> CFree p ∉ cs -> (forall v, CStore a v ∉ cs) ->
    (p, n) ∈ L' /\ load st' a = load st a.

Lemma durable_done st L : durable st L [] st L.
Proof. by intros p n a Hin _ _ _. Qed.

(** One call [c] from [st] to [st1] that keeps the allocations it does
    not release and the bytes it does not write, followed by a durable
    run. *)
Lemma durable_step st L c cs st1 L1 st' L' :
  (forall q m, (q, m) ∈ L -> CFree q ∉ c :: cs -> (q, m) ∈ L1) ->
  (forall q m b, (q, m) ∈ L -> q <= b < q + m -> CFree q ∉ c :: cs ->
     (forall v, CStore b v ∉ c :: cs) -> load st1 b = load st b) ->
  durable st1 L1 cs st' L' -> durable st L (c :: cs) st' L'.
Proof.
  intros Hkeep Hload Hd q m b Hq Hb Hf Hst.
  destruct (Hd q m b (Hkeep q m Hq Hf) Hb) as [Hq' Heq];
    [intros ?; apply Hf; by right|intros v ?; apply (Hst v); by right|].
  split; [done|]. rewrite Heq. by apply (Hload q m).
Qed.

End Runs.

Section Sound.
Context {S : Type} `{AllocLaws S}.

(** Soundness of the discipline: a disciplined run keeps the heap
    predicate, keeps the live allocations pairwise apart and 8-aligned,
    and leaves every byte of a live allocation the run neither releases
    nor writes as it was. *)
Lemma run_ok_sound st L R cs st' L' :
  run_ok st L R cs st' L' ->
  heap st L -> disjoint_live L -> Forall (fun '(p, _) => p mod 8 = 0) L ->
  (forall e, e ∈ R -> e ∈ L) -> Forall (fun '(q, _) => release_safe st q) R ->
  heap st' L' /\ disjoint_live L' /\ Forall (fun '(p, _) => p mod 8 = 0) L' /\ durable st L cs st' L'.
Proof.
  induction 1 as [st L R|st L R n st1 p cs st' L' Hn Ha Hp _ IH|st L R n st1 cs st' L' Hn Ha _ IH
                 |st L R p n st1 cs st' L' Hin Hr _ IH|st L R a v cs st' L' Hlive _ IH];
    intros Hh Hd Hal HR Hs.
  - split_and!; auto using durable_done.
  - destruct (alloc_spec st L n Hh Hn) as (st1' & p' & Ha' & Hc).
    rewrite Ha in Ha'. injection Ha' as <- <-.
    destruct Hc as [(Hnull & _) | (_ & Hp8 & Hh1 & Hap & Hfr & Hs1)]; [done|].
    destruct (IH Hh1 (conj Hap Hd) ltac:(by constructor) (fun e He => list_elem_of_further _ _ _ He) Hs1)
      as (Hh' & Hd' & Hal' & Hdur).
    split_and!; [done..|]. refine (durable_step _ _ _ _ _ _ _ _ _ _ Hdur); [intros q m Hq _; by right|].
    intros q m b Hq Hb _ _. apply Hfr, Exists_exists. by exists (q, m).
  - destruct (alloc_spec st L n Hh Hn) as (st1' & p' & Ha' & Hc).
    rewrite Ha in Ha'. injection Ha' as <- <-.
    destruct Hc as [(_ & Hh1 & Hfr) | (Hp & _)]; [|done].
    destruct (IH Hh1 Hd Hal ltac:(intros e He; by apply elem_of_nil in He) (Forall_nil_2 _))
      as (Hh' & Hd' & Hal' & Hdur).
    split_and!; [done..|]. refine (durable_step _ _ _ _ _ _ _ _ _ _ Hdur); [done|].
    intros q m b Hq Hb _ _. apply Hfr, Exists_exists. by exists (q, m).
  - destruct (release_spec st L p n Hh (HR _ Hin)) as (st1' & Hr' & Hfr & Hsafe).
    rewrite Hr in Hr'. injection Hr' as <-.
    rewrite Forall_forall in Hs. specialize (Hs _ Hin). simpl in Hs.
    destruct (IH (Hsafe Hs) (disjoint_live_filter _ _ Hd) (Forall_filter_sub _ _ _ Hal)
                 ltac:(intros e He; by apply elem_of_nil in He) (Forall_nil_2 _))
      as (Hh' & Hd' & Hal' & Hdur).
    assert (Hkeep : forall q m, (q, m) ∈ L -> CFree q ∉ CFree p :: cs -> (q, m) ∈ drop_ptr p L).
    { intros q m Hq Hf. apply list_elem_of_filter. split; [|done]. intros ->. apply Hf. by left. }
    split_and!; [done..|]. refine (durable_step _ _ _ _ _ _ _ _ Hkeep _ Hdur).
    intros q m b Hq Hb Hf _. apply Hfr, Exists_exists. exists (q, m). split; [by apply Hkeep|done].
  - destruct (store_spec st L a v Hh Hlive) as (Hh1 & _ & Hother & Hsafe).
    destruct (IH Hh1 Hd Hal HR (Forall_impl _ _ _ Hs (fun '(q, _) Hq => Hsafe q Hq)))
      as (Hh' & Hd' & Hal' & Hdur).
    split_and!; [done..|]. refine (durable_step _ _ _ _ _ _ _ _ _ _ Hdur); [done|].
    intros q m b _ _ _ Hst. apply Hother. intros ->. apply (Hst v). by left.
Qed.

End Sound.

(** C28: Content durability on [mm.c] under the discipline. From any
    state of [mm.c] with its heap predicate and pairwise apart, 8-aligned
    live allocations, every disciplined run of [simple_malloc],
    [simple_free] and payload writes keeps the heap predicate, keeps the
    live allocations pairwise apart and 8-aligned, and leaves every byte
    of a live allocation that the run neither releases nor writes as it
    was. *)
Theorem mm_run_durable ar st L cs st' L' :
  arena_wf ar -> mm_heap ar st L -> disjoint_live L -> Forall (fun '(p, _) => p mod 8 = 0) L ->
  @run_ok mm_state (mm_ops ar) st L [] cs st' L' ->
  mm_heap ar st' L' /\ disjoint_live L' /\ Forall (fun '(p, _) => p mod 8 = 0) L' /\
  @durable mm_state (mm_ops ar) st L cs st' L'.
Proof.
  intros Hwf Hh Hd Hal Hr.
  exact (@run_ok_sound mm_state (mm_ops ar) (mm_laws ar Hwf) st L [] cs st' L' Hr Hh Hd Hal
           ltac:(intros e He; by apply elem_of_nil in He) (Forall_nil_2 _)).
Qed.
