(* ===== verification/Scenarios.v ===== *)
(** * Scenarios: the unit tests of [check_mm.c] and concrete runs

    Sequences of calls on a concrete arena, evaluated by the kernel: the
    deterministic test cases of [src/group_06_assign_3/check_mm.c] (one
    definition per [START_TEST]; the memory exerciser is in [Exerciser])
    and the suite that runs all four, the runner [main] ([check_main]),
    and the runs that exhibit the
    behaviours listed in the development's header: a release that leaves
    [current] on an absorbed header followed by allocations that overlap a
    live block, the memory exerciser reporting that corruption, and the
    wrap-around of the request size. It also holds the witnesses of the
    theorems with hypotheses. *)

From Stdlib Require Import ZArith Lia.
From stdpp Require Import base list gmap.
From S2P Require Import Prelude Machine Ledger Circle SimpleInit NextFit Malloc Free Allocator Coalesce Exhaustion Interface Client Exerciser MmInstance Durability.

Open Scope Z_scope.
Open Scope mm_scope.

(** ** Sequences of calls *)

(** A call of the client: allocate [size] bytes, or release the pointer
    returned by the [i]-th allocation so far. *)
Inductive op := OpMalloc (size : Z) | OpFree (i : nat).

(** The calls in order; the pointers returned are collected. [None]: a
    loop ran out of fuel, or a release names an allocation not made. *)
Fixpoint run (ar : arena) (st : mm_state) (ps : list Z) (ops : list op)
    : option (mm_state * list Z) :=
  match ops with
  | [] => Some (st, ps)
  | OpMalloc size :: ops' =>
      '(st', p) ← simple_malloc ar st size; run ar st' (ps ++ [p]) ops'
  | OpFree i :: ops' =>
      p ← ps !! i; st' ← simple_free ar st p; run ar st' ps ops'
  end.

(** The globals as the program starts: [first = current = NULL]. *)
Definition init_state : mm_state := MmState ∅ NULL NULL.

(** The blocks of a state, read back from memory, and the cursor. *)
Definition view (ar : arena) (st : mm_state) : option (list block * Z) * Z :=
  (walk (loop_fuel ar) (mem st) (first st) (first st), current st).

(** The byte ranges [[p, p + n)] and [[q, q + k)] intersect. *)
Definition overlap (p n q k : Z) : bool := (p <? q + k) && (q <? p + n).

(** ** The tests of [check_mm.c] *)

(** Lines 36-47: [ptr1 = MALLOC(10 * sizeof(int)); ck_assert(ptr1 != 0);
    FREE(ptr1);] The result is the state and the assertion; a failed
    assertion ends the test before the release. *)
Definition test_simple_allocation (ar : arena) (st : mm_state) : option (mm_state * bool) :=
  '(st1, ptr1) ← simple_malloc ar st (10 * 4);
  if ptr1 =? NULL then Some (st1, false)
  else st2 ← simple_free ar st1 ptr1; Some (st2, true).

(** Lines 53-67: two allocations of ten [int]s do not overlap
    ([ptr1 + 10 <= ptr2 || ptr2 + 10 <= ptr1] on [int *]), then both are
    released. *)
Definition test_simple_unique_addresses (ar : arena) (st : mm_state)
    : option (mm_state * bool) :=
  '(st1, ptr1) ← simple_malloc ar st (10 * 4);
  '(st2, ptr2) ← simple_malloc ar st1 (10 * 4);
  if (ptr1 + 10 * 4 <=? ptr2) || (ptr2 + 10 * 4 <=? ptr1) then
    st3 ← simple_free ar st2 ptr1; st4 ← simple_free ar st3 ptr2; Some (st4, true)
  else Some (st2, false).

(** Lines 70-85: three allocations of 32 bytes, the first released, a
    fourth allocation of 32 bytes is not placed where the first was. *)
Definition test_not_first_fit (ar : arena) (st : mm_state) : option (mm_state * bool) :=
  '(st1, a) ← simple_malloc ar st 32;
  '(st2, b) ← simple_malloc ar st1 32;
  '(st3, c) ← simple_malloc ar st2 32;
  st4 ← simple_free ar st3 a;
  '(st5, d) ← simple_malloc ar st4 32;
  Some (st5, negb (d =? a)).

(** Lines 241-255: the suite runs its tests one after the other in the
    same process ([CK_NOFORK]), so each starts from the state the previous
    one left, a failed one included; the memory exerciser, third, draws
    from the values [rnd] of [rand()]. A test passes when it returns
    [true] (the exerciser: [Passed]). *)
Definition suite (ar : arena) (rnd : nat -> Z) (st : mm_state) : option (mm_state * list bool) :=
  '(st1, r1) ← test_simple_allocation ar st;
  '(st2, r2) ← test_simple_unique_addresses ar st1;
  '(v, st3) ← @test_memory_exerciser mm_state (mm_ops ar) rnd st2;
  '(st4, r4) ← test_not_first_fit ar st3;
  Some (st4, [r1; r2; bool_decide (v = Passed); r4]).

(** Lines 261-271: the test driver runs the suite without forking and
    exits with 0 when no test failed, 1 otherwise; [None]: it does not
    exit. *)
Definition check_main (ar : arena) (rnd : nat -> Z) : option Z :=
  '(_, rs) ← suite ar rnd init_state;
  let number_failed := length (filter (fun r => r = false) rs) in
  Some (if Nat.eqb number_failed 0 then 0 else 1).

(** The arena of the concrete runs: 200 bytes at address 1000. *)
Definition small_arena : arena := Arena 1000 1200.

(** ** The tests, each from a fresh start *)

(** ** A release that leaves the cursor behind *)

(** [simple_free] never updates [current] (lines 156-192), so forward
    coalescing can absorb the header the cursor points to. Allocating 32
    bytes, releasing them and allocating 32 bytes twice more then hands out
    [1008] a second time, for 150 bytes that cover the live block at
    [1048]; the ledger read back from memory has lost that live block.
    Each step is a call of the program on its initial globals. *)
Theorem dangling_cursor_overlap :
  (exists st, run small_arena init_state [] [OpMalloc 32; OpFree 0] = Some (st, [1008]) /\
     view small_arena st = (Some ([Block 1000 true], 1192), 1040)) /\
  (exists st, run small_arena init_state [] [OpMalloc 32; OpFree 0; OpMalloc 32; OpMalloc 150]
       = Some (st, [1008; 1048; 1008]) /\
     overlap 1008 150 1048 32 = true /\
     view small_arena st = (Some ([Block 1000 false; Block 1160 true], 1192), 1160)).
Proof.
  split.
  - eexists. split; [vm_compute; reflexivity|]. vm_compute. reflexivity.
  - eexists. split; [vm_compute; reflexivity|]. split; vm_compute; reflexivity.
Qed.

(** The round trip of the specification fails: after an allocation of
    [n] bytes is released, the next allocation of [n] bytes is not placed
    where the first one was, although the arena is again one free block. *)
Theorem release_allocate_moves :
  exists st, run small_arena init_state [] [OpMalloc 32; OpFree 0; OpMalloc 32]
    = Some (st, [1008; 1048]).
Proof. eexists; vm_compute; reflexivity. Qed.

(** C8: [test_simple_unique_addresses] does not return when it runs after
    [test_simple_allocation], as the suite of lines 241-255 runs it: the
    first test leaves the cursor on an absorbed header; the second test
    gets two blocks carved inside the free block, and the release of the
    first one walks the circle [1000 -> 1192 -> 1000] for ever looking for
    the predecessor of a header no longer on it (lines 179-181). *)
Theorem unique_addresses_hangs :
  exists st1 st2 st3,
    test_simple_allocation small_arena init_state = Some (st1, true) /\
    simple_malloc small_arena st1 (10 * 4) = Some (st2, 1056) /\
    simple_malloc small_arena st2 (10 * 4) = Some (st3, 1104) /\
    forall fuel, free_with fuel st3 1056 = None.
Proof.
  eexists _, _, _.
  split; [vm_compute; reflexivity|]. split; [vm_compute; reflexivity|].
  split; [vm_compute; reflexivity|]. intros fuel.
  eapply (free_with_loops fuel 1 _ _ _ [1048; 1096; 1144; 1192; 1000]).
  - vm_compute. reflexivity.
  - vm_compute. reflexivity.
  - vm_compute. reflexivity.
  - vm_compute. reflexivity.
Qed.

(** An allocation of [SIZE_MAX] bytes succeeds: the rounding of line
    92 wraps to [0], the free block is split at the payload, and the
    pointer returned is the address of the new free header. *)
Theorem malloc_size_max_header :
  exists st, simple_malloc small_arena init_state (W - 1) = Some (st, 1008) /\
    view small_arena st = (Some ([Block 1000 false; Block 1008 true], 1192), 1008).
Proof. eexists. split; [vm_compute; reflexivity|]. vm_compute. reflexivity. Qed.

(** ** The theorems at concrete inputs

    Each theorem with hypotheses, applied to a state of the 200-byte arena
    where its hypotheses are checked by evaluation. *)

(** The state after the first call has initialised the arena. *)
Definition st_init : mm_state := simple_init small_arena init_state.

(** The state after [simple_malloc(32)] on the initial globals. *)
Definition st_one : mm_state :=
  match simple_malloc small_arena init_state 32 with Some (st, _) => st | None => init_state end.

Lemma simple_malloc_refines_witness :
  ledger st_init [Block 1000 true] 1192 /\ cursor_ok st_init [Block 1000 true] 1192 /\
  spans small_arena [Block 1000 true] 1192 /\ 0 <= 32 <= W - 8 /\
  exists st', simple_malloc small_arena st_init 32 = Some (st', 1008) /\ current st' = 1040 /\
    ledger st' [Block 1000 false; Block 1040 true] 1192.
Proof.
  assert (H1 : ledger st_init [Block 1000 true] 1192) by by_eval.
  assert (H2 : cursor_ok st_init [Block 1000 true] 1192) by by_eval.
  assert (H3 : spans small_arena [Block 1000 true] 1192) by by_eval.
  assert (H4 : 0 <= 32 <= W - 8) by (unfold W; lia).
  split; [done|]. split; [done|]. split; [done|]. split; [done|].
  pose proof (simple_malloc_refines small_arena st_init _ _ 32 H1 H2 H3 H4) as H.
  assert (E : malloc_spec (request_size 32) [Block 1000 true] 1192 (current st_init) =
              Some ([Block 1000 false; Block 1040 true], 1008, 1040)) by (vm_compute; reflexivity).
  rewrite E in H. destruct H as (st' & ? & ? & ? & _). exists st'. split_and!; assumption.
Defined.

Lemma simple_free_refines_witness :
  ledger st_one [Block 1000 false; Block 1040 true] 1192 /\
  spans small_arena [Block 1000 false; Block 1040 true] 1192 /\
  exists st', simple_free small_arena st_one 1008 = Some st' /\
    ledger st' [Block 1000 true] 1192.
Proof.
  assert (H1 : ledger st_one [Block 1000 false; Block 1040 true] 1192) by by_eval.
  assert (H2 : spans small_arena [Block 1000 false; Block 1040 true] 1192) by by_eval.
  split_and!; try assumption.
  destruct (simple_free_refines small_arena st_one _ _ [] (Block 1000 false) [Block 1040 true]
              H1 H2 eq_refl eq_refl) as (st' & Hf & _ & Hl & _).
  exists st'. split; [exact Hf|]. exact Hl.
Defined.

Lemma reachable_safe_witness :
  arena_wf small_arena /\ reachable small_arena st_one /\
  exists l s, mm_inv small_arena st_one l s /\ blocks_disjoint l s.
Proof.
  assert (Hw : arena_wf small_arena) by (unfold arena_wf, W; simpl; lia).
  assert (Hr : reachable small_arena st_one).
  { apply (reach_malloc small_arena init_state 32 st_one 1008).
    - by apply reach_start.
    - unfold W; lia.
    - vm_compute. reflexivity. }
  split; [done|]. split; [done|].
  destruct (reachable_safe small_arena st_one Hw Hr) as [H0 | (l & s & Hi & Hd & _)].
  - vm_compute in H0. discriminate.
  - eauto.
Defined.

Lemma simple_malloc_correct_witness :
  mm_inv small_arena st_init [Block 1000 true] 1192 /\
  exists st' p, simple_malloc small_arena st_init 100 = Some (st', p) /\ p mod 8 = 0.
Proof.
  assert (Hi : mm_inv small_arena st_init [Block 1000 true] 1192) by by_eval.
  split; [done|]. destruct Hi as (H1 & H2 & H3).
  destruct (simple_malloc_correct small_arena st_init _ _ 100 H1 H2 H3 ltac:(unfold W; lia))
    as (st' & p & Hm & [(Hp & _) | (l' & Hp & _)]).
  - exists st', p. rewrite Hm, Hp. done.
  - exists st', p. done.
Defined.

Lemma simple_malloc_next_fit_witness :
  scan_order [Block 1000 true] 1192 (current st_init) = [] ++ (Block 1000 true, 1192) :: [] /\
  exists st', simple_malloc small_arena st_init 100 = Some (st', 1008).
Proof.
  assert (Hi : mm_inv small_arena st_init [Block 1000 true] 1192) by by_eval.
  destruct Hi as (H1 & H2 & H3).
  assert (Ho : scan_order [Block 1000 true] 1192 (current st_init) =
               [] ++ (Block 1000 true, 1192) :: []) by (vm_compute; reflexivity).
  split; [done|].
  exact (simple_malloc_next_fit small_arena st_init _ _ 100 [] (Block 1000 true) 1192 []
           H1 H2 H3 ltac:(unfold W; lia) Ho (Forall_nil_2 _) eq_refl ltac:(vm_compute; discriminate)).
Defined.

Lemma simple_malloc_null_iff_witness :
  no_fit (request_size 1000) (sized [Block 1000 true] 1192) /\
  exists st', simple_malloc small_arena st_init 1000 = Some (st', NULL).
Proof.
  assert (Hi : mm_inv small_arena st_init [Block 1000 true] 1192) by by_eval.
  destruct Hi as (H1 & H2 & H3).
  assert (Hn : no_fit (request_size 1000) (sized [Block 1000 true] 1192)).
  { constructor; [|constructor]. intros _. vm_compute. reflexivity. }
  split; [done|].
  by apply (simple_malloc_null_iff small_arena st_init _ _ 1000 H1 H2 H3 ltac:(unfold W; lia)).
Defined.

Lemma two_allocations_disjoint_witness :
  exists st1 st2,
    simple_malloc small_arena st_init 40 = Some (st1, 1008) /\
    simple_malloc small_arena st1 40 = Some (st2, 1056) /\
    (1008 + 40 <= 1056 \/ 1056 + 40 <= 1008).
Proof.
  assert (Hi : mm_inv small_arena st_init [Block 1000 true] 1192) by by_eval.
  eexists _, _.
  split; [vm_compute; reflexivity|]. split; [vm_compute; reflexivity|].
  eapply (two_allocations_disjoint small_arena st_init _ _ 40 40); try eassumption.
  - unfold W; lia.
  - unfold W; lia.
  - vm_compute. reflexivity.
  - vm_compute. reflexivity.
  - discriminate.
  - discriminate.
Defined.

Lemma request_size_wraps_witness : W - 7 <= W - 1 < W /\ request_size (W - 1) = 0.
Proof.
  assert (H : W - 7 <= W - 1 < W) by (unfold W; lia).
  split; [done|]. exact (request_size_wraps (W - 1) H).
Defined.

Lemma simple_malloc_first_call_witness :
  arena_wf small_arena /\ arena_big small_arena /\
  exists st', simple_malloc small_arena init_state 32 = Some (st', 1008).
Proof.
  assert (Hw : arena_wf small_arena) by (unfold arena_wf, W; simpl; lia).
  assert (Hb : arena_big small_arena) by (unfold arena_big; vm_compute; discriminate).
  split; [done|]. split; [done|].
  destruct (simple_malloc_first_call small_arena init_state 32 Hw Hb eq_refl
              ltac:(unfold W; lia) ltac:(vm_compute; discriminate)) as (st' & Hm & _).
  by exists st'.
Defined.

(** An arena of 20 bytes: too small for a block and the sentinel. *)
Definition tiny_arena : arena := Arena 1000 1020.

Lemma simple_malloc_small_arena_witness :
  arena_wf tiny_arena /\ ~ arena_big tiny_arena /\
  simple_malloc tiny_arena init_state 8 = Some (simple_init tiny_arena init_state, NULL).
Proof.
  assert (Hw : arena_wf tiny_arena) by (unfold arena_wf, W; simpl; lia).
  assert (Hb : ~ arena_big tiny_arena) by (unfold arena_big; vm_compute; auto).
  split; [done|]. split; [done|].
  exact (proj1 (simple_malloc_small_arena tiny_arena init_state 8 Hw Hb eq_refl)).
Defined.

Lemma simple_free_double_witness :
  ledger st_init [Block 1000 true] 1192 /\ simple_free small_arena st_init 1008 = Some st_init.
Proof.
  assert (Hl : ledger st_init [Block 1000 true] 1192) by by_eval.
  split; [done|].
  exact (simple_free_double small_arena st_init _ _ [] (Block 1000 true) [] Hl eq_refl eq_refl).
Defined.

Lemma request_size_round_witness : 0 <= 13 <= W - 8 /\ request_size 13 = 16.
Proof.
  assert (H : 0 <= 13 <= W - 8) by (unfold W; lia).
  split; [done|]. destruct (request_size_round 13 H) as [-> _]. reflexivity.
Defined.

Lemma header_roundtrip_witness :
  aligned8 1192 /\ GET_NEXT (SET_FREE (SET_NEXT ∅ 1000 1192) 1000 (Z.b2z true)) 1000 = 1192.
Proof.
  assert (H : aligned8 1192) by (unfold aligned8, W; split; [reflexivity | lia]).
  split; [done|]. exact (proj1 (header_roundtrip ∅ 1000 1192 true 0 H)).
Defined.

Lemma main_mm_correct_witness :
  arena_wf small_arena /\ first init_state = NULL /\
  exists st' code out,
    @main mm_state (mm_ops small_arena) init_state [97; 97; 98; 97; 99; 97] = Some (st', code, out) /\
    ((code = 0 /\ out = spec_output (spec_loop [] 0 [97; 97; 98; 97; 99; 97])) \/
     (code = 1 /\ out = [])).
Proof.
  assert (Hw : arena_wf small_arena) by (unfold arena_wf, W; simpl; lia).
  split; [done|]. split; [reflexivity|].
  apply (main_mm_correct small_arena init_state _ Hw eq_refl). simpl. lia.
Defined.

(** ** [main.c] on the 200-byte arena *)

Lemma ledger_circular_witness :
  ledger st_one [Block 1000 false; Block 1040 true] 1192 /\
  1040 ∈ headers [Block 1000 false; Block 1040 true] 1192 /\
  Nat.iter 3 (GET_NEXT (mem st_one)) 1040 = 1040 /\
  Nat.iter 2 (GET_NEXT (mem st_one)) 1040 = 1000.
Proof.
  assert (H1 : ledger st_one [Block 1000 false; Block 1040 true] 1192) by by_eval.
  assert (H2 : 1040 ∈ headers [Block 1000 false; Block 1040 true] 1192)
    by (unfold headers; simpl; set_solver).
  destruct (ledger_circular st_one _ _ 1040 H1 H2) as [Hc Hall].
  split_and!; [exact H1|exact H2|exact Hc|].
  vm_compute. reflexivity.
Defined.

Lemma ledger_payload_sizes_witness :
  ledger st_one [Block 1000 false; Block 1040 true] 1192 /\
  (Block 1040 true, 1192) ∈ sized [Block 1000 false; Block 1040 true] 1192 /\
  SIZE (mem st_one) 1040 = 144.
Proof.
  assert (H1 : ledger st_one [Block 1000 false; Block 1040 true] 1192) by by_eval.
  assert (H2 : (Block 1040 true, 1192) ∈ sized [Block 1000 false; Block 1040 true] 1192)
    by (simpl; set_solver).
  destruct (ledger_payload_sizes st_one _ _ (Block 1040 true) 1192 H1 H2) as [Hs _].
  split_and!; [exact H1|exact H2|]. simpl in Hs. rewrite Hs. unfold HDR. lia.
Defined.

(** ** The memory exerciser on [mm.c] *)

(** An arena of 2072 bytes, and a sequence of [rand()] values: the first
    draw asks for 1024 bytes, the next fifteen draws (calls 257 to 271)
    are 0, then 1024 and 2005 bytes are drawn; every other call returns
    its index. *)
Definition ex_arena : arena := Arena 1000 3072.

Definition rnd_zero_run (k : nat) : Z :=
  if (k =? 0)%nat then 171
  else if ((257 <=? k) && (k <=? 271))%nat then 0
  else if (k =? 272)%nat then 171
  else if (k =? 529)%nat then 342
  else Z.of_nat k.

(** The exerciser of [check_mm.c] can fail on [mm.c]. When fifteen
    draws in a row are 0 (lines 126 and 164-166 skip the allocation, line
    194 still frees), the slot of the block allocated last comes round and
    that block is freed with no allocation in between: it absorbs the free
    block after it, on which [current] sits (lines 168-175), so after 16
    iterations the ledger is one free block [1000 -> 3064] and the cursor
    is [2032], inside it. The next allocation is carved at that stale
    header, the one after wraps to [first] and is carved over it, and the
    check of line 185 fails. The sequence violates [sched_ok], the
    hypothesis of C21. *)
Theorem exerciser_zero_draws_corrupt :
  sched_ok rnd_zero_run 1000 (replicate 16 None) 0 0 0 = false /\
  (exists es, @iterate mm_state (mm_ops ex_arena) rnd_zero_run 16
                (@ExState mm_state init_state (replicate 16 (Slot NULL 0 0 0)) 0 0 0) = Some (inr es) /\
              view ex_arena (ex_mem es) = (Some ([Block 1000 true], 3064), 2032)) /\
  exists st, @test_memory_exerciser mm_state (mm_ops ex_arena) rnd_zero_run init_state =
             Some (PreFreeCorruption, st).
Proof.
  split; [vm_compute; reflexivity|]. split.
  - eexists. split; [vm_compute; reflexivity|]. vm_compute. reflexivity.
  - eexists. vm_compute. reflexivity.
Qed.

Lemma exerciser_mm_passes_witness :
  arena_wf small_arena /\ first init_state = NULL /\
  sched_ok (fun _ => 1) 1000 (replicate 16 None) 0 0 0 = true /\
  exists v st', @test_memory_exerciser mm_state (mm_ops small_arena) (fun _ => 1) init_state = Some (v, st') /\
    (v = Passed \/ v = AllocFailed).
Proof.
  assert (Hw : arena_wf small_arena) by (unfold arena_wf, W; simpl; lia).
  assert (H0 : first init_state = NULL) by reflexivity.
  assert (Hs : sched_ok (fun _ => 1) 1000 (replicate 16 None) 0 0 0 = true) by (vm_compute; reflexivity).
  split_and!; [exact Hw|exact H0|exact Hs|].
  exact (exerciser_mm_passes small_arena init_state (fun _ => 1) Hw H0 Hs).
Defined.

Lemma simple_free_inv_iff_witness :
  mm_inv small_arena st_one [Block 1000 false; Block 1040 true] 1192 /\
  exists st', simple_free small_arena st_one 1008 = Some st' /\
    ~ mm_inv small_arena st' [Block 1000 true] 1192.
Proof.
  assert (Hi : mm_inv small_arena st_one [Block 1000 false; Block 1040 true] 1192) by by_eval.
  split; [exact Hi|].
  destruct (simple_free_inv_iff small_arena st_one _ _ [] (Block 1000 false) [Block 1040 true] Hi eq_refl eq_refl)
    as (st' & Hf & _ & Hiff).
  exists st'. split; [exact Hf|]. intros Hk.
  assert (E : free_spec (addr (Block 1000 false)) [Block 1000 false; Block 1040 true] = [Block 1000 true])
    by (vm_compute; reflexivity).
  rewrite E in Hiff. apply Hiff in Hk as [H1 _].
  apply H1. exists (Block 1040 true). split_and!; [done|done|vm_compute; reflexivity].
Defined.

Lemma exhaustion_returns_null_witness :
  arena_wf small_arena /\ first init_state = NULL /\
  exists ps st', alloc_until small_arena (loop_fuel small_arena) init_state 32 = Some (ps, st') /\
    (length ps < loop_fuel small_arena)%nat.
Proof.
  assert (Hw : arena_wf small_arena) by (unfold arena_wf, W; simpl; lia).
  assert (H0 : first init_state = NULL) by reflexivity.
  split_and!; [exact Hw|exact H0|].
  destruct (exhaustion_returns_null small_arena init_state 32 Hw (or_introl H0) ltac:(unfold W; lia))
    as (ps & st' & Hr & Hlen & _).
  exists ps, st'. split; [exact Hr|exact Hlen].
Defined.

(** On the 200-byte arena, allocations of 32 bytes succeed four times
    (at 1008, 1048, 1088 and 1128), then the fifth returns [NULL]. *)
Lemma exhaustion_small_arena :
  exists st', alloc_until small_arena (loop_fuel small_arena) init_state 32 =
              Some ([1008; 1048; 1088; 1128], st').
Proof. eexists. vm_compute. reflexivity. Qed.

Lemma exerciser_total_bound_witness :
  exists es, @iterate mm_state (mm_ops ex_arena) rnd_zero_run 16
               (@ExState mm_state init_state (replicate 16 (Slot NULL 0 0 0)) 0 0 0) = Some (inr es) /\
             0 <= total es < 2 ^ 23.
Proof.
  destruct (@iterate mm_state (mm_ops ex_arena) rnd_zero_run 16
              (@ExState mm_state init_state (replicate 16 (Slot NULL 0 0 0)) 0 0 0))
    as [[r|es]|] eqn:E; [vm_compute in E; discriminate| |vm_compute in E; discriminate].
  exists es. split; [reflexivity|].
  exact (proj2 (exerciser_total_bound rnd_zero_run init_state 16 es E)).
Defined.

Lemma walk_ledger_witness :
  ledger st_one [Block 1000 false; Block 1040 true] 1192 /\ (length [Block 1000 false; Block 1040 true] < 3)%nat /\
  walk 3 (mem st_one) (first st_one) (first st_one) = Some ([Block 1000 false; Block 1040 true], 1192).
Proof.
  assert (H1 : ledger st_one [Block 1000 false; Block 1040 true] 1192) by by_eval.
  split_and!; [exact H1|simpl; lia|exact (walk_ledger _ _ _ 3 H1 ltac:(simpl; lia))].
Defined.

(** ** Releases, fragmentation and durability *)

(** After [simple_malloc(32)] twice: two used blocks and a free one. *)
Definition st_two : mm_state :=
  match simple_malloc small_arena st_one 32 with Some (st, _) => st | None => init_state end.

Lemma release_all_one_block_witness :
  ledger st_two [Block 1000 false; Block 1040 false; Block 1080 true] 1192 /\
  spans small_arena [Block 1000 false; Block 1040 false; Block 1080 true] 1192 /\
  [1048; 1008] ≡ₚ used_ptrs [Block 1000 false; Block 1040 false; Block 1080 true] /\
  exists st', release_all small_arena st_two [1048; 1008] = Some st' /\
    ledger st' [Block (aligned_memory_start small_arena) true] 1192.
Proof.
  assert (H1 : ledger st_two [Block 1000 false; Block 1040 false; Block 1080 true] 1192) by by_eval.
  assert (H2 : spans small_arena [Block 1000 false; Block 1040 false; Block 1080 true] 1192) by by_eval.
  assert (H3 : [1048; 1008] ≡ₚ used_ptrs [Block 1000 false; Block 1040 false; Block 1080 true]).
  { assert (Hu : used_ptrs [Block 1000 false; Block 1040 false; Block 1080 true] = [1008; 1048])
      by (vm_compute; reflexivity).
    rewrite Hu. apply perm_swap. }
  refine (conj H1 (conj H2 (conj H3 _))).
  destruct (release_all_one_block small_arena st_two _ _ _ H1 H2 H3) as (st' & Hr & Hl & _).
  exists st'. split; [exact Hr|exact Hl].
Defined.

Lemma release_commute_witness :
  ledger st_two [Block 1000 false; Block 1040 false; Block 1080 true] 1192 /\
  spans small_arena [Block 1000 false; Block 1040 false; Block 1080 true] 1192 /\
  exists st1 st2,
    (simple_free small_arena st_two 1008 ≫= fun st' => simple_free small_arena st' 1048) = Some st1 /\
    (simple_free small_arena st_two 1048 ≫= fun st' => simple_free small_arena st' 1008) = Some st2 /\
    ledger st1 [Block 1000 true] 1192 /\ ledger st2 [Block 1000 true] 1192.
Proof.
  assert (H1 : ledger st_two [Block 1000 false; Block 1040 false; Block 1080 true] 1192) by by_eval.
  assert (H2 : spans small_arena [Block 1000 false; Block 1040 false; Block 1080 true] 1192) by by_eval.
  split; [exact H1|]. split; [exact H2|].
  pose proof (release_commute small_arena st_two _ _ [] (Block 1000 false) [] (Block 1040 false)
                [Block 1080 true] H1 H2 eq_refl eq_refl eq_refl) as H.
  cbv zeta in H. destruct H as (st1 & st2 & E1 & E2 & _ & _ & L1 & L2 & _).
  assert (Ec : coalesced ([] ++ Block (addr (Block 1000 false)) true :: [] ++
                 Block (addr (Block 1040 false)) true :: [Block 1080 true]) = [Block 1000 true])
    by (vm_compute; reflexivity).
  rewrite Ec in L1, L2. exists st1, st2. split_and!; [exact E1|exact E2|exact L1|exact L2].
Defined.

(** A disciplined run from [st_one], where [(1008, 32)] is live: allocate
    16 bytes at 1048, write 5 there, allocate 16 more at 1072, release
    1048. *)
Definition dur_a : mm_state :=
  match simple_malloc small_arena st_one 16 with Some (st, _) => st | None => init_state end.

Definition dur_b : mm_state :=
  match simple_malloc small_arena (set_mem dur_a (<[1048 := 5]> (mem dur_a))) 16 with
  | Some (st, _) => st | None => init_state end.

Definition dur_c : mm_state :=
  match simple_free small_arena dur_b 1048 with Some st => st | None => init_state end.

Definition dur_cmds : list cmd := [CAlloc 16; CStore 1048 5; CAlloc 16; CFree 1048].

Lemma mm_run_durable_witness :
  arena_wf small_arena /\ mm_heap small_arena st_one [(1008, 32)] /\ disjoint_live [(1008, 32)] /\
  Forall (fun '(p, _) => p mod 8 = 0) [(1008, 32)] /\
  @run_ok mm_state (mm_ops small_arena) st_one [(1008, 32)] [] dur_cmds dur_c [(1072, 16); (1008, 32)] /\
  mm_heap small_arena dur_c [(1072, 16); (1008, 32)] /\
  @durable mm_state (mm_ops small_arena) st_one [(1008, 32)] dur_cmds dur_c [(1072, 16); (1008, 32)].
Proof.
  assert (H1 : arena_wf small_arena) by by_eval.
  assert (H2 : mm_heap small_arena st_one [(1008, 32)]).
  { right. exists [Block 1000 false; Block 1040 true], 1192. split; [by_eval|].
    repeat constructor; [lia|]. exists 1040. split; [apply list_elem_of_here|lia]. }
  assert (H3 : disjoint_live [(1008, 32)]) by (cbn; split; [constructor|done]).
  assert (H4 : Forall (fun '(p, _) => p mod 8 = 0) [(1008, 32)]) by (repeat constructor).
  assert (H5 : @run_ok mm_state (mm_ops small_arena) st_one [(1008, 32)] [] dur_cmds dur_c
                 [(1072, 16); (1008, 32)]).
  { apply (run_alloc _ _ _ _ dur_a 1048); [unfold W; lia|vm_compute; reflexivity|discriminate|].
    apply run_store; [left; simpl; lia|].
    apply (run_alloc _ _ _ _ dur_b 1072); [unfold W; lia|vm_compute; reflexivity|discriminate|].
    apply (run_free _ _ _ _ 16 dur_c); [left|vm_compute; reflexivity|].
    apply run_done. }
  destruct (mm_run_durable small_arena st_one _ _ _ _ H1 H2 H3 H4 H5) as (H6 & _ & _ & H7).
  split_and!; assumption.
Defined.

Lemma alloc_release_roundtrip_witness :
  mm_inv small_arena st_init [Block 1000 true] 1192 /\ 0 <= 32 <= W - 8 /\
  simple_malloc small_arena st_init 32 = Some (st_one, 1008) /\ 1008 <> NULL /\
  exists st2, simple_free small_arena st_one 1008 = Some st2 /\
    ledger st2 [Block 1000 true] 1192 /\ ~ cursor_ok st2 [Block 1000 true] 1192.
Proof.
  assert (H1 : mm_inv small_arena st_init [Block 1000 true] 1192) by by_eval.
  assert (H2 : 0 <= 32 <= W - 8) by (unfold W; lia).
  assert (H3 : simple_malloc small_arena st_init 32 = Some (st_one, 1008)) by (vm_compute; reflexivity).
  assert (H4 : 1008 <> NULL) by (unfold NULL; lia).
  refine (conj H1 (conj H2 (conj H3 (conj H4 _)))).
  destruct (alloc_release_roundtrip small_arena st_init _ _ 32 st_one 1008 H1 H2 H3 H4)
    as (l1 & st2 & Hl1 & Hf & Hl2 & _ & Hc).
  assert (Hone : ledger st_one [Block 1000 false; Block 1040 true] 1192) by by_eval.
  rewrite (ledger_unique _ _ _ _ Hl1 Hone) in Hc. cbn in Hc.
  exists st2. split_and!; [exact Hf|exact Hl2|]. rewrite Hc. lia.
Defined.
